(** * The factory graph of du-factory-generator (src/graph.ts)

    A shallow embedding of the node classes of [graph.ts] (ContainerNode,
    TransferContainerNode, OutputNode, IndustryNode, TransferNode) and of
    FactoryGraph, with the properties of the link checks, the wiring
    operations, the rate queries and the container-size selection.

    Objects live in a store indexed by reference; a JavaScript [Set] of
    node references is a [gset], the catalog of [items.ts] and
    [recipes.ts] is a record of look-up functions.  A [Set] is iterated
    in insertion order and a [gset] in the order of its keys; the loops
    over sets only add numbers up, and the addition of the numbers below
    is commutative and associative. *)

From Stdlib Require Import ZArith QArith Qreduction String Sorted.
From stdpp Require Import base option list gmap sets fin_sets strings pretty.

Local Open Scope Z_scope.

(** ** JavaScript numbers

    A [number] is an exact rational, one of the two infinities, or NaN.
    Rounding is not modelled and the negative zero is identified with
    zero.  Finite results are kept in lowest terms, so that equal numbers
    are equal terms. *)

Inductive number : Type :=
| Fin (q : Q)
| PInf
| NInf
| NaN.

Module Num.

Definition zero : number := Fin 0.
Definition one : number := Fin 1.
Definition of_Z (z : Z) : number := Fin (inject_Z z).
Definition of_nat (n : nat) : number := of_Z (Z.of_nat n).

(** sign of a finite number: -1, 0, 1 *)
Definition sgn (q : Q) : Z := Z.sgn (Qnum q).

Definition is_finite (a : number) : bool :=
  match a with Fin _ => true | _ => false end.

(** [a + b] *)
Definition add (a b : number) : number :=
  match a, b with
  | NaN, _ | _, NaN => NaN
  | Fin x, Fin y => Fin (Qred (x + y))
  | PInf, NInf | NInf, PInf => NaN
  | PInf, _ | _, PInf => PInf
  | NInf, _ | _, NInf => NInf
  end.

(** the infinity of sign [s], NaN for sign 0 *)
Definition inf_of_sign (s : Z) : number :=
  match s with
  | Z0 => NaN
  | Zpos _ => PInf
  | Zneg _ => NInf
  end.

(** [a * b] *)
Definition mul (a b : number) : number :=
  match a, b with
  | NaN, _ | _, NaN => NaN
  | Fin x, Fin y => Fin (Qred (x * y))
  | Fin x, PInf | PInf, Fin x => inf_of_sign (sgn x)
  | Fin x, NInf | NInf, Fin x => inf_of_sign (- sgn x)
  | PInf, PInf | NInf, NInf => PInf
  | PInf, NInf | NInf, PInf => NaN
  end.

(** [a / b]; a finite non-zero number over zero is an infinity, zero
    over zero is NaN *)
Definition div (a b : number) : number :=
  match a, b with
  | NaN, _ | _, NaN => NaN
  | Fin x, Fin y =>
      if Qeq_bool y 0 then inf_of_sign (sgn x) else Fin (Qred (x / y))
  | Fin _, PInf | Fin _, NInf => Fin 0
  | PInf, Fin y => if (sgn y <? 0) then NInf else PInf
  | NInf, Fin y => if (sgn y <? 0) then PInf else NInf
  | PInf, PInf | PInf, NInf | NInf, PInf | NInf, NInf => NaN
  end.

(** [a <= b] *)
Definition leb (a b : number) : bool :=
  match a, b with
  | NaN, _ | _, NaN => false
  | Fin x, Fin y => Qle_bool x y
  | NInf, _ => true
  | _, PInf => true
  | _, _ => false
  end.

(** [a === b] *)
Definition eqb (a b : number) : bool :=
  match a, b with
  | Fin x, Fin y => Qeq_bool x y
  | PInf, PInf | NInf, NInf => true
  | _, _ => false
  end.

(** [Math.min(a, b)] *)
Definition min (a b : number) : number :=
  match a, b with
  | NaN, _ | _, NaN => NaN
  | _, _ => if leb a b then a else b
  end.

(** a divisor that is neither zero nor NaN *)
Definition nonzero (a : number) : bool :=
  match a with
  | Fin y => negb (Qeq_bool y 0)
  | NaN => false
  | _ => true
  end.

(** [xs.reduce((total, x) => total + x, 0)] *)
Definition sum (xs : list number) : number := fold_left add xs zero.

End Num.

(** ** Results of a call

    A call returns a value, throws, or exhausts the recursion budget of
    the relay-rate recursion ([OutOfFuel]; when that happens at every
    budget the call never returns a value). *)

Inductive error : Type :=
| EmptyCatalog        (* Error("CONTAINERS_ASCENDING_BY_CAPACITY is empty") *)
| NoRecipe            (* findRecipe found no recipe *)
| DanglingReference.  (* a reference to an object that is not in the store *)

Inductive outcome (A : Type) : Type :=
| Ret (a : A)
| Throw (e : error)
| OutOfFuel.
Arguments Ret {A} a.
Arguments Throw {A} e.
Arguments OutOfFuel {A}.

#[global] Instance outcome_ret : MRet outcome := @Ret.
#[global] Instance outcome_bind : MBind outcome := λ A B f m,
  match m with
  | Ret a => f a
  | Throw e => Throw e
  | OutOfFuel => OutOfFuel
  end.

Definition returns {A} (m : outcome A) : Prop := ∃ a, m = Ret a.

Definition of_option {A} (e : error) (o : option A) : outcome A :=
  match o with
  | Some a => Ret a
  | None => Throw e
  end.

(** [for (const x of xs) { acc = f(acc, x) }] *)
Fixpoint foldM {A B} (f : B → A → outcome B) (xs : list A) (acc : B) : outcome B :=
  match xs with
  | [] => Ret acc
  | x :: xs' => acc' ← f acc x; foldM f xs' acc'
  end.

(** [xs.map(f)] *)
Fixpoint mapM_outcome {A B} (f : A → outcome B) (xs : list A) : outcome (list B) :=
  match xs with
  | [] => Ret []
  | x :: xs' => y ← f x; ys ← mapM_outcome f xs'; Ret (y :: ys)
  end.

(** ** The catalog (items.ts, recipes.ts)

    An [Item] is a reference to a catalog object; [===] on items is
    equality of references. *)

Definition Item := nat.

(** an ingredient, product or byproduct: [{ item, quantity }] *)
Record ItemQuantity : Type := {
  item : Item;
  quantity : number;
}.

Record Recipe : Type := {
  ingredients : list ItemQuantity;
  byproducts : list ItemQuantity;
  product : ItemQuantity;
  time : number;
}.

Record ContainerElement : Type := {
  ce_name : string;
  capacity : number;
}.

(** What graph.ts imports: the fields [name] and [volume] of an item,
    [isOre], [findRecipe] ([None] when it throws) and the list of
    container sizes. *)
Record Catalog : Type := {
  item_name : Item → string;
  volume : Item → number;
  isOre : Item → bool;
  findRecipe : Item → option Recipe;
  CONTAINERS_ASCENDING_BY_CAPACITY : list ContainerElement;
}.

(** ** Node objects *)

(** [IndustryNode | TransferNode] *)
Inductive UnitRef : Type :=
| IndustryRef (id : nat)
| TransferRef (id : nat).

(** [ContainerNode | TransferContainerNode] *)
Inductive BufferRef : Type :=
| ContainerRef (id : nat)
| TransferContainerRef (id : nat).

#[global] Instance UnitRef_eq_dec : EqDecision UnitRef.
Proof. solve_decision. Defined.
#[global] Instance BufferRef_eq_dec : EqDecision BufferRef.
Proof. solve_decision. Defined.

Definition UnitRef_to_sum (u : UnitRef) : nat + nat :=
  match u with IndustryRef i => inl i | TransferRef t => inr t end.
Definition UnitRef_of_sum (s : nat + nat) : UnitRef :=
  match s with inl i => IndustryRef i | inr t => TransferRef t end.
Definition BufferRef_to_sum (b : BufferRef) : nat + nat :=
  match b with ContainerRef c => inl c | TransferContainerRef c => inr c end.
Definition BufferRef_of_sum (s : nat + nat) : BufferRef :=
  match s with inl c => ContainerRef c | inr c => TransferContainerRef c end.

#[global] Instance UnitRef_countable : Countable UnitRef.
Proof. apply (inj_countable' UnitRef_to_sum UnitRef_of_sum). by intros []. Defined.
#[global] Instance BufferRef_countable : Countable BufferRef.
Proof. apply (inj_countable' BufferRef_to_sum BufferRef_of_sum). by intros []. Defined.

(** the two fields an OutputNode adds to a ContainerNode *)
Record OutputFields : Type := {
  outputRate : number;
  maintainedOutput : number;
}.

(** A ContainerNode; [c_output] is [Some] for an instance of the
    subclass OutputNode.  The back reference [factory] is never read and
    is left out of every node. *)
Record ContainerNode : Type := {
  c_name : string;
  c_item : Item;
  c_split : number;
  c_output : option OutputFields;
  c_producers : gset UnitRef;
  c_consumers : gset UnitRef;
}.

Record TransferContainerNode : Type := {
  tc_name : string;
  tc_items : list Item;
  tc_producers : gset nat;   (* Set<TransferNode> *)
  tc_consumers : gset nat;   (* Set<IndustryNode> *)
}.

Record IndustryNode : Type := {
  i_name : string;
  i_recipe : Recipe;
  i_inputs : gset BufferRef;
  i_output : option nat;     (* ContainerNode | undefined *)
}.

Record TransferNode : Type := {
  t_name : string;
  t_item : Item;
  t_transferRate : number;
  t_inputs : gset nat;       (* Set<ContainerNode> *)
  t_output : option BufferRef;
}.

(** The object store: the nodes that have been constructed. *)
Record Heap : Type := {
  containerNodes : gmap nat ContainerNode;
  transferContainerNodes : gmap nat TransferContainerNode;
  industryNodes : gmap nat IndustryNode;
  transferNodes : gmap nat TransferNode;
}.

Definition deref {A} (m : gmap nat A) (r : nat) : outcome A :=
  of_option DanglingReference (m !! r).

Record FactoryGraph : Type := {
  containers : gset nat;
  industries : gset nat;
  transferUnits : gset nat;
  transferContainers : gset nat;
  temporaryContainers : gset nat;
}.

(** Maximum number of incoming/outgoing container links *)
Definition MAX_CONTAINER_LINKS : number := Num.of_Z 10.

(** Maximum number of incoming industry links *)
Definition MAX_INDUSTRY_LINKS : number := Num.of_Z 7.

(** ** The methods of the node classes *)

Section Methods.
Context (cat : Catalog).

(** [findRecipe(item)], which throws when there is no recipe *)
Definition findRecipe_or_throw (i : Item) : outcome Recipe :=
  of_option NoRecipe (findRecipe cat i).

(** *** IndustryNode *)

(** [get item()]: [this.recipe.product.item] *)
Definition IndustryNode_item (this : IndustryNode) : Item :=
  item (product (i_recipe this)).

Definition IndustryNode_incomingLinkCount (this : IndustryNode) : nat :=
  size (i_inputs this).

(** [new IndustryNode(name, item, factory)] *)
Definition IndustryNode_new (name : string) (i : Item) : outcome IndustryNode :=
  recipe ← findRecipe_or_throw i;
  Ret {| i_name := name; i_recipe := recipe; i_inputs := ∅; i_output := None |}.

Definition IndustryNode_getOutput (this : IndustryNode) (i : Item) : outcome number :=
  recipe ← findRecipe_or_throw (IndustryNode_item this);
  let total :=
    fold_left
      (λ total produced,
         if decide (i = item produced)
         then Num.add total (quantity produced) else total)
      (byproducts recipe ++ [product recipe]) Num.zero in
  Ret (Num.div total (time recipe)).

Definition IndustryNode_getInput (this : IndustryNode) (i : Item) : outcome number :=
  recipe ← findRecipe_or_throw (IndustryNode_item this);
  let total :=
    fold_left
      (λ total ingredient,
         if decide (item ingredient = i)
         then Num.add total (quantity ingredient) else total)
      (ingredients recipe) Num.zero in
  Ret (Num.div total (time recipe)).

Definition IndustryNode_canAddIncomingLinks (this : IndustryNode) (count : number) : bool :=
  Num.leb (Num.add (Num.of_nat (IndustryNode_incomingLinkCount this)) count)
          MAX_INDUSTRY_LINKS.

(** *** TransferNode *)

Definition TransferNode_new (name : string) (i : Item) : TransferNode :=
  {| t_name := name; t_item := i; t_transferRate := PInf;
     t_inputs := ∅; t_output := None |}.

Definition TransferNode_incomingLinkCount (this : TransferNode) : nat :=
  size (t_inputs this).

(** [get outflowRate()].  It calls [inflowRatePerContainer] of the relay
    consumers of its output, which calls their [outflowRate]: [fuel]
    bounds the depth of these calls. *)
Fixpoint TransferNode_outflowRate (h : Heap) (fuel : nat) (this : TransferNode)
  : outcome number :=
  match fuel with
  | O => OutOfFuel
  | S fuel' =>
      let inflowRatePerContainer (consumer : TransferNode) : outcome number :=
        rate ← TransferNode_outflowRate h fuel' consumer;
        Ret (Num.div rate (Num.of_nat (size (t_inputs consumer)))) in
      consumptionRate ←
        match t_output this with
        | None => Ret Num.zero
        | Some (ContainerRef c) =>
            out ← deref (containerNodes h) c;
            foldM
              (λ consumptionRate consumer,
                 match consumer with
                 | IndustryRef i =>
                     node ← deref (industryNodes h) i;
                     rate ← IndustryNode_getInput node (t_item this);
                     Ret (Num.add consumptionRate rate)
                 | TransferRef t =>
                     node ← deref (transferNodes h) t;
                     rate ← inflowRatePerContainer node;
                     Ret (Num.add consumptionRate rate)
                 end)
              (elements (c_consumers out)) Num.zero
        | Some (TransferContainerRef c) =>
            out ← deref (transferContainerNodes h) c;
            foldM
              (λ consumptionRate i,
                 node ← deref (industryNodes h) i;
                 rate ← IndustryNode_getInput node (t_item this);
                 Ret (Num.add consumptionRate rate))
              (elements (tc_consumers out)) Num.zero
        end;
      Ret (Num.min consumptionRate (t_transferRate this))
  end.

(** [get inflowRatePerContainer()] *)
Definition TransferNode_inflowRatePerContainer (h : Heap) (fuel : nat)
    (this : TransferNode) : outcome number :=
  rate ← TransferNode_outflowRate h fuel this;
  Ret (Num.div rate (Num.of_nat (size (t_inputs this)))).

Definition TransferNode_canAddIncomingLinks (this : TransferNode) (count : number) : bool :=
  Num.leb (Num.add (Num.of_nat (TransferNode_incomingLinkCount this)) count)
          MAX_INDUSTRY_LINKS.

(** [consumer.item] for a consumer or producer of either class *)
Definition UnitRef_item (h : Heap) (u : UnitRef) : outcome Item :=
  match u with
  | IndustryRef i => node ← deref (industryNodes h) i; Ret (IndustryNode_item node)
  | TransferRef t => node ← deref (transferNodes h) t; Ret (t_item node)
  end.

(** *** ContainerNode and OutputNode *)

Definition ContainerNode_new (name : string) (i : Item) (split : number) : ContainerNode :=
  {| c_name := name; c_item := i; c_split := split; c_output := None;
     c_producers := ∅; c_consumers := ∅ |}.

Definition OutputNode_new (name : string) (i : Item) (rate maintained : number)
  : ContainerNode :=
  {| c_name := name; c_item := i; c_split := Num.one;
     c_output := Some {| outputRate := rate; maintainedOutput := maintained |};
     c_producers := ∅; c_consumers := ∅ |}.

Definition ContainerNode_incomingLinkCount (this : ContainerNode) : nat :=
  size (c_producers this).

Definition ContainerNode_outgoingLinkCount (this : ContainerNode) : nat :=
  size (c_consumers this).

Definition ContainerNode_ingress (h : Heap) (fuel : nat) (this : ContainerNode)
  : outcome number :=
  if isOre cat (c_item this) then Ret PInf
  else
    rates ← mapM_outcome
      (λ producer,
         match producer with
         | IndustryRef i =>
             node ← deref (industryNodes h) i;
             IndustryNode_getOutput node (c_item this)
         | TransferRef t =>
             node ← deref (transferNodes h) t;
             if decide (t_item node = c_item this)
             then TransferNode_outflowRate h fuel node
             else Ret Num.zero
         end)
      (elements (c_producers this));
    Ret (Num.sum rates).

(** [ContainerNode.prototype.egress] *)
Definition ContainerNode_egress_base (h : Heap) (fuel : nat) (this : ContainerNode)
  : outcome number :=
  rates ← mapM_outcome
    (λ consumer,
       match consumer with
       | IndustryRef i =>
           node ← deref (industryNodes h) i;
           rate ← IndustryNode_getInput node (c_item this);
           Ret (Num.mul (c_split this) rate)
       | TransferRef t =>
           node ← deref (transferNodes h) t;
           if decide (t_item node = c_item this)
           then TransferNode_inflowRatePerContainer h fuel node
           else Ret Num.zero
       end)
    (elements (c_consumers this));
  Ret (Num.sum rates).

(** [get egress()], with the override of OutputNode *)
Definition ContainerNode_egress (h : Heap) (fuel : nat) (this : ContainerNode)
  : outcome number :=
  base ← ContainerNode_egress_base h fuel this;
  match c_output this with
  | None => Ret base
  | Some o => Ret (Num.add base (outputRate o))
  end.

(** [ContainerNode.prototype.maintain] *)
Definition ContainerNode_maintain_base (h : Heap) (this : ContainerNode)
  : outcome number :=
  maintain ← foldM
    (λ maintain consumer,
       match consumer with
       | TransferRef _ => Ret maintain
       | IndustryRef i =>
           node ← deref (industryNodes h) i;
           recipe ← findRecipe_or_throw (IndustryNode_item node);
           Ret (fold_left
                  (λ maintain ingredient,
                     if decide (item ingredient = c_item this)
                     then Num.add maintain (quantity ingredient) else maintain)
                  (ingredients recipe) maintain)
       end)
    (elements (c_consumers this)) Num.zero;
  Ret (Num.mul maintain (c_split this)).

(** [get maintain()], with the override of OutputNode *)
Definition ContainerNode_maintain (h : Heap) (this : ContainerNode) : outcome number :=
  base ← ContainerNode_maintain_base h this;
  match c_output this with
  | None => Ret base
  | Some o => Ret (Num.add base (maintainedOutput o))
  end.

(** The loop of both [container] getters: every size whose capacity
    covers [requiredCapacity] overwrites the one chosen before. *)
Definition select_container (requiredCapacity : number) (first : ContainerElement)
    (sizes : list ContainerElement) : ContainerElement :=
  fold_left
    (λ requiredContainer checkContainer,
       if Num.leb requiredCapacity (capacity checkContainer)
       then checkContainer else requiredContainer)
    sizes first.

Definition ContainerNode_container (h : Heap) (this : ContainerNode)
  : outcome ContainerElement :=
  match CONTAINERS_ASCENDING_BY_CAPACITY cat with
  | [] => Throw EmptyCatalog
  | first :: _ =>
      maintain ← ContainerNode_maintain h this;
      let requiredCapacity := Num.mul maintain (volume cat (c_item this)) in
      Ret (select_container requiredCapacity first
             (CONTAINERS_ASCENDING_BY_CAPACITY cat))
  end.

Definition ContainerNode_isSplit (this : ContainerNode) : bool :=
  negb (Num.eqb (c_split this) Num.one).

Definition ContainerNode_canAddIncomingLinks (this : ContainerNode) (count : number) : bool :=
  Num.leb (Num.add (Num.of_nat (ContainerNode_incomingLinkCount this)) count)
          MAX_CONTAINER_LINKS.

Definition ContainerNode_canAddOutgoingLinks (h : Heap) (this : ContainerNode)
    (count : number) : outcome bool :=
  if ContainerNode_isSplit this then Ret false
  else if isOre cat (c_item this) then
    Ret (Num.leb (Num.add (Num.of_nat (ContainerNode_outgoingLinkCount this)) count)
                 MAX_CONTAINER_LINKS)
  else
    recipe ← findRecipe_or_throw (c_item this);
    reservedByproductLinks ← foldM
      (λ reserved byproduct,
         foldM
           (λ reserved consumer,
              consumer_item ← UnitRef_item h consumer;
              Ret (if decide (consumer_item = item byproduct)
                   then (reserved + -1)%Z else reserved))
           (elements (c_consumers this)) reserved)
      (byproducts recipe) (Z.of_nat (length (byproducts recipe)));
    Ret (Num.leb
           (Num.add
              (Num.add (Num.of_nat (ContainerNode_outgoingLinkCount this)) count)
              (Num.of_Z reservedByproductLinks))
           MAX_CONTAINER_LINKS).

(** *** TransferContainerNode *)

Definition TransferContainerNode_new (name : string) (items : list Item)
  : TransferContainerNode :=
  {| tc_name := name; tc_items := items; tc_producers := ∅; tc_consumers := ∅ |}.

Definition TransferContainerNode_incomingLinkCount (this : TransferContainerNode) : nat :=
  size (tc_producers this).

Definition TransferContainerNode_outgoingLinkCount (this : TransferContainerNode) : nat :=
  size (tc_consumers this).

(** A [Map<Item, Quantity>] as the list of its entries in insertion
    order: [get] ([None] where [has] is false) and [set]. *)
Definition Map_get (m : list (Item * number)) (k : Item) : option number :=
  snd <$> List.find (λ e, bool_decide (e.1 = k)) m.

Fixpoint Map_set (m : list (Item * number)) (k : Item) (v : number)
  : list (Item * number) :=
  match m with
  | [] => [(k, v)]
  | e :: m' => if decide (e.1 = k) then (k, v) :: m' else e :: Map_set m' k v
  end.

Definition TransferContainerNode_maintain (h : Heap) (this : TransferContainerNode)
  : outcome (list (Item * number)) :=
  foldM
    (λ maintain i,
       foldM
         (λ maintain consumer,
            node ← deref (industryNodes h) consumer;
            recipe ← findRecipe_or_throw (IndustryNode_item node);
            Ret (fold_left
                   (λ maintain ingredient,
                      if decide (item ingredient = i)
                      then match Map_get maintain i with
                           | Some q => Map_set maintain i (Num.add q (quantity ingredient))
                           | None => Map_set maintain i (quantity ingredient)
                           end
                      else maintain)
                   (ingredients recipe) maintain))
         (elements (tc_consumers this)) maintain)
    (tc_items this) [].

Definition TransferContainerNode_container (h : Heap) (this : TransferContainerNode)
  : outcome ContainerElement :=
  match CONTAINERS_ASCENDING_BY_CAPACITY cat with
  | [] => Throw EmptyCatalog
  | first :: _ =>
      maintain ← TransferContainerNode_maintain h this;
      let requiredCapacity :=
        fold_left
          (λ requiredCapacity entry,
             Num.add requiredCapacity (Num.mul entry.2 (volume cat entry.1)))
          maintain Num.zero in
      Ret (select_container requiredCapacity first
             (CONTAINERS_ASCENDING_BY_CAPACITY cat))
  end.

Definition TransferContainerNode_canAddIncomingLinks (this : TransferContainerNode)
    (count : number) : bool :=
  Num.leb (Num.add (Num.of_nat (TransferContainerNode_incomingLinkCount this)) count)
          MAX_CONTAINER_LINKS.

Definition TransferContainerNode_canAddOutgoingLinks (this : TransferContainerNode)
    (count : number) : bool :=
  Num.leb (Num.add (Num.of_nat (TransferContainerNode_outgoingLinkCount this)) count)
          MAX_CONTAINER_LINKS.

End Methods.

(** ** Wiring: takeFrom and outputTo

    The methods that mutate the store.  An update of a field of the
    object behind a reference is [alter] on the store. *)

Definition with_containerNodes (f : gmap nat ContainerNode → gmap nat ContainerNode)
    (h : Heap) : Heap :=
  {| containerNodes := f (containerNodes h);
     transferContainerNodes := transferContainerNodes h;
     industryNodes := industryNodes h;
     transferNodes := transferNodes h |}.

Definition with_transferContainerNodes
    (f : gmap nat TransferContainerNode → gmap nat TransferContainerNode)
    (h : Heap) : Heap :=
  {| containerNodes := containerNodes h;
     transferContainerNodes := f (transferContainerNodes h);
     industryNodes := industryNodes h;
     transferNodes := transferNodes h |}.

Definition with_industryNodes (f : gmap nat IndustryNode → gmap nat IndustryNode)
    (h : Heap) : Heap :=
  {| containerNodes := containerNodes h;
     transferContainerNodes := transferContainerNodes h;
     industryNodes := f (industryNodes h);
     transferNodes := transferNodes h |}.

Definition with_transferNodes (f : gmap nat TransferNode → gmap nat TransferNode)
    (h : Heap) : Heap :=
  {| containerNodes := containerNodes h;
     transferContainerNodes := transferContainerNodes h;
     industryNodes := industryNodes h;
     transferNodes := f (transferNodes h) |}.

Definition c_with_producers (f : gset UnitRef → gset UnitRef) (n : ContainerNode)
  : ContainerNode :=
  {| c_name := c_name n; c_item := c_item n; c_split := c_split n;
     c_output := c_output n;
     c_producers := f (c_producers n); c_consumers := c_consumers n |}.

Definition c_with_consumers (f : gset UnitRef → gset UnitRef) (n : ContainerNode)
  : ContainerNode :=
  {| c_name := c_name n; c_item := c_item n; c_split := c_split n;
     c_output := c_output n;
     c_producers := c_producers n; c_consumers := f (c_consumers n) |}.

Definition tc_with_producers (f : gset nat → gset nat) (n : TransferContainerNode)
  : TransferContainerNode :=
  {| tc_name := tc_name n; tc_items := tc_items n;
     tc_producers := f (tc_producers n); tc_consumers := tc_consumers n |}.

Definition tc_with_consumers (f : gset nat → gset nat) (n : TransferContainerNode)
  : TransferContainerNode :=
  {| tc_name := tc_name n; tc_items := tc_items n;
     tc_producers := tc_producers n; tc_consumers := f (tc_consumers n) |}.

Definition i_with_inputs (f : gset BufferRef → gset BufferRef) (n : IndustryNode)
  : IndustryNode :=
  {| i_name := i_name n; i_recipe := i_recipe n;
     i_inputs := f (i_inputs n); i_output := i_output n |}.

Definition i_with_output (o : option nat) (n : IndustryNode) : IndustryNode :=
  {| i_name := i_name n; i_recipe := i_recipe n;
     i_inputs := i_inputs n; i_output := o |}.

Definition t_with_inputs (f : gset nat → gset nat) (n : TransferNode) : TransferNode :=
  {| t_name := t_name n; t_item := t_item n; t_transferRate := t_transferRate n;
     t_inputs := f (t_inputs n); t_output := t_output n |}.

Definition t_with_output (o : option BufferRef) (n : TransferNode) : TransferNode :=
  {| t_name := t_name n; t_item := t_item n; t_transferRate := t_transferRate n;
     t_inputs := t_inputs n; t_output := o |}.

(** [container.producers.add(u)], [.delete(u)] and [container.consumers.add(u)]
    for a container of the class of the reference *)
Definition producers_add (u : UnitRef) (b : BufferRef) (h : Heap) : Heap :=
  match b, u with
  | ContainerRef c, _ =>
      with_containerNodes (alter (c_with_producers (λ s, s ∪ {[u]})) c) h
  | TransferContainerRef c, TransferRef t =>
      with_transferContainerNodes (alter (tc_with_producers (λ s, s ∪ {[t]})) c) h
  | TransferContainerRef _, IndustryRef _ => h
  end.

Definition producers_delete (u : UnitRef) (b : BufferRef) (h : Heap) : Heap :=
  match b, u with
  | ContainerRef c, _ =>
      with_containerNodes (alter (c_with_producers (λ s, s ∖ {[u]})) c) h
  | TransferContainerRef c, TransferRef t =>
      with_transferContainerNodes (alter (tc_with_producers (λ s, s ∖ {[t]})) c) h
  | TransferContainerRef _, IndustryRef _ => h
  end.

Definition consumers_add (u : UnitRef) (b : BufferRef) (h : Heap) : Heap :=
  match b, u with
  | ContainerRef c, _ =>
      with_containerNodes (alter (c_with_consumers (λ s, s ∪ {[u]})) c) h
  | TransferContainerRef c, IndustryRef i =>
      with_transferContainerNodes (alter (tc_with_consumers (λ s, s ∪ {[i]})) c) h
  | TransferContainerRef _, TransferRef _ => h
  end.

(** [IndustryNode.takeFrom(container: ContainerNode | TransferContainerNode)] *)
Definition IndustryNode_takeFrom (h : Heap) (this : nat) (container : BufferRef) : Heap :=
  let h1 := with_industryNodes (alter (i_with_inputs (λ s, s ∪ {[container]})) this) h in
  consumers_add (IndustryRef this) container h1.

(** [IndustryNode.outputTo(container: ContainerNode)] *)
Definition IndustryNode_outputTo (h : Heap) (this : nat) (container : nat) : Heap :=
  let h1 :=
    match industryNodes h !! this ≫= i_output with
    | Some old => producers_delete (IndustryRef this) (ContainerRef old) h
    | None => h
    end in
  let h2 := with_industryNodes (alter (i_with_output (Some container)) this) h1 in
  producers_add (IndustryRef this) (ContainerRef container) h2.

(** [TransferNode.takeFrom(container: ContainerNode)] *)
Definition TransferNode_takeFrom (h : Heap) (this : nat) (container : nat) : Heap :=
  let h1 := with_transferNodes (alter (t_with_inputs (λ s, s ∪ {[container]})) this) h in
  consumers_add (TransferRef this) (ContainerRef container) h1.

(** [TransferNode.outputTo(container: ContainerNode | TransferContainerNode)] *)
Definition TransferNode_outputTo (h : Heap) (this : nat) (container : BufferRef) : Heap :=
  let h1 :=
    match transferNodes h !! this ≫= t_output with
    | Some old => producers_delete (TransferRef this) old h
    | None => h
    end in
  let h2 := with_transferNodes (alter (t_with_output (Some container)) this) h1 in
  producers_add (TransferRef this) container h2.

(** ** FactoryGraph *)

(** [new]: the object gets a reference that is not in use *)
Definition new_ContainerNode (node : ContainerNode) (h : Heap) : Heap * nat :=
  let r := fresh (dom (containerNodes h)) in
  (with_containerNodes (insert r node) h, r).

Definition new_TransferContainerNode (node : TransferContainerNode) (h : Heap)
  : Heap * nat :=
  let r := fresh (dom (transferContainerNodes h)) in
  (with_transferContainerNodes (insert r node) h, r).

Definition new_IndustryNode (node : IndustryNode) (h : Heap) : Heap * nat :=
  let r := fresh (dom (industryNodes h)) in
  (with_industryNodes (insert r node) h, r).

Definition new_TransferNode (node : TransferNode) (h : Heap) : Heap * nat :=
  let r := fresh (dom (transferNodes h)) in
  (with_transferNodes (insert r node) h, r).

Definition empty_heap : Heap :=
  {| containerNodes := ∅; transferContainerNodes := ∅;
     industryNodes := ∅; transferNodes := ∅ |}.

Definition empty_graph : FactoryGraph :=
  {| containers := ∅; industries := ∅; transferUnits := ∅;
     transferContainers := ∅; temporaryContainers := ∅ |}.

(** [Array.from(refs).filter(p)] on a list of references *)
Definition filter_nodes {A} (m : gmap nat A) (p : A → outcome bool) (refs : list nat)
  : outcome (list nat) :=
  foldM
    (λ kept r,
       node ← deref m r;
       keep ← p node;
       Ret (if keep : bool then kept ++ [r] else kept))
    refs [].

Section Graph.
Context (cat : Catalog).

(** [get products()] *)
Definition FactoryGraph_products (h : Heap) (this : FactoryGraph) : outcome (gset Item) :=
  nodes ← mapM_outcome (deref (containerNodes h)) (elements (containers this));
  Ret (list_to_set (c_item <$> nodes)).

Definition FactoryGraph_getIndustries (h : Heap) (this : FactoryGraph) (i : Item)
  : outcome (gset nat) :=
  kept ← filter_nodes (industryNodes h)
    (λ node, Ret (bool_decide (IndustryNode_item node = i)))
    (elements (industries this));
  Ret (list_to_set kept).

Definition FactoryGraph_getConsumers (h : Heap) (this : FactoryGraph) (i : Item)
  : outcome (gset nat) :=
  kept ← filter_nodes (industryNodes h)
    (λ node,
       recipe ← findRecipe_or_throw cat (IndustryNode_item node);
       Ret (existsb (λ ingredient, bool_decide (item ingredient = i))
              (ingredients recipe)))
    (elements (industries this));
  Ret (list_to_set kept).

Definition FactoryGraph_getTransferUnits (h : Heap) (this : FactoryGraph) (i : Item)
  : outcome (gset nat) :=
  kept ← filter_nodes (transferNodes h)
    (λ node, Ret (bool_decide (t_item node = i)))
    (elements (transferUnits this));
  Ret (list_to_set kept).

Definition FactoryGraph_getContainers (h : Heap) (this : FactoryGraph) (i : Item)
  : outcome (gset nat) :=
  kept ← filter_nodes (containerNodes h)
    (λ node, Ret (bool_decide (c_item node = i)))
    (elements (containers this));
  Ret (list_to_set kept).

Definition FactoryGraph_getTransferContainers (h : Heap) (this : FactoryGraph)
    (items : gset Item) : outcome (gset nat) :=
  let transferContainers := elements (transferContainers this) in
  (* Filter only those containing one or more of items *)
  transferContainers ← filter_nodes (transferContainerNodes h)
    (λ node,
       Ret (existsb (λ i, bool_decide (i ∈ elements items)) (tc_items node)))
    transferContainers;
  (* Filter out those containing anything not in items *)
  transferContainers ← filter_nodes (transferContainerNodes h)
    (λ node,
       Ret (existsb (λ i, negb (bool_decide (i ∈ tc_items node))) (elements items)))
    transferContainers;
  Ret (list_to_set transferContainers).

Definition FactoryGraph_createIndustry (h : Heap) (this : FactoryGraph) (i : Item)
  : outcome (Heap * FactoryGraph * nat) :=
  producing ← FactoryGraph_getIndustries h this i;
  let name := item_name cat i +:+ " P" +:+ pretty (size producing) in
  industry ← IndustryNode_new cat name i;
  let '(h', r) := new_IndustryNode industry h in
  Ret (h',
       {| containers := containers this;
          industries := industries this ∪ {[r]};
          transferUnits := transferUnits this;
          transferContainers := transferContainers this;
          temporaryContainers := temporaryContainers this |},
       r).

Definition FactoryGraph_createTransferUnit (h : Heap) (this : FactoryGraph) (i : Item)
  : outcome (Heap * FactoryGraph * nat) :=
  transfers ← FactoryGraph_getTransferUnits h this i;
  let name := item_name cat i +:+ " T" +:+ pretty (size transfers) in
  let '(h', r) := new_TransferNode (TransferNode_new name i) h in
  Ret (h',
       {| containers := containers this;
          industries := industries this;
          transferUnits := transferUnits this ∪ {[r]};
          transferContainers := transferContainers this;
          temporaryContainers := temporaryContainers this |},
       r).

(** [add] of a new container to [this.containers] *)
Definition FactoryGraph_add_container (this : FactoryGraph) (r : nat) : FactoryGraph :=
  {| containers := containers this ∪ {[r]};
     industries := industries this;
     transferUnits := transferUnits this;
     transferContainers := transferContainers this;
     temporaryContainers := temporaryContainers this |}.

Definition FactoryGraph_createTemporaryContainer (h : Heap) (this : FactoryGraph)
    (i : Item) : Heap * FactoryGraph * nat :=
  let name := "" in
  let '(h', r) := new_ContainerNode (ContainerNode_new name i Num.one) h in
  (h',
   {| containers := containers this;
      industries := industries this;
      transferUnits := transferUnits this;
      transferContainers := transferContainers this;
      temporaryContainers := temporaryContainers this ∪ {[r]} |},
   r).

Definition FactoryGraph_createContainer (h : Heap) (this : FactoryGraph) (i : Item)
  : outcome (Heap * FactoryGraph * nat) :=
  containers ← FactoryGraph_getContainers h this i;
  let name := item_name cat i +:+ " C" +:+ pretty (size containers) in
  let '(h', r) := new_ContainerNode (ContainerNode_new name i Num.one) h in
  Ret (h', FactoryGraph_add_container this r, r).

Definition FactoryGraph_createSplitContainer (h : Heap) (this : FactoryGraph)
    (i : Item) (split : number) : outcome (Heap * FactoryGraph * nat) :=
  containers ← FactoryGraph_getContainers h this i;
  let name := item_name cat i +:+ " C" +:+ pretty (size containers) in
  let '(h', r) := new_ContainerNode (ContainerNode_new name i split) h in
  Ret (h', FactoryGraph_add_container this r, r).

Definition FactoryGraph_createTransferContainer (h : Heap) (this : FactoryGraph)
    (items : list Item) : Heap * FactoryGraph * nat :=
  let name := "Transfer Container " +:+ pretty (size (transferContainers this)) in
  let '(h', r) := new_TransferContainerNode (TransferContainerNode_new name items) h in
  (h',
   {| containers := containers this;
      industries := industries this;
      transferUnits := transferUnits this;
      transferContainers := transferContainers this ∪ {[r]};
      temporaryContainers := temporaryContainers this |},
   r).

Definition FactoryGraph_createOutput (h : Heap) (this : FactoryGraph) (i : Item)
    (outputRate maintainedOutput : number) : outcome (Heap * FactoryGraph * nat) :=
  containers ← FactoryGraph_getContainers h this i;
  let name := item_name cat i +:+ " C" +:+ pretty (size containers) in
  let '(h', r) :=
    new_ContainerNode (OutputNode_new name i outputRate maintainedOutput) h in
  Ret (h', FactoryGraph_add_container this r, r).

End Graph.

(** ** Graph states and their edges *)

(** the wiring calls by the classes of the receiver and of the argument;
    [None] where the signature of the method excludes the argument *)
Definition takeFrom (h : Heap) (u : UnitRef) (b : BufferRef) : option Heap :=
  match u, b with
  | IndustryRef i, _ => Some (IndustryNode_takeFrom h i b)
  | TransferRef t, ContainerRef c => Some (TransferNode_takeFrom h t c)
  | TransferRef _, TransferContainerRef _ => None
  end.

Definition outputTo (h : Heap) (u : UnitRef) (b : BufferRef) : option Heap :=
  match u, b with
  | IndustryRef i, ContainerRef c => Some (IndustryNode_outputTo h i c)
  | IndustryRef _, TransferContainerRef _ => None
  | TransferRef t, _ => Some (TransferNode_outputTo h t b)
  end.

Definition unit_allocated (h : Heap) (u : UnitRef) : bool :=
  match u with
  | IndustryRef i => bool_decide (is_Some (industryNodes h !! i))
  | TransferRef t => bool_decide (is_Some (transferNodes h !! t))
  end.

Definition buffer_allocated (h : Heap) (b : BufferRef) : bool :=
  match b with
  | ContainerRef c => bool_decide (is_Some (containerNodes h !! c))
  | TransferContainerRef c => bool_decide (is_Some (transferContainerNodes h !! c))
  end.

(** What a client of graph.ts can do to the store: construct a node,
    or wire two nodes it holds. *)
Inductive operation : Type :=
| NewContainerNode (name : string) (i : Item) (split : number)
| NewOutputNode (name : string) (i : Item) (rate maintained : number)
| NewTransferContainerNode (name : string) (items : list Item)
| NewIndustryNode (name : string) (i : Item)
| NewTransferNode (name : string) (i : Item)
| TakeFrom (u : UnitRef) (b : BufferRef)
| OutputTo (u : UnitRef) (b : BufferRef).

Definition perform (cat : Catalog) (op : operation) (h : Heap) : option Heap :=
  match op with
  | NewContainerNode name i split =>
      Some (new_ContainerNode (ContainerNode_new name i split) h).1
  | NewOutputNode name i rate maintained =>
      Some (new_ContainerNode (OutputNode_new name i rate maintained) h).1
  | NewTransferContainerNode name items =>
      Some (new_TransferContainerNode (TransferContainerNode_new name items) h).1
  | NewIndustryNode name i =>
      match IndustryNode_new cat name i with
      | Ret node => Some (new_IndustryNode node h).1
      | _ => None
      end
  | NewTransferNode name i =>
      Some (new_TransferNode (TransferNode_new name i) h).1
  | TakeFrom u b =>
      if unit_allocated h u && buffer_allocated h b then takeFrom h u b else None
  | OutputTo u b =>
      if unit_allocated h u && buffer_allocated h b then outputTo h u b else None
  end.

Fixpoint run (cat : Catalog) (ops : list operation) (h : Heap) : option Heap :=
  match ops with
  | [] => Some h
  | op :: ops' => h' ← perform cat op h; run cat ops' h'
  end.

(** [u] is in [b.producers] *)
Definition is_producer (h : Heap) (u : UnitRef) (b : BufferRef) : Prop :=
  match b, u with
  | ContainerRef c, _ =>
      match containerNodes h !! c with
      | Some node => u ∈ c_producers node
      | None => False
      end
  | TransferContainerRef c, TransferRef t =>
      match transferContainerNodes h !! c with
      | Some node => t ∈ tc_producers node
      | None => False
      end
  | TransferContainerRef _, IndustryRef _ => False
  end.

(** [u] is in [b.consumers] *)
Definition is_consumer (h : Heap) (u : UnitRef) (b : BufferRef) : Prop :=
  match b, u with
  | ContainerRef c, _ =>
      match containerNodes h !! c with
      | Some node => u ∈ c_consumers node
      | None => False
      end
  | TransferContainerRef c, IndustryRef i =>
      match transferContainerNodes h !! c with
      | Some node => i ∈ tc_consumers node
      | None => False
      end
  | TransferContainerRef _, TransferRef _ => False
  end.

(** [u.output] *)
Definition output_of (h : Heap) (u : UnitRef) : option BufferRef :=
  match u with
  | IndustryRef i => node ← industryNodes h !! i; ContainerRef <$> i_output node
  | TransferRef t => node ← transferNodes h !! t; t_output node
  end.

(** [b] is in [u.inputs] *)
Definition is_input (h : Heap) (u : UnitRef) (b : BufferRef) : Prop :=
  match u, b with
  | IndustryRef i, _ =>
      match industryNodes h !! i with
      | Some node => b ∈ i_inputs node
      | None => False
      end
  | TransferRef t, ContainerRef c =>
      match transferNodes h !! t with
      | Some node => c ∈ t_inputs node
      | None => False
      end
  | TransferRef _, TransferContainerRef _ => False
  end.

(** [b.incomingLinkCount] *)
Definition incomingLinkCount (h : Heap) (b : BufferRef) : nat :=
  match b with
  | ContainerRef c =>
      from_option ContainerNode_incomingLinkCount 0%nat (containerNodes h !! c)
  | TransferContainerRef c =>
      from_option TransferContainerNode_incomingLinkCount 0%nat
        (transferContainerNodes h !! c)
  end.

Definition edge_symmetric (h : Heap) : Prop :=
  ∀ u b, (is_producer h u b ↔ output_of h u = Some b)
         ∧ (is_consumer h u b ↔ is_input h u b).

(** a rank of the relays that decreases from a relay to the relays that
    draw from its output: the relay chains have no cycle *)
Definition relays_ranked (h : Heap) (rank : nat → nat) : Prop :=
  ∀ t node c out t',
    transferNodes h !! t = Some node →
    t_output node = Some (ContainerRef c) →
    containerNodes h !! c = Some out →
    TransferRef t' ∈ c_consumers out →
    (rank t' < rank t)%nat.

(** ** Well-formed catalogs and stores *)

(** the store after [this.output.producers.delete(this)] in [outputTo] *)
Definition delete_old (h : Heap) (u : UnitRef) : Heap :=
  match output_of h u with
  | Some old => producers_delete u old h
  | None => h
  end.

(** a recipe found for an item makes that item *)
Definition catalog_coherent (cat : Catalog) : Prop :=
  ∀ i r, findRecipe cat i = Some r → item (product r) = i.

(** [findRecipe(node.item)] finds the recipe of every industry *)
Definition recipes_resolve (cat : Catalog) (h : Heap) : Prop :=
  ∀ i node, industryNodes h !! i = Some node →
    findRecipe cat (IndustryNode_item node) = Some (i_recipe node).

(** a recursion budget above the rank of every relay of the store *)
Definition enough_fuel (h : Heap) (rank : nat → nat) : nat :=
  S (max_list (rank <$> elements (dom (transferNodes h)))).

(** ** The statements of the specification, and a small catalog *)

(** the quantity of [i] among the byproducts and the product of a recipe,
    added up in the order of the loop of [getOutput] *)
Definition output_quantity (r : Recipe) (i : Item) : number :=
  Num.sum (quantity <$> filter (λ p, item p = i) (byproducts r ++ [product r])).

(** a container size covers a required capacity *)
Definition covers (requiredCapacity : number) (size : ContainerElement) : bool :=
  Num.leb requiredCapacity (capacity size).

(** [size] is the smallest of [sizes] that covers [requiredCapacity] *)
Definition smallest_covering (requiredCapacity : number) (sizes : list ContainerElement)
    (size : ContainerElement) : Prop :=
  size ∈ sizes ∧ covers requiredCapacity size = true ∧
  ∀ other, other ∈ sizes → covers requiredCapacity other = true →
           Num.leb (capacity size) (capacity other) = true.

(** a transfer container matches a queried set of items: it holds one of
    them and nothing else *)
Definition matches_exactly (node : TransferContainerNode) (items : gset Item) : Prop :=
  (∃ i, i ∈ tc_items node ∧ i ∈ items) ∧ (∀ i, i ∈ tc_items node → i ∈ items).

(** the byproduct items of a recipe, each once, that no consumer in
    [consumer_items] takes *)
Definition unconsumed_byproducts (r : Recipe) (consumer_items : list Item) : list Item :=
  filter (λ i, i ∉ consumer_items) (remove_dups (item <$> byproducts r)).

Definition bauxite : Item := 0%nat.
Definition aluminium : Item := 1%nat.
Definition oxygen : Item := 2%nat.
Definition hydrogen : Item := 3%nat.
Definition frame : Item := 4%nat.

Definition aluminium_recipe : Recipe :=
  {| ingredients := [ {| item := bauxite; quantity := Num.of_Z 65 |} ];
     byproducts := [ {| item := oxygen; quantity := Num.of_Z 5 |};
                     {| item := hydrogen; quantity := Num.of_Z 5 |} ];
     product := {| item := aluminium; quantity := Num.of_Z 45 |};
     time := Num.of_Z 25 |}.

Definition frame_recipe : Recipe :=
  {| ingredients := [ {| item := aluminium; quantity := Num.of_Z 2 |} ];
     byproducts := [];
     product := {| item := frame; quantity := Num.of_Z 1 |};
     time := Num.of_Z 10 |}.

Definition size_XS : ContainerElement := {| ce_name := "XS"; capacity := Num.of_Z 1000 |}.
Definition size_S : ContainerElement := {| ce_name := "S"; capacity := Num.of_Z 8000 |}.
Definition size_M : ContainerElement := {| ce_name := "M"; capacity := Num.of_Z 64000 |}.
Definition size_L : ContainerElement := {| ce_name := "L"; capacity := Num.of_Z 128000 |}.

Definition demo_items (i : Item) : string :=
  if decide (i = bauxite) then "Bauxite"
  else if decide (i = aluminium) then "Pure Aluminium"
  else if decide (i = oxygen) then "Pure Oxygen"
  else if decide (i = hydrogen) then "Pure Hydrogen"
  else "Basic Standard Frame".

Definition demo_catalog : Catalog :=
  {| item_name := demo_items;
     volume := λ _, Num.of_Z 10;
     isOre := λ i, bool_decide (i = bauxite);
     findRecipe := λ i,
       if decide (i = aluminium) then Some aluminium_recipe
       else if decide (i = frame) then Some frame_recipe
       else None;
     CONTAINERS_ASCENDING_BY_CAPACITY := [size_XS; size_S; size_M; size_L] |}.

(** the same catalog without container sizes *)
Definition catalog_without_sizes : Catalog :=
  {| item_name := demo_items;
     volume := volume demo_catalog;
     isOre := isOre demo_catalog;
     findRecipe := findRecipe demo_catalog;
     CONTAINERS_ASCENDING_BY_CAPACITY := [] |}.

(** One frame industry that draws aluminium from container 0 and from
    transfer container 0 and fills container 1; container 2 is free. *)
Definition frame_line_ops : list operation :=
  [ NewContainerNode "Pure Aluminium C0" aluminium Num.one;
    NewContainerNode "Basic Standard Frame C0" frame Num.one;
    NewContainerNode "Basic Standard Frame C1" frame Num.one;
    NewTransferContainerNode "Transfer Container 0" [aluminium; oxygen];
    NewIndustryNode "Basic Standard Frame P0" frame;
    TakeFrom (IndustryRef 0) (ContainerRef 0);
    TakeFrom (IndustryRef 0) (TransferContainerRef 0);
    OutputTo (IndustryRef 0) (ContainerRef 1) ].

Definition frame_line : Heap :=
  default empty_heap (run demo_catalog frame_line_ops empty_heap).

Definition frame_line_graph : FactoryGraph :=
  {| containers := {[ 0%nat; 1%nat; 2%nat ]}; industries := {[ 0%nat ]};
     transferUnits := ∅; transferContainers := {[ 0%nat ]};
     temporaryContainers := ∅ |}.

(** An aluminium container from which two relays take the byproduct
    oxygen. *)
Definition oxygen_relays_ops : list operation :=
  [ NewContainerNode "Pure Aluminium C0" aluminium Num.one;
    NewTransferNode "Pure Oxygen T0" oxygen;
    NewTransferNode "Pure Oxygen T1" oxygen;
    TakeFrom (TransferRef 0) (ContainerRef 0);
    TakeFrom (TransferRef 1) (ContainerRef 0) ].

Definition oxygen_relays : Heap :=
  default empty_heap (run demo_catalog oxygen_relays_ops empty_heap).

(** A relay that moves aluminium from container 0 back into container 0. *)
Definition relay_loop_ops : list operation :=
  [ NewContainerNode "Pure Aluminium C0" aluminium Num.one;
    NewTransferNode "Pure Aluminium T0" aluminium;
    TakeFrom (TransferRef 0) (ContainerRef 0);
    OutputTo (TransferRef 0) (ContainerRef 0) ].

Definition relay_loop : Heap :=
  default empty_heap (run demo_catalog relay_loop_ops empty_heap).

(** A relay that moves aluminium from container 0 to container 1, from
    which a frame industry draws; relay 1 has no input yet. *)
Definition relay_line_ops : list operation :=
  [ NewContainerNode "Pure Aluminium C0" aluminium Num.one;
    NewContainerNode "Pure Aluminium C1" aluminium Num.one;
    NewTransferNode "Pure Aluminium T0" aluminium;
    NewIndustryNode "Basic Standard Frame P0" frame;
    NewTransferNode "Pure Aluminium T1" aluminium;
    TakeFrom (TransferRef 0) (ContainerRef 0);
    OutputTo (TransferRef 0) (ContainerRef 1);
    TakeFrom (IndustryRef 0) (ContainerRef 1);
    OutputTo (TransferRef 1) (ContainerRef 1) ].

Definition relay_line : Heap :=
  default empty_heap (run demo_catalog relay_line_ops empty_heap).

(** a container split in two halves *)
Definition half_container : ContainerNode :=
  ContainerNode_new "Pure Aluminium C1" aluminium (Fin (1 # 2)).

Definition frame_industry : IndustryNode :=
  {| i_name := "Basic Standard Frame P0"; i_recipe := frame_recipe;
     i_inputs := ∅; i_output := None |}.

(** Two relays in a row: container 0, relay 0, container 1, relay 1,
    container 2, from which a frame industry draws. *)
Definition relay_chain_ops : list operation :=
  [ NewContainerNode "Pure Aluminium C0" aluminium Num.one;
    NewContainerNode "Pure Aluminium C1" aluminium Num.one;
    NewContainerNode "Pure Aluminium C2" aluminium Num.one;
    NewTransferNode "Pure Aluminium T0" aluminium;
    NewTransferNode "Pure Aluminium T1" aluminium;
    NewIndustryNode "Basic Standard Frame P0" frame;
    TakeFrom (TransferRef 0) (ContainerRef 0);
    OutputTo (TransferRef 0) (ContainerRef 1);
    TakeFrom (TransferRef 1) (ContainerRef 1);
    OutputTo (TransferRef 1) (ContainerRef 2);
    TakeFrom (IndustryRef 0) (ContainerRef 2) ].

Definition relay_chain : Heap :=
  default empty_heap (run demo_catalog relay_chain_ops empty_heap).

(** relay 0 feeds relay 1 *)
Definition relay_chain_rank (t : nat) : nat :=
  match t with
  | O => 1%nat
  | S _ => 0%nat
  end.

(** the reservations that the loop of [canAddOutgoingLinks] releases:
    one for every pair of a byproduct and a consumer with its item *)
Definition released_links (r : Recipe) (consumer_items : list Item) : Z :=
  foldr (λ byproduct released,
           Z.of_nat (length (filter (λ i, i = item byproduct) consumer_items))
           + released)
        0 (byproducts r).

(** the list of sizes ascends by capacity *)
Definition ascending (sizes : list ContainerElement) : Prop :=
  StronglySorted (λ a b, Num.leb (capacity a) (capacity b) = true) sizes.

(** ** Further statements *)

(** the quantity of [i] among the ingredients of a recipe *)
Definition consumed_quantity (r : Recipe) (i : Item) : number :=
  Num.sum (quantity <$> filter (λ p, item p = i) (ingredients r)).

(** the capacity that [TransferContainerNode.container] requires for the
    entries of [maintain] *)
Definition required_capacity_of (cat : Catalog) (maintain : list (Item * number))
  : number :=
  fold_left
    (λ requiredCapacity entry,
       Num.add requiredCapacity (Num.mul entry.2 (volume cat entry.1)))
    maintain Num.zero.

(** an ore container and an empty transfer container *)
Definition bauxite_container : ContainerNode :=
  ContainerNode_new "Bauxite C0" bauxite Num.one.

Definition empty_transfer_container : TransferContainerNode :=
  TransferContainerNode_new "Transfer Container 0" [aluminium].

(** a catalog whose sizes are all too small for 20 units of volume *)
Definition small_sizes_catalog : Catalog :=
  {| item_name := demo_items;
     volume := volume demo_catalog;
     isOre := isOre demo_catalog;
     findRecipe := findRecipe demo_catalog;
     CONTAINERS_ASCENDING_BY_CAPACITY :=
       [ {| ce_name := "tiny"; capacity := Num.of_Z 5 |};
         {| ce_name := "small"; capacity := Num.of_Z 10 |} ] |}.

(** [b.outgoingLinkCount] *)
Definition outgoingLinkCount (h : Heap) (b : BufferRef) : nat :=
  match b with
  | ContainerRef c =>
      from_option ContainerNode_outgoingLinkCount 0%nat (containerNodes h !! c)
  | TransferContainerRef c =>
      from_option TransferContainerNode_outgoingLinkCount 0%nat
        (transferContainerNodes h !! c)
  end.

(** [u.incomingLinkCount] *)
Definition unit_incomingLinkCount (h : Heap) (u : UnitRef) : nat :=
  match u with
  | IndustryRef i =>
      from_option IndustryNode_incomingLinkCount 0%nat (industryNodes h !! i)
  | TransferRef t =>
      from_option TransferNode_incomingLinkCount 0%nat (transferNodes h !! t)
  end.

(** the quantities of the item [i] that the production units among
    [consumers] take per cycle, in the order of the loops of [maintain] *)
Definition ingredient_needs (cat : Catalog) (h : Heap) (i : Item)
    (consumers : list UnitRef) : list number :=
  consumers ≫= λ consumer,
    match consumer with
    | TransferRef _ => []
    | IndustryRef k =>
        match industryNodes h !! k with
        | Some node =>
            match findRecipe cat (IndustryNode_item node) with
            | Some recipe =>
                quantity <$> filter (λ p, item p = i) (ingredients recipe)
            | None => []
            end
        | None => []
        end
    end.

(** the value of a map entry after the quantities [qs] have been added to
    it one by one, the first one creating the entry *)
Definition accumulate (entry : option number) (qs : list number) : option number :=
  fold_left
    (λ entry q,
       match entry with
       | Some v => Some (Num.add v q)
       | None => Some q
       end)
    qs entry.

(** A transfer container that lists aluminium twice, with the frame
    industry as its consumer. *)
Definition doubled_items_ops : list operation :=
  [ NewTransferContainerNode "Transfer Container 0" [aluminium; aluminium];
    NewIndustryNode "Basic Standard Frame P0" frame;
    TakeFrom (IndustryRef 0) (TransferContainerRef 0) ].

Definition doubled_items : Heap :=
  default empty_heap (run demo_catalog doubled_items_ops empty_heap).

(** ** Programs on a factory graph *)

(** the calls of a client that builds a graph through its [create]
    methods and wires the nodes it got from them *)
Inductive graph_operation : Type :=
| CreateIndustry (i : Item)
| CreateTransferUnit (i : Item)
| CreateTemporaryContainer (i : Item)
| CreateContainer (i : Item)
| CreateSplitContainer (i : Item) (split : number)
| CreateTransferContainer (items : list Item)
| CreateOutput (i : Item) (outputRate maintainedOutput : number)
| CallTakeFrom (u : UnitRef) (b : BufferRef)
| CallOutputTo (u : UnitRef) (b : BufferRef).

(** the store and the graph after a [create] call that returned *)
Definition created {A} (m : outcome (Heap * FactoryGraph * A))
  : option (Heap * FactoryGraph) :=
  match m with
  | Ret (h, g, _) => Some (h, g)
  | _ => None
  end.

Definition graph_perform (cat : Catalog) (op : graph_operation)
    (s : Heap * FactoryGraph) : option (Heap * FactoryGraph) :=
  let '(h, g) := s in
  match op with
  | CreateIndustry i => created (FactoryGraph_createIndustry cat h g i)
  | CreateTransferUnit i => created (FactoryGraph_createTransferUnit cat h g i)
  | CreateTemporaryContainer i =>
      created (Ret (FactoryGraph_createTemporaryContainer h g i))
  | CreateContainer i => created (FactoryGraph_createContainer cat h g i)
  | CreateSplitContainer i split =>
      created (FactoryGraph_createSplitContainer cat h g i split)
  | CreateTransferContainer items =>
      created (Ret (FactoryGraph_createTransferContainer h g items))
  | CreateOutput i outputRate maintainedOutput =>
      created (FactoryGraph_createOutput cat h g i outputRate maintainedOutput)
  | CallTakeFrom u b => h' ← perform cat (TakeFrom u b) h; Some (h', g)
  | CallOutputTo u b => h' ← perform cat (OutputTo u b) h; Some (h', g)
  end.

Fixpoint graph_run (cat : Catalog) (ops : list graph_operation)
    (s : Heap * FactoryGraph) : option (Heap * FactoryGraph) :=
  match ops with
  | [] => Some s
  | op :: ops' => s' ← graph_perform cat op s; graph_run cat ops' s'
  end.

(** every member of the sets of the graph is an object of the store *)
Definition graph_closed (h : Heap) (g : FactoryGraph) : Prop :=
  (∀ r, r ∈ containers g → is_Some (containerNodes h !! r))
  ∧ (∀ r, r ∈ industries g → is_Some (industryNodes h !! r))
  ∧ (∀ r, r ∈ transferUnits g → is_Some (transferNodes h !! r))
  ∧ (∀ r, r ∈ transferContainers g → is_Some (transferContainerNodes h !! r))
  ∧ (∀ r, r ∈ temporaryContainers g → is_Some (containerNodes h !! r)).

(** the members of [this.containers], [this.industries] and
    [this.transferUnits] whose [item] is [i] *)
Definition containers_of (h : Heap) (g : FactoryGraph) (i : Item) : gset nat :=
  filter (λ r, c_item <$> containerNodes h !! r = Some i) (containers g).

Definition industries_of (h : Heap) (g : FactoryGraph) (i : Item) : gset nat :=
  filter (λ r, IndustryNode_item <$> industryNodes h !! r = Some i) (industries g).

Definition transferUnits_of (h : Heap) (g : FactoryGraph) (i : Item) : gset nat :=
  filter (λ r, t_item <$> transferNodes h !! r = Some i) (transferUnits g).

(** the [create] calls that add to [this.containers] *)
Definition container_item (op : graph_operation) : option Item :=
  match op with
  | CreateContainer i | CreateSplitContainer i _ | CreateOutput i _ _ => Some i
  | _ => None
  end.

(** what the constructor of a node fixes: its name and what it holds or
    makes *)
Definition container_label (h : Heap) (r : nat) : option (string * Item) :=
  (λ node, (c_name node, c_item node)) <$> containerNodes h !! r.

Definition transferContainer_label (h : Heap) (r : nat)
  : option (string * list Item) :=
  (λ node, (tc_name node, tc_items node)) <$> transferContainerNodes h !! r.

Definition industry_label (h : Heap) (r : nat) : option (string * Recipe) :=
  (λ node, (i_name node, i_recipe node)) <$> industryNodes h !! r.

Definition transfer_label (h : Heap) (r : nat) : option (string * Item) :=
  (λ node, (t_name node, t_item node)) <$> transferNodes h !! r.

Definition same_labels (h h' : Heap) : Prop :=
  (∀ r, container_label h' r = container_label h r)
  ∧ (∀ r, transferContainer_label h' r = transferContainer_label h r)
  ∧ (∀ r, industry_label h' r = industry_label h r)
  ∧ (∀ r, transfer_label h' r = transfer_label h r).

(** the name and the item of the product of an industry *)
Definition industry_product_label (h : Heap) (r : nat) : option (string * Item) :=
  (λ node, (i_name node, IndustryNode_item node)) <$> industryNodes h !! r.

(** the name of a transfer container; transfer containers are counted
    together *)
Definition transferContainer_name_label (h : Heap) (r : nat) : option (string * unit) :=
  (λ node, (tc_name node, ())) <$> transferContainerNodes h !! r.

(** the names of the members of a set of the graph carry a number below
    the count of the members of their kind, and no two members of a kind
    carry the same name; [label] gives the name and the kind of a member,
    [family] the members of a kind, [name_of] the name with a number *)
Definition numbered {K} (label : Heap → nat → option (string * K))
    (members : FactoryGraph → gset nat)
    (family : Heap → FactoryGraph → K → gset nat) (name_of : K → nat → string)
    (h : Heap) (g : FactoryGraph) : Prop :=
  ∀ r name i, r ∈ members g → label h r = Some (name, i) →
    ∃ k, (k < size (family h g i))%nat ∧ name = name_of i k.

Definition distinctly_named {K} (label : Heap → nat → option (string * K))
    (members : FactoryGraph → gset nat) (h : Heap) (g : FactoryGraph) : Prop :=
  ∀ r1 r2 l, r1 ∈ members g → r2 ∈ members g →
    label h r1 = Some l → label h r2 = Some l → r1 = r2.

(** the names that the [create] methods give *)
Definition container_name (cat : Catalog) (i : Item) (k : nat) : string :=
  item_name cat i +:+ " C" +:+ pretty k.

Definition industry_name (cat : Catalog) (i : Item) (k : nat) : string :=
  item_name cat i +:+ " P" +:+ pretty k.

Definition transferUnit_name (cat : Catalog) (i : Item) (k : nat) : string :=
  item_name cat i +:+ " T" +:+ pretty k.

Definition transferContainer_name (_ : unit) (k : nat) : string :=
  "Transfer Container " +:+ pretty k.

Definition containers_named (cat : Catalog) (h : Heap) (g : FactoryGraph) : Prop :=
  numbered container_label containers containers_of (container_name cat) h g
  ∧ distinctly_named container_label containers h g.

Definition industries_named (cat : Catalog) (h : Heap) (g : FactoryGraph) : Prop :=
  numbered industry_product_label industries industries_of (industry_name cat) h g
  ∧ distinctly_named industry_product_label industries h g.

Definition transferUnits_named (cat : Catalog) (h : Heap) (g : FactoryGraph) : Prop :=
  numbered transfer_label transferUnits transferUnits_of (transferUnit_name cat) h g
  ∧ distinctly_named transfer_label transferUnits h g.

(** the transfer containers of the graph that are objects of the store *)
Definition transferContainers_all (h : Heap) (g : FactoryGraph) (_ : unit)
  : gset nat :=
  filter (λ r, is_Some (transferContainerNodes h !! r)) (transferContainers g).

Definition transferContainers_named (h : Heap) (g : FactoryGraph) : Prop :=
  numbered transferContainer_name_label transferContainers
    transferContainers_all transferContainer_name h g
  ∧ distinctly_named transferContainer_name_label transferContainers h g.

(** a graph built through the methods of [FactoryGraph] *)
Definition built_graph_ops : list graph_operation :=
  [ CreateContainer bauxite;
    CreateIndustry aluminium;
    CallTakeFrom (IndustryRef 0) (ContainerRef 0);
    CreateContainer aluminium;
    CallOutputTo (IndustryRef 0) (ContainerRef 1);
    CreateTemporaryContainer oxygen;
    CreateTransferUnit oxygen;
    CreateTransferContainer [oxygen; hydrogen];
    CreateContainer aluminium;
    CreateIndustry aluminium ].

Definition built_graph : Heap * FactoryGraph :=
  default (empty_heap, empty_graph)
    (graph_run demo_catalog built_graph_ops (empty_heap, empty_graph)).

(** A catalog whose frame recipe takes no time, and the industry that
    [new IndustryNode] makes for frames under it. *)
Definition instant_frame_recipe : Recipe :=
  {| ingredients := [ {| item := aluminium; quantity := Num.of_Z 2 |} ];
     byproducts := [];
     product := {| item := frame; quantity := Num.of_Z 1 |};
     time := Num.zero |}.

Definition instant_catalog : Catalog :=
  {| item_name := demo_items;
     volume := volume demo_catalog;
     isOre := isOre demo_catalog;
     findRecipe := λ i, if decide (i = frame) then Some instant_frame_recipe else None;
     CONTAINERS_ASCENDING_BY_CAPACITY := CONTAINERS_ASCENDING_BY_CAPACITY demo_catalog |}.

Definition instant_industry : IndustryNode :=
  {| i_name := "Basic Standard Frame P0"; i_recipe := instant_frame_recipe;
     i_inputs := ∅; i_output := None |}.

(** A frame industry that takes from seven of eight aluminium containers:
    it is at the limit of incoming links. *)
Definition full_industry_ops : list operation :=
  ((λ k, NewContainerNode (demo_items aluminium +:+ " C" +:+ pretty k)
           aluminium Num.one) <$> seq 0 8)
  ++ [ NewIndustryNode "Basic Standard Frame P0" frame ]
  ++ ((λ k, TakeFrom (IndustryRef 0) (ContainerRef k)) <$> seq 0 7).

Definition full_industry : Heap :=
  default empty_heap (run demo_catalog full_industry_ops empty_heap).
(** * Properties *)

#[local] Set Warnings "-clear-no-such-hyp".

(** ** Arithmetic of numbers *)

Lemma Qred_inject_Z (z : Z) : Qred (inject_Z z) = inject_Z z.
Proof.
  unfold Qred, inject_Z.
  generalize (Z.ggcd_gcd z 1) (Z.ggcd_correct_divisors z 1).
  destruct (Z.ggcd z 1) as [g [aa bb]]. simpl.
  rewrite Z.gcd_1_r. intros -> [H1 H2].
  rewrite Z.mul_1_l in H1, H2. subst. reflexivity.
Qed.

Lemma Num_add_of_Z (a b : Z) : Num.add (Num.of_Z a) (Num.of_Z b) = Num.of_Z (a + b).
Proof.
  unfold Num.of_Z, Num.add. f_equal.
  rewrite <- (Qred_inject_Z (a + b)).
  apply Qred_complete. rewrite inject_Z_plus. reflexivity.
Qed.

Lemma Num_leb_of_Z (a b : Z) : Num.leb (Num.of_Z a) (Num.of_Z b) = true ↔ a ≤ b.
Proof.
  unfold Num.of_Z, Num.leb. rewrite Qle_bool_iff, Zle_Qle. reflexivity.
Qed.

Lemma Num_leb_trans (a b c : number) :
  Num.leb a b = true → Num.leb b c = true → Num.leb a c = true.
Proof.
  destruct a, b, c; simpl; try done.
  rewrite !Qle_bool_iff. apply Qle_trans.
Qed.

Lemma Num_add_comm (a b : number) : Num.add a b = Num.add b a.
Proof.
  destruct a, b; simpl; try reflexivity.
  f_equal. apply Qred_complete. ring.
Qed.

Lemma Num_add_assoc (a b c : number) :
  Num.add (Num.add a b) c = Num.add a (Num.add b c).
Proof.
  destruct a, b, c; simpl; try reflexivity.
  f_equal. apply Qred_complete. rewrite !Qred_correct. ring.
Qed.

Lemma Num_fold_add_shift (xs : list number) (a b : number) :
  fold_left Num.add xs (Num.add a b) = Num.add (fold_left Num.add xs a) b.
Proof.
  revert a. induction xs as [|x xs IH]; intros a; simpl; [reflexivity|].
  rewrite <- IH. f_equal.
  rewrite !Num_add_assoc. f_equal. apply Num_add_comm.
Qed.

Lemma Num_sum_snoc (xs : list number) (x : number) :
  Num.sum (xs ++ [x]) = Num.sum (x :: xs).
Proof.
  unfold Num.sum. rewrite fold_left_app. cbn [fold_left].
  symmetry. apply Num_fold_add_shift.
Qed.

Lemma Num_div_zero (t : number) :
  Num.nonzero t = true → Num.div Num.zero t = Num.zero.
Proof.
  destruct t as [y| | |]; simpl; try reflexivity; try discriminate.
  intros Hy. apply negb_true_iff in Hy. rewrite Hy.
  change (Fin (Qred (0 / y)) = Fin (Qred 0)).
  rewrite (Qred_complete (0 / y) 0); [reflexivity|]. unfold Qdiv. ring.
Qed.

Lemma Num_div_by_count (r : number) (n : nat) :
  (n = 0%nat → Num.is_finite (Num.div r (Num.of_nat n)) = false)
  ∧ (n ≠ 0%nat → Num.is_finite (Num.div r (Num.of_nat n)) = Num.is_finite r).
Proof.
  unfold Num.of_nat, Num.of_Z. split.
  - intros ->. destruct r as [q| | |]; simpl; try reflexivity.
    unfold Num.inf_of_sign. by destruct (Num.sgn q).
  - intros Hn. destruct r as [q| | |]; simpl; try reflexivity.
    + assert (Hq : Qeq_bool (inject_Z (Z.of_nat n)) 0 = false).
      { apply not_true_iff_false. intros Heq. apply Qeq_bool_iff in Heq.
        unfold Qeq in Heq. simpl in Heq. lia. }
      by rewrite Hq.
    + by destruct (Num.sgn _ <? 0).
    + by destruct (Num.sgn _ <? 0).
Qed.

(** ** Calls that return *)

Lemma returns_Ret {A} (a : A) : returns (Ret a).
Proof. by exists a. Qed.

Lemma bind_Ret {A B} (a : A) (f : A → outcome B) : (Ret a ≫= f) = f a.
Proof. reflexivity. Qed.

Lemma returns_bind {A B} (m : outcome A) (f : A → outcome B) :
  returns (m ≫= f) ↔ ∃ a, m = Ret a ∧ returns (f a).
Proof.
  split.
  - destruct m as [a| |]; simpl; intros [b Hb]; try discriminate.
    exists a. split; [reflexivity|]. by exists b.
  - intros (a & -> & Hf). exact Hf.
Qed.

Lemma deref_Some {A} (m : gmap nat A) (r : nat) (x : A) :
  m !! r = Some x → deref m r = Ret x.
Proof. intros H. unfold deref. by rewrite H. Qed.

Lemma foldM_returns {A B} (f : B → A → outcome B) (xs : list A) (acc : B) :
  (∀ x acc', x ∈ xs → returns (f acc' x)) → returns (foldM f xs acc).
Proof.
  revert acc. induction xs as [|x xs IH]; intros acc Hf; simpl.
  - apply returns_Ret.
  - apply returns_bind. destruct (Hf x acc) as [acc' Hacc]; [left|].
    exists acc'. split; [exact Hacc|]. apply IH.
    intros y acc'' Hy. apply Hf. by right.
Qed.

Lemma foldM_stuck {A B} (f : B → A → outcome B) (xs : list A) (acc : B) (x : A) :
  x ∈ xs → (∀ acc', ¬ returns (f acc' x)) → ¬ returns (foldM f xs acc).
Proof.
  revert acc. induction xs as [|y xs IH]; intros acc Hx Hf; [inversion Hx|].
  simpl. intros Hret. apply returns_bind in Hret as (acc' & Hacc & Hret).
  apply elem_of_cons in Hx as [->|Hx].
  - apply (Hf acc). by exists acc'.
  - by apply (IH acc').
Qed.

Lemma mapM_outcome_returns {A B} (f : A → outcome B) (xs : list A) :
  (∀ x, x ∈ xs → returns (f x)) → returns (mapM_outcome f xs).
Proof.
  induction xs as [|x xs IH]; intros Hf; simpl.
  - apply returns_Ret.
  - apply returns_bind. destruct (Hf x) as [y Hy]; [left|].
    exists y. split; [exact Hy|]. apply returns_bind.
    destruct IH as [ys Hys]; [intros z Hz; apply Hf; by right|].
    exists ys. split; [exact Hys|]. apply returns_Ret.
Qed.

Lemma mapM_outcome_stuck {A B} (f : A → outcome B) (xs : list A) (x : A) :
  x ∈ xs → ¬ returns (f x) → ¬ returns (mapM_outcome f xs).
Proof.
  induction xs as [|y xs IH]; intros Hx Hf; [inversion Hx|].
  simpl. intros Hret. apply returns_bind in Hret as (b & Hb & Hret).
  apply returns_bind in Hret as (bs & Hbs & _).
  apply elem_of_cons in Hx as [->|Hx].
  - apply Hf. by exists b.
  - apply IH; [exact Hx | exact Hf | by exists bs].
Qed.

Lemma mapM_outcome_cons_inv {A B} (f : A → outcome B) x xs ys :
  mapM_outcome f (x :: xs) = Ret ys →
  ∃ y ys', f x = Ret y ∧ mapM_outcome f xs = Ret ys' ∧ ys = y :: ys'.
Proof.
  simpl. destruct (f x) as [y| |]; simpl; try discriminate.
  destruct (mapM_outcome f xs) as [ys'| |]; simpl; try discriminate.
  intros [= <-]. eauto.
Qed.

(** ** Link limits *)

(** C7: a buffer accepts [n] more incoming links iff
    incomingLinkCount + n <= 10, a production or relay unit iff
    incomingLinkCount + n <= 7; so the link that reaches the limit is
    accepted and the next one is refused. *)
Theorem canAddIncomingLinks_limits :
  (∀ (c : ContainerNode) (n : Z),
     ContainerNode_canAddIncomingLinks c (Num.of_Z n) = true
     ↔ Z.of_nat (ContainerNode_incomingLinkCount c) + n ≤ 10)
  ∧ (∀ (c : TransferContainerNode) (n : Z),
       TransferContainerNode_canAddIncomingLinks c (Num.of_Z n) = true
       ↔ Z.of_nat (TransferContainerNode_incomingLinkCount c) + n ≤ 10)
  ∧ (∀ (p : IndustryNode) (n : Z),
       IndustryNode_canAddIncomingLinks p (Num.of_Z n) = true
       ↔ Z.of_nat (IndustryNode_incomingLinkCount p) + n ≤ 7)
  ∧ (∀ (t : TransferNode) (n : Z),
       TransferNode_canAddIncomingLinks t (Num.of_Z n) = true
       ↔ Z.of_nat (TransferNode_incomingLinkCount t) + n ≤ 7).
Proof.
  unfold ContainerNode_canAddIncomingLinks, TransferContainerNode_canAddIncomingLinks,
    IndustryNode_canAddIncomingLinks, TransferNode_canAddIncomingLinks,
    MAX_CONTAINER_LINKS, MAX_INDUSTRY_LINKS, Num.of_nat.
  repeat split; intros H;
    first [ rewrite Num_add_of_Z in H; apply Num_leb_of_Z in H; exact H
          | rewrite Num_add_of_Z; apply Num_leb_of_Z; exact H ].
Qed.

Lemma split_container_refuses (cat : Catalog) (h : Heap) (c : ContainerNode)
    (count : number) :
  ContainerNode_isSplit c = true →
  ContainerNode_canAddOutgoingLinks cat h c count = Ret false.
Proof.
  intros Hsplit. unfold ContainerNode_canAddOutgoingLinks.
  rewrite Hsplit. reflexivity.
Qed.

(** C6: a container whose split fraction is not 1 refuses every number
    [n >= 1] of further outgoing links, whatever its consumers and its
    item. *)
Theorem split_container_no_outgoing_links (cat : Catalog) (h : Heap)
    (c : ContainerNode) (n : Z) :
  Num.eqb (c_split c) Num.one = false →
  1 ≤ n →
  ContainerNode_canAddOutgoingLinks cat h c (Num.of_Z n) = Ret false.
Proof.
  intros Hsplit _. apply split_container_refuses.
  unfold ContainerNode_isSplit. rewrite Hsplit. reflexivity.
Qed.

(** A container split in two halves refuses three more outgoing links. *)
Lemma split_container_no_outgoing_links_witness :
  Num.eqb (c_split half_container) Num.one = false
  ∧ 1 ≤ 3
  ∧ ContainerNode_canAddOutgoingLinks demo_catalog frame_line half_container
      (Num.of_Z 3) = Ret false.
Proof.
  split; [reflexivity|]. split; [lia|].
  apply (split_container_no_outgoing_links demo_catalog frame_line half_container 3);
    [reflexivity | lia].
Defined.

(** ** Rates of an industry *)

Lemma fold_left_matching (i : Item) (l : list ItemQuantity) (acc : number) :
  fold_left
    (λ total produced,
       if decide (i = item produced)
       then Num.add total (quantity produced) else total) l acc
  = fold_left Num.add (quantity <$> filter (λ p, item p = i) l) acc.
Proof.
  revert acc. induction l as [|p l IH]; intros acc; simpl; [reflexivity|].
  rewrite filter_cons. rewrite IH.
  destruct (decide (i = item p)) as [->|Hne].
  - rewrite decide_True by reflexivity. reflexivity.
  - rewrite decide_False by congruence. reflexivity.
Qed.

(** C8 (what fails): under a catalog whose frame recipe has the time 0,
    the industry that the constructor makes for frames has no oxygen
    among its product and byproducts, and [getOutput] of oxygen is
    0 / 0, which is NaN and not 0. *)
Lemma getOutput_of_instant_recipe :
  IndustryNode_new instant_catalog "Basic Standard Frame P0" frame
  = Ret instant_industry
  ∧ item (product (i_recipe instant_industry)) ≠ oxygen
  ∧ byproducts (i_recipe instant_industry) = []
  ∧ IndustryNode_getOutput instant_catalog instant_industry oxygen = Ret NaN
  ∧ IndustryNode_getOutput instant_catalog instant_industry oxygen ≠ Ret Num.zero.
Proof.
  split; [reflexivity|]. split; [discriminate|]. split; [reflexivity|].
  assert (Hrate : IndustryNode_getOutput instant_catalog instant_industry oxygen
                  = Ret NaN) by (vm_compute; reflexivity).
  split; [exact Hrate|]. rewrite Hrate. discriminate.
Qed.

(** C8 (as amended): for a production node whose recipe is the one that
    findRecipe finds for its item, the output rate for an item is the sum
    of the quantities of the byproducts and the product of the recipe
    with that item, added in that order, divided by the time of the
    recipe; when the item is neither the product nor a byproduct it is 0
    if the time is a non-zero number, and NaN otherwise. *)
Theorem getOutput_rate (cat : Catalog) (P : IndustryNode) (i : Item) :
  findRecipe cat (IndustryNode_item P) = Some (i_recipe P) →
  IndustryNode_getOutput cat P i
  = Ret (Num.div (output_quantity (i_recipe P) i) (time (i_recipe P)))
  ∧ (item (product (i_recipe P)) ≠ i →
     (∀ b, b ∈ byproducts (i_recipe P) → item b ≠ i) →
     IndustryNode_getOutput cat P i
     = Ret (if Num.nonzero (time (i_recipe P)) then Num.zero else NaN)).
Proof.
  intros Hrecipe.
  assert (Hrate : IndustryNode_getOutput cat P i
    = Ret (Num.div (output_quantity (i_recipe P) i) (time (i_recipe P)))).
  { unfold IndustryNode_getOutput, findRecipe_or_throw. rewrite Hrecipe. simpl.
    rewrite fold_left_matching. reflexivity. }
  split; [exact Hrate|].
  intros Hproduct Hbyproducts. rewrite Hrate.
  assert (Hnone : filter (λ p, item p = i)
                    (byproducts (i_recipe P) ++ [product (i_recipe P)]) = []).
  { rewrite filter_app, filter_cons, decide_False, filter_nil, app_nil_r
      by exact Hproduct.
    induction (byproducts (i_recipe P)) as [|b bs IH]; [reflexivity|].
    rewrite filter_cons, decide_False.
    - apply IH. intros b' Hb'. apply Hbyproducts. right. exact Hb'.
    - apply Hbyproducts. left. }
  unfold output_quantity. rewrite Hnone. simpl. f_equal.
  destruct (Num.nonzero (time (i_recipe P))) eqn:Htime.
  - apply Num_div_zero. exact Htime.
  - destruct (time (i_recipe P)) as [y| | |]; simpl in *; try discriminate;
      [|reflexivity].
    apply negb_false_iff in Htime. by rewrite Htime.
Qed.

(** The frame industry makes one frame in ten time units and no oxygen;
    with a recipe of time 0 its rate for oxygen is NaN. *)
Lemma getOutput_rate_witness :
  findRecipe demo_catalog (IndustryNode_item frame_industry)
  = Some (i_recipe frame_industry)
  ∧ IndustryNode_getOutput demo_catalog frame_industry frame = Ret (Fin (1 # 10))
  ∧ IndustryNode_getOutput demo_catalog frame_industry oxygen = Ret Num.zero
  ∧ IndustryNode_getOutput instant_catalog instant_industry oxygen = Ret NaN.
Proof.
  split; [reflexivity|]. split; [|split].
  - destruct (getOutput_rate demo_catalog frame_industry frame eq_refl) as [Hrate _].
    rewrite Hrate. reflexivity.
  - destruct (getOutput_rate demo_catalog frame_industry oxygen eq_refl) as [_ Hzero].
    rewrite Hzero; [reflexivity | discriminate |].
    intros b Hb. inversion Hb.
  - destruct (getOutput_rate instant_catalog instant_industry oxygen eq_refl)
      as [_ Hnan].
    rewrite Hnan; [reflexivity | discriminate |].
    intros b Hb. inversion Hb.
Defined.

Lemma getInput_returns cat node i :
  is_Some (findRecipe cat (IndustryNode_item node)) →
  returns (IndustryNode_getInput cat node i).
Proof.
  intros [r Hr]. unfold IndustryNode_getInput, findRecipe_or_throw.
  rewrite Hr. simpl. apply returns_Ret.
Qed.

Lemma getOutput_returns cat node i :
  is_Some (findRecipe cat (IndustryNode_item node)) →
  returns (IndustryNode_getOutput cat node i).
Proof.
  intros [r Hr]. unfold IndustryNode_getOutput, findRecipe_or_throw.
  rewrite Hr. simpl. apply returns_Ret.
Qed.

(** ** The size of a container *)

(** the loop keeps the last size of the list that covers the required
    capacity, and the first size of the list when none does *)
Lemma select_container_last (req : number) (sizes : list ContainerElement)
    (first : ContainerElement) :
  select_container req first sizes
  = default first (last (filter (λ s, covers req s = true) sizes)).
Proof.
  unfold select_container. revert first.
  induction sizes as [|s sizes IH]; intros first; simpl; [reflexivity|].
  rewrite IH, filter_cons.
  destruct (Num.leb req (capacity s)) eqn:Hs.
  - rewrite decide_True by exact Hs.
    rewrite last_cons.
    destruct (last (filter _ sizes)); reflexivity.
  - rewrite decide_False; [reflexivity|].
    unfold covers. rewrite Hs. discriminate.
Qed.

Lemma last_filter {A} (P : A → Prop) `{∀ x, Decision (P x)} (l : list A) (x : A) :
  last l = Some x → P x → last (filter P l) = Some x.
Proof.
  intros Hlast HP. induction l as [|a l IH]; [discriminate|].
  rewrite filter_cons. destruct l as [|b l].
  - injection Hlast as ->. by rewrite decide_True.
  - rewrite last_cons in Hlast.
    assert (Hl : last (b :: l) = Some x).
    { destruct (last (b :: l)) eqn:E; [done|]. by apply last_None in E. }
    specialize (IH Hl). case_decide; [|exact IH].
    by rewrite last_cons, IH.
Qed.

Lemma ascending_last (sizes : list ContainerElement) (s z : ContainerElement) :
  ascending sizes → s ∈ sizes → last sizes = Some z →
  Num.leb (capacity s) (capacity z) = true ∨ s = z.
Proof.
  intros Hsorted. induction Hsorted as [|a l Hl IH Hall]; intros Hs Hz.
  - inversion Hs.
  - destruct l as [|b l].
    + injection Hz as <-. apply list_elem_of_singleton in Hs. by right.
    + rewrite last_cons in Hz.
      assert (Hz' : last (b :: l) = Some z).
      { destruct (last (b :: l)) eqn:E; [done|]. by apply last_None in E. }
      apply elem_of_cons in Hs as [->|Hs]; [|by apply IH].
      left. rewrite Forall_forall in Hall. apply Hall.
      by apply last_Some_elem_of.
Qed.

(** with an ascending list of sizes the loop returns the largest size as
    soon as any size covers the required capacity *)
Lemma select_container_ascending (req : number) (first : ContainerElement)
    (sizes : list ContainerElement) (s : ContainerElement) :
  ascending sizes → s ∈ sizes → covers req s = true →
  last sizes = Some (select_container req first sizes).
Proof.
  intros Hsorted Hs Hcovers. rewrite select_container_last.
  destruct (last sizes) as [z|] eqn:Hz.
  - assert (Hz_covers : covers req z = true).
    { destruct (ascending_last sizes s z Hsorted Hs Hz) as [Hle| <-]; [|done].
      unfold covers in *. by apply (Num_leb_trans _ (capacity s)). }
    by rewrite (last_filter _ sizes z Hz Hz_covers).
  - apply last_None in Hz. subst. inversion Hs.
Qed.

(** C1 (the code departs from it): container 0 of [frame_line] has to
    hold 2 aluminium of volume 10, and so has its transfer container 0.
    [size_XS] is the smallest size that covers the capacity 20, and both
    [container] getters return [size_L]. *)
Theorem container_returns_last_covering_size :
  ∃ node tnode,
    containerNodes frame_line !! 0%nat = Some node
    ∧ transferContainerNodes frame_line !! 0%nat = Some tnode
    ∧ ContainerNode_maintain demo_catalog frame_line node = Ret (Num.of_Z 2)
    ∧ TransferContainerNode_maintain demo_catalog frame_line tnode
      = Ret [(aluminium, Num.of_Z 2)]
    ∧ smallest_covering (Num.of_Z 20)
        (CONTAINERS_ASCENDING_BY_CAPACITY demo_catalog) size_XS
    ∧ ContainerNode_container demo_catalog frame_line node = Ret size_L
    ∧ TransferContainerNode_container demo_catalog frame_line tnode = Ret size_L
    ∧ size_L ≠ size_XS.
Proof.
  eexists _, _.
  split; [vm_compute; reflexivity|]. split; [vm_compute; reflexivity|].
  split; [vm_compute; reflexivity|]. split; [vm_compute; reflexivity|].
  split.
  { split; [left|]. split; [reflexivity|].
    intros other Hother _. simpl in Hother.
    repeat (apply elem_of_cons in Hother as [->|Hother]; [reflexivity|]).
    inversion Hother. }
  split; [vm_compute; reflexivity|]. split; [vm_compute; reflexivity|].
  discriminate.
Qed.

(** ** Transfer containers of a set of items *)

Lemma filter_nodes_pure {A} (m : gmap nat A) (q : A → bool) (refs : list nat) :
  (∀ r, r ∈ refs → is_Some (m !! r)) →
  filter_nodes m (λ node, Ret (q node)) refs
  = Ret (filter (λ r, from_option q false (m !! r) = true) refs).
Proof.
  unfold filter_nodes. intros Hrefs.
  assert (Hgen : ∀ kept,
    foldM (λ kept r, node ← deref m r; keep ← Ret (q node);
                     Ret (if keep : bool then kept ++ [r] else kept)) refs kept
    = Ret (kept ++ filter (λ r, from_option q false (m !! r) = true) refs)).
  { induction refs as [|r refs IH]; intros kept.
    - simpl. by rewrite app_nil_r.
    - destruct (Hrefs r) as [node Hr]; [left|].
      cbn [foldM]. rewrite (deref_Some _ _ _ Hr), !bind_Ret, IH.
      + destruct (q node) eqn:Hq.
        * rewrite filter_cons_True by (by rewrite Hr).
          by rewrite <- app_assoc.
        * rewrite filter_cons_False; [done|]. rewrite Hr. simpl.
          by rewrite Hq.
      + intros r' Hr'. apply Hrefs. by right. }
  apply (Hgen []).
Qed.

(** what [getTransferContainers] returns: the transfer containers that
    hold one of the queried items and do not hold every queried item *)
Lemma getTransferContainers_returns (h : Heap) (g : FactoryGraph) (items : gset Item) :
  (∀ r, r ∈ transferContainers g → is_Some (transferContainerNodes h !! r)) →
  ∃ found,
    FactoryGraph_getTransferContainers h g items = Ret found
    ∧ ∀ r, r ∈ found ↔
           r ∈ transferContainers g
           ∧ ∃ node, transferContainerNodes h !! r = Some node
                     ∧ (∃ i, i ∈ tc_items node ∧ i ∈ items)
                     ∧ (∃ i, i ∈ items ∧ i ∉ tc_items node).
Proof.
  intros Halloc. unfold FactoryGraph_getTransferContainers.
  rewrite filter_nodes_pure, bind_Ret.
  2:{ intros r Hr. apply Halloc. by apply elem_of_elements. }
  rewrite filter_nodes_pure, bind_Ret.
  2:{ intros r Hr. apply list_elem_of_filter in Hr as [_ Hr].
      apply Halloc. by apply elem_of_elements. }
  eexists. split; [reflexivity|]. intros r.
  rewrite elem_of_list_to_set, !list_elem_of_filter, elem_of_elements.
  split.
  - intros (Hq2 & Hq1 & Hr). split; [exact Hr|].
    destruct (transferContainerNodes h !! r) as [node|]; [|discriminate].
    exists node. split; [reflexivity|]. simpl in Hq1, Hq2.
    apply existsb_exists in Hq1 as (i & Hi & Hin).
    apply existsb_exists in Hq2 as (j & Hj & Hnot).
    apply bool_decide_eq_true in Hin. apply negb_true_iff in Hnot.
    apply bool_decide_eq_false in Hnot.
    split.
    + exists i. split; [by apply list_elem_of_In|]. by apply elem_of_elements.
    + exists j. split; [by apply elem_of_elements, list_elem_of_In|exact Hnot].
  - intros (Hr & node & Hnode & (i & Hi & Hin) & (j & Hj & Hnot)).
    rewrite Hnode. simpl. split_and!; [| |exact Hr].
    + apply existsb_exists. exists j. split.
      * by apply list_elem_of_In, elem_of_elements.
      * apply negb_true_iff. by apply bool_decide_eq_false.
    + apply existsb_exists. exists i. split; [by apply list_elem_of_In|].
      apply bool_decide_eq_true. by apply elem_of_elements.
Qed.

(** C2 (the code departs from it): transfer container 0 of [frame_line]
    holds aluminium and oxygen.  The query for exactly these two items
    does not return it, and the query for aluminium and hydrogen returns
    it although it holds oxygen. *)
Theorem getTransferContainers_exact_query_misses :
  ∃ tnode,
    transferContainerNodes frame_line !! 0%nat = Some tnode
    ∧ tc_items tnode = [aluminium; oxygen]
    ∧ matches_exactly tnode {[aluminium; oxygen]}
    ∧ FactoryGraph_getTransferContainers frame_line frame_line_graph
        {[aluminium; oxygen]} = Ret ∅
    ∧ ¬ matches_exactly tnode {[aluminium; hydrogen]}
    ∧ FactoryGraph_getTransferContainers frame_line frame_line_graph
        {[aluminium; hydrogen]} = Ret {[ 0%nat ]}.
Proof.
  eexists. split; [vm_compute; reflexivity|]. split; [reflexivity|].
  split.
  { split.
    - exists aluminium. split; [left | set_solver].
    - intros i Hi. simpl in Hi.
      apply elem_of_cons in Hi as [->|Hi]; [set_solver|].
      apply elem_of_cons in Hi as [->|Hi]; [set_solver|]. inversion Hi. }
  split; [vm_compute; reflexivity|]. split.
  { intros [_ Hall]. specialize (Hall oxygen). simpl in Hall.
    assert (Hin : oxygen ∈ ({[aluminium; hydrogen]} : gset Item)).
    { apply Hall. right. left. }
    apply elem_of_union in Hin as [Hin|Hin]; apply elem_of_singleton in Hin;
      discriminate. }
  vm_compute; reflexivity.
Qed.

(** ** Outgoing links and byproducts *)

Lemma release_for_byproduct h (byproduct : ItemQuantity) consumers items :
  mapM_outcome (UnitRef_item h) consumers = Ret items →
  ∀ reserved,
    foldM
      (λ reserved consumer,
         consumer_item ← UnitRef_item h consumer;
         Ret (if decide (consumer_item = item byproduct)
              then (reserved + -1)%Z else reserved))
      consumers reserved
    = Ret (reserved
           - Z.of_nat (length (filter (λ i, i = item byproduct) items))).
Proof.
  revert items. induction consumers as [|u us IH]; intros items Hitems reserved.
  - injection Hitems as <-. simpl. f_equal. lia.
  - apply mapM_outcome_cons_inv in Hitems as (i & items' & Hu & Hus & ->).
    cbn [foldM]. rewrite Hu, bind_Ret, bind_Ret, (IH items' Hus).
    rewrite filter_cons. f_equal.
    destruct (decide (i = item byproduct)); simpl; lia.
Qed.

Lemma release_for_recipe h consumers items (bs : list ItemQuantity) :
  mapM_outcome (UnitRef_item h) consumers = Ret items →
  ∀ reserved,
    foldM
      (λ reserved byproduct,
         foldM
           (λ reserved consumer,
              consumer_item ← UnitRef_item h consumer;
              Ret (if decide (consumer_item = item byproduct)
                   then (reserved + -1)%Z else reserved))
           consumers reserved)
      bs reserved
    = Ret (reserved
           - foldr (λ byproduct released,
                      Z.of_nat (length (filter (λ i, i = item byproduct) items))
                      + released) 0 bs).
Proof.
  intros Hitems. induction bs as [|b bs IH]; intros reserved.
  - simpl. f_equal. lia.
  - cbn [foldM foldr]. rewrite (release_for_byproduct h b consumers items Hitems).
    rewrite bind_Ret, IH. f_equal. lia.
Qed.

(** what [canAddOutgoingLinks] computes for a container that is not
    split and holds a produced item *)
Lemma canAddOutgoingLinks_produced cat h (c : ContainerNode) (r : Recipe)
    (items : list Item) (n : Z) :
  ContainerNode_isSplit c = false →
  isOre cat (c_item c) = false →
  findRecipe cat (c_item c) = Some r →
  mapM_outcome (UnitRef_item h) (elements (c_consumers c)) = Ret items →
  ∃ answer,
    ContainerNode_canAddOutgoingLinks cat h c (Num.of_Z n) = Ret answer
    ∧ (answer = true
       ↔ Z.of_nat (ContainerNode_outgoingLinkCount c) + n
         + (Z.of_nat (length (byproducts r)) - released_links r items) ≤ 10).
Proof.
  intros Hsplit Hore Hrecipe Hitems.
  unfold ContainerNode_canAddOutgoingLinks, findRecipe_or_throw.
  rewrite Hsplit, Hore, Hrecipe. cbn [of_option]. rewrite bind_Ret.
  rewrite (release_for_recipe h _ items (byproducts r) Hitems), bind_Ret.
  eexists. split; [reflexivity|].
  unfold Num.of_nat, MAX_CONTAINER_LINKS, released_links.
  rewrite !Num_add_of_Z. apply Num_leb_of_Z.
Qed.

(** without a recipe for the item the check throws *)
Lemma canAddOutgoingLinks_without_recipe cat h (c : ContainerNode) (count : number) :
  ContainerNode_isSplit c = false →
  isOre cat (c_item c) = false →
  findRecipe cat (c_item c) = None →
  ContainerNode_canAddOutgoingLinks cat h c count = Throw NoRecipe.
Proof.
  intros Hsplit Hore Hrecipe.
  unfold ContainerNode_canAddOutgoingLinks, findRecipe_or_throw.
  by rewrite Hsplit, Hore, Hrecipe.
Qed.

Lemma remove_dups_NoDup {A} `{EqDecision A} (l : list A) :
  NoDup l → remove_dups l = l.
Proof.
  induction 1 as [|x l Hx Hl IH]; simpl; [reflexivity|].
  destruct (decide_rel elem_of x l); [done|]. by rewrite IH.
Qed.

Lemma no_consumer_iff (items : list Item) (i : Item) :
  length (filter (λ j, j = i) items) = 0%nat ↔ i ∉ items.
Proof.
  induction items as [|j items IH]; simpl.
  - split; [intros _ H; inversion H|done].
  - rewrite filter_cons. destruct (decide (j = i)) as [->|Hne]; simpl.
    + split; [discriminate|]. intros Hnot. exfalso. apply Hnot. left.
    + rewrite IH. rewrite not_elem_of_cons. naive_solver.
Qed.

(** where the loop and the count of byproducts without a consumer
    agree: the byproducts have different items and no byproduct has two
    consumers *)
Lemma released_links_unconsumed (r : Recipe) (items : list Item) :
  NoDup (item <$> byproducts r) →
  (∀ b, b ∈ byproducts r →
        (length (filter (λ i, i = item b) items) ≤ 1)%nat) →
  Z.of_nat (length (byproducts r)) - released_links r items
  = Z.of_nat (length (unconsumed_byproducts r items)).
Proof.
  unfold released_links, unconsumed_byproducts.
  intros Hdup Hone. rewrite (remove_dups_NoDup _ Hdup). clear Hdup.
  induction (byproducts r) as [|b bs IH]; [reflexivity|].
  cbn [foldr length fmap list_fmap]. rewrite filter_cons.
  assert (IH' : Z.of_nat (length bs)
    - foldr (λ byproduct released,
               Z.of_nat (length (filter (λ i, i = item byproduct) items))
               + released) 0 bs
    = Z.of_nat (length (filter (λ i, i ∉ items) (item <$> bs)))).
  { apply IH. intros b' Hb'. apply Hone. by right. }
  pose proof (Hone b (list_elem_of_here _ _)) as Hb.
  destruct (decide (item b ∉ items)) as [Hnotin|Hin].
  - apply no_consumer_iff in Hnotin. rewrite Hnotin. cbn [length]. lia.
  - rewrite <- no_consumer_iff in Hin. lia.
Qed.

(** C3 (the code departs from it): container 0 of [oxygen_relays] holds
    aluminium, whose recipe has the byproducts oxygen and hydrogen, and
    two relays take oxygen from it.  Hydrogen has no consumer, so one
    slot is reserved and 2 + 8 + 1 > 10; the code releases one slot for
    each of the two relays and accepts 8 more links. *)
Theorem canAddOutgoingLinks_releases_per_consumer :
  ∃ node,
    containerNodes oxygen_relays !! 0%nat = Some node
    ∧ ContainerNode_isSplit node = false
    ∧ isOre demo_catalog (c_item node) = false
    ∧ findRecipe demo_catalog (c_item node) = Some aluminium_recipe
    ∧ mapM_outcome (UnitRef_item oxygen_relays) (elements (c_consumers node))
      = Ret [oxygen; oxygen]
    ∧ ContainerNode_outgoingLinkCount node = 2%nat
    ∧ unconsumed_byproducts aluminium_recipe [oxygen; oxygen] = [hydrogen]
    ∧ ¬ (2 + 8 + Z.of_nat (length [hydrogen]) ≤ 10)
    ∧ ContainerNode_canAddOutgoingLinks demo_catalog oxygen_relays node (Num.of_Z 8)
      = Ret true.
Proof.
  eexists. split; [vm_compute; reflexivity|].
  repeat (split; [vm_compute; reflexivity|]).
  split; [simpl; lia|]. vm_compute; reflexivity.
Qed.

(** ** Wiring

    The views [is_producer], [is_consumer], [output_of] and [is_input]
    after each update of the store. *)

Ltac unfold_heap :=
  unfold is_producer, is_consumer, is_input, output_of, producers_add,
    producers_delete, consumers_add, with_containerNodes,
    with_transferContainerNodes, with_industryNodes, with_transferNodes,
    buffer_allocated, unit_allocated in *.

Ltac destruct_refs :=
  repeat match goal with
         | u : UnitRef |- _ => destruct u
         | b : BufferRef |- _ => destruct b
         end.

Ltac destruct_lookup :=
  match goal with
  | |- context [@lookup _ _ (gmap _ _) _ ?k ?m] =>
      is_var k; destruct (m !! k) eqn:?
  | H : context [@lookup _ _ (gmap _ _) _ ?k ?m] |- _ =>
      is_var k;
      lazymatch type of H with
      | m !! k = _ => fail
      | _ => destruct (m !! k) eqn:?
      end
  end.

Ltac heap_simpl :=
  unfold_heap; destruct_refs; cbn in *;
  rewrite ?lookup_alter, ?lookup_insert in *;
  repeat (case_decide; simplify_eq; cbn in * );
  repeat (destruct_lookup; simplify_eq; cbn in * );
  repeat (case_bool_decide; simplify_eq; cbn in * );
  try (exfalso; by eauto using is_Some_None, mk_is_Some).

Ltac heap_solver := heap_simpl; try set_solver.

(** views after the primitive updates *)
Lemma producers_delete_views h u b :
  (∀ u' b', is_producer (producers_delete u b h) u' b'
            ↔ is_producer h u' b' ∧ ¬ (u' = u ∧ b' = b))
  ∧ (∀ u' b', is_consumer (producers_delete u b h) u' b' ↔ is_consumer h u' b')
  ∧ (∀ u', output_of (producers_delete u b h) u' = output_of h u')
  ∧ (∀ u' b', is_input (producers_delete u b h) u' b' ↔ is_input h u' b').
Proof.
  repeat split; intros; heap_solver.
Qed.

Lemma producers_add_views h u b :
  buffer_allocated h b = true →
  (∀ c, b = TransferContainerRef c → ∃ t, u = TransferRef t) →
  (∀ u' b', is_producer (producers_add u b h) u' b'
            ↔ is_producer h u' b' ∨ (u' = u ∧ b' = b))
  ∧ (∀ u' b', is_consumer (producers_add u b h) u' b' ↔ is_consumer h u' b')
  ∧ (∀ u', output_of (producers_add u b h) u' = output_of h u')
  ∧ (∀ u' b', is_input (producers_add u b h) u' b' ↔ is_input h u' b').
Proof.
  intros Hb Ht. repeat split; intros; heap_solver.
Qed.

Lemma industry_set_output_views h i c :
  is_Some (industryNodes h !! i) →
  let h' := with_industryNodes (alter (i_with_output (Some c)) i) h in
  (∀ u' b', is_producer h' u' b' ↔ is_producer h u' b')
  ∧ (∀ u' b', is_consumer h' u' b' ↔ is_consumer h u' b')
  ∧ (∀ u', output_of h' u'
           = if decide (u' = IndustryRef i) then Some (ContainerRef c)
             else output_of h u')
  ∧ (∀ u' b', is_input h' u' b' ↔ is_input h u' b').
Proof.
  intros [node Hi] h'. subst h'. repeat split; intros; heap_solver.
Qed.

Lemma transfer_set_output_views h t b :
  is_Some (transferNodes h !! t) →
  let h' := with_transferNodes (alter (t_with_output (Some b)) t) h in
  (∀ u' b', is_producer h' u' b' ↔ is_producer h u' b')
  ∧ (∀ u' b', is_consumer h' u' b' ↔ is_consumer h u' b')
  ∧ (∀ u', output_of h' u'
           = if decide (u' = TransferRef t) then Some b else output_of h u')
  ∧ (∀ u' b', is_input h' u' b' ↔ is_input h u' b').
Proof.
  intros [node Hi] h'. subst h'. repeat split; intros; heap_solver.
Qed.

Lemma producers_delete_allocated h u b :
  (∀ u', unit_allocated (producers_delete u b h) u' = unit_allocated h u')
  ∧ (∀ b', buffer_allocated (producers_delete u b h) b' = buffer_allocated h b').
Proof.
  split; intros; heap_solver.
Qed.

Lemma delete_old_views h u :
  (∀ u' b', is_producer (delete_old h u) u' b'
            ↔ is_producer h u' b' ∧ ¬ (u' = u ∧ output_of h u = Some b'))
  ∧ (∀ u' b', is_consumer (delete_old h u) u' b' ↔ is_consumer h u' b')
  ∧ (∀ u', output_of (delete_old h u) u' = output_of h u')
  ∧ (∀ u' b', is_input (delete_old h u) u' b' ↔ is_input h u' b')
  ∧ (∀ u', unit_allocated (delete_old h u) u' = unit_allocated h u')
  ∧ (∀ b', buffer_allocated (delete_old h u) b' = buffer_allocated h b').
Proof.
  unfold delete_old. destruct (output_of h u) as [old|] eqn:Hold.
  - destruct (producers_delete_views h u old) as (Hp & Hc & Ho & Hi).
    destruct (producers_delete_allocated h u old) as [Hu Hb].
    split_and!; try done.
    intros u' b'. rewrite Hp. naive_solver.
  - split_and!; try done. naive_solver.
Qed.

Lemma IndustryNode_outputTo_eq h i c :
  IndustryNode_outputTo h i c
  = producers_add (IndustryRef i) (ContainerRef c)
      (with_industryNodes (alter (i_with_output (Some c)) i)
         (delete_old h (IndustryRef i))).
Proof.
  unfold IndustryNode_outputTo, delete_old, output_of.
  destruct (industryNodes h !! i) as [node|]; simpl; [|reflexivity].
  destruct (i_output node); reflexivity.
Qed.

Lemma TransferNode_outputTo_eq h t b :
  TransferNode_outputTo h t b
  = producers_add (TransferRef t) b
      (with_transferNodes (alter (t_with_output (Some b)) t)
         (delete_old h (TransferRef t))).
Proof. reflexivity. Qed.

Lemma outputTo_views h u b h' :
  unit_allocated h u = true → buffer_allocated h b = true →
  outputTo h u b = Some h' →
  (∀ u' b', is_producer h' u' b'
            ↔ (u' = u ∧ b' = b)
              ∨ (is_producer h u' b' ∧ ¬ (u' = u ∧ output_of h u = Some b')))
  ∧ (∀ u' b', is_consumer h' u' b' ↔ is_consumer h u' b')
  ∧ (∀ u', output_of h' u' = if decide (u' = u) then Some b else output_of h u')
  ∧ (∀ u' b', is_input h' u' b' ↔ is_input h u' b').
Proof.
  intros Hu Hb Hto.
  destruct (delete_old_views h u) as (Hp1 & Hc1 & Ho1 & Hi1 & Hu1 & Hb1).
  destruct u as [i|t].
  - destruct b as [c|c]; [|discriminate]. injection Hto as <-.
    rewrite IndustryNode_outputTo_eq.
    set (h1 := delete_old h (IndustryRef i)) in *.
    assert (Hi : is_Some (industryNodes h1 !! i)).
    { specialize (Hu1 (IndustryRef i)). rewrite Hu in Hu1.
      by apply bool_decide_eq_true in Hu1. }
    destruct (industry_set_output_views h1 i c Hi) as (Hp2 & Hc2 & Ho2 & Hi2).
    set (h2 := with_industryNodes _ h1) in *.
    assert (Hb2 : buffer_allocated h2 (ContainerRef c) = true).
    { rewrite <- Hb, <- (Hb1 (ContainerRef c)). reflexivity. }
    destruct (producers_add_views h2 (IndustryRef i) (ContainerRef c) Hb2)
      as (Hp3 & Hc3 & Ho3 & Hi3); [discriminate|].
    split_and!.
    + intros u' b'. rewrite Hp3, Hp2, Hp1. naive_solver.
    + intros u' b'. by rewrite Hc3, Hc2, Hc1.
    + intros u'. by rewrite Ho3, Ho2, Ho1.
    + intros u' b'. by rewrite Hi3, Hi2, Hi1.
  - injection Hto as <-. rewrite TransferNode_outputTo_eq.
    set (h1 := delete_old h (TransferRef t)) in *.
    assert (Ht : is_Some (transferNodes h1 !! t)).
    { specialize (Hu1 (TransferRef t)). rewrite Hu in Hu1.
      by apply bool_decide_eq_true in Hu1. }
    destruct (transfer_set_output_views h1 t b Ht) as (Hp2 & Hc2 & Ho2 & Hi2).
    set (h2 := with_transferNodes _ h1) in *.
    assert (Hb2 : buffer_allocated h2 b = true).
    { rewrite <- Hb, <- (Hb1 b). by destruct b. }
    destruct (producers_add_views h2 (TransferRef t) b Hb2)
      as (Hp3 & Hc3 & Ho3 & Hi3); [eauto|].
    split_and!.
    + intros u' b'. rewrite Hp3, Hp2, Hp1. naive_solver.
    + intros u' b'. by rewrite Hc3, Hc2, Hc1.
    + intros u'. by rewrite Ho3, Ho2, Ho1.
    + intros u' b'. by rewrite Hi3, Hi2, Hi1.
Qed.

Lemma size_delete_elem `{Countable K} (s : gset K) (x : K) :
  x ∈ s → (size (s ∖ {[x]}) + 1 = size s)%nat.
Proof.
  intros Hx. rewrite size_difference by set_solver.
  rewrite size_singleton.
  assert (size s ≠ 0%nat) by (apply size_non_empty_iff; set_solver). lia.
Qed.

Lemma size_add_fresh `{Countable K} (s : gset K) (x : K) :
  x ∉ s → (size (s ∪ {[x]}) = size s + 1)%nat.
Proof.
  intros Hx. rewrite size_union by set_solver.
  rewrite size_singleton. reflexivity.
Qed.

Ltac unfold_count :=
  unfold incomingLinkCount, ContainerNode_incomingLinkCount,
    TransferContainerNode_incomingLinkCount in *.

Lemma incomingLinkCount_producers_delete h u b :
  is_producer h u b →
  (incomingLinkCount (producers_delete u b h) b + 1 = incomingLinkCount h b)%nat.
Proof.
  intros Hp. unfold_count. heap_simpl; by apply size_delete_elem.
Qed.

Lemma incomingLinkCount_producers_delete_ne h u b b' :
  b' ≠ b →
  incomingLinkCount (producers_delete u b h) b' = incomingLinkCount h b'.
Proof.
  intros Hne. unfold_count. heap_simpl; done.
Qed.

Lemma incomingLinkCount_producers_add h u b :
  buffer_allocated h b = true →
  (∀ c, b = TransferContainerRef c → ∃ t, u = TransferRef t) →
  ¬ is_producer h u b →
  (incomingLinkCount (producers_add u b h) b = incomingLinkCount h b + 1)%nat.
Proof.
  intros Hb Ht Hp. unfold_count. heap_simpl; try by apply size_add_fresh.
  all: naive_solver.
Qed.

Lemma incomingLinkCount_producers_add_ne h u b b' :
  b' ≠ b →
  incomingLinkCount (producers_add u b h) b' = incomingLinkCount h b'.
Proof.
  intros Hne. unfold_count. heap_simpl; done.
Qed.

(** C5: when a unit [u] whose output is [A], and which is among the
    producers of [A], calls outputTo([B]) for another buffer [B] that
    does not have it among its producers, it leaves the producers of [A]
    and joins those of [B]: the incoming link count of [A] drops by one
    and that of [B] grows by one. *)
Theorem outputTo_moves_producer h u A B h' :
  output_of h u = Some A →
  is_producer h u A →
  B ≠ A →
  ¬ is_producer h u B →
  buffer_allocated h B = true →
  outputTo h u B = Some h' →
  ¬ is_producer h' u A ∧ is_producer h' u B
  ∧ (incomingLinkCount h' A + 1 = incomingLinkCount h A)%nat
  ∧ (incomingLinkCount h' B = incomingLinkCount h B + 1)%nat.
Proof.
  intros Hout HA Hne HB Halloc Hto.
  assert (Hu : unit_allocated h u = true).
  { clear -Hout. heap_solver. }
  destruct (outputTo_views h u B h' Hu Halloc Hto) as (Hp & _).
  split; [rewrite Hp; naive_solver|]. split; [rewrite Hp; naive_solver|].
  assert (Htyped : ∀ c, B = TransferContainerRef c → ∃ t, u = TransferRef t).
  { intros c ->. destruct u; [discriminate|eauto]. }
  assert (Hh' : ∃ h2,
    h' = producers_add u B h2
    ∧ (∀ b, incomingLinkCount h2 b = incomingLinkCount (producers_delete u A h) b)
    ∧ (∀ b, buffer_allocated h2 b = buffer_allocated h b)
    ∧ (∀ b, is_producer h2 u b ↔ is_producer (producers_delete u A h) u b)).
  { destruct u as [i|t].
    - destruct B as [c|c]; [|discriminate]. injection Hto as <-.
      rewrite IndustryNode_outputTo_eq. unfold delete_old. rewrite Hout.
      eexists. split; [reflexivity|]. split_and!; try done.
      intros b. destruct (producers_delete_allocated h (IndustryRef i) A) as [_ Hb].
      rewrite <- Hb. by destruct b.
    - injection Hto as <-.
      rewrite TransferNode_outputTo_eq. unfold delete_old. rewrite Hout.
      eexists. split; [reflexivity|]. split_and!; try done.
      intros b. destruct (producers_delete_allocated h (TransferRef t) A) as [_ Hb].
      rewrite <- Hb. by destruct b. }
  destruct Hh' as (h2 & -> & Hcount & Halloc2 & Hprod2).
  destruct (producers_delete_views h u A) as (Hdel & _).
  split.
  - rewrite incomingLinkCount_producers_add_ne by done.
    rewrite Hcount. by apply incomingLinkCount_producers_delete.
  - rewrite incomingLinkCount_producers_add.
    + rewrite Hcount, incomingLinkCount_producers_delete_ne by done. reflexivity.
    + by rewrite Halloc2.
    + exact Htyped.
    + rewrite Hprod2, Hdel. naive_solver.
Qed.

(** The frame industry of [frame_line] moves its output from container 1
    to container 2. *)
Lemma outputTo_moves_producer_witness :
  let h' := IndustryNode_outputTo frame_line 0 2 in
  output_of frame_line (IndustryRef 0) = Some (ContainerRef 1)
  ∧ ¬ is_producer h' (IndustryRef 0) (ContainerRef 1)
  ∧ is_producer h' (IndustryRef 0) (ContainerRef 2)
  ∧ (incomingLinkCount h' (ContainerRef 1) + 1
     = incomingLinkCount frame_line (ContainerRef 1))%nat
  ∧ (incomingLinkCount h' (ContainerRef 2)
     = incomingLinkCount frame_line (ContainerRef 2) + 1)%nat.
Proof.
  intros h'. split; [vm_compute; reflexivity|].
  apply (outputTo_moves_producer frame_line (IndustryRef 0)
           (ContainerRef 1) (ContainerRef 2) h').
  - vm_compute; reflexivity.
  - vm_compute; reflexivity.
  - discriminate.
  - vm_compute. discriminate.
  - vm_compute; reflexivity.
  - reflexivity.
Defined.

(** *** Edge symmetry *)

Lemma edge_symmetric_takeFrom h u b h' :
  unit_allocated h u = true → buffer_allocated h b = true →
  takeFrom h u b = Some h' →
  edge_symmetric h → edge_symmetric h'.
Proof.
  intros Hu Hb Htake Hsym u' b'.
  destruct (Hsym u' b') as [Hp Hc]. clear Hsym.
  destruct u, b; simplify_eq/=;
    unfold IndustryNode_takeFrom, TransferNode_takeFrom;
    split; heap_solver.
Qed.

Lemma edge_symmetric_outputTo h u b h' :
  unit_allocated h u = true → buffer_allocated h b = true →
  outputTo h u b = Some h' →
  edge_symmetric h → edge_symmetric h'.
Proof.
  intros Hu Hb Hto Hsym u' b'.
  destruct (outputTo_views h u b h' Hu Hb Hto) as (Hp & Hc & Ho & Hi).
  destruct (Hsym u' b') as [Hprod Hcons].
  split; [|by rewrite Hc, Hi].
  rewrite Hp, Ho. case_decide as Heq.
  - subst u'. split; [|intros [= <-]; by left].
    intros [[_ ->]|[Hin Hnot]]; [reflexivity|].
    exfalso. apply Hnot. split; [reflexivity|]. by apply Hprod.
  - rewrite <- Hprod. naive_solver.
Qed.

Lemma fresh_lookup {A} (m : gmap nat A) : m !! fresh (dom m) = None.
Proof. apply not_elem_of_dom, is_fresh. Qed.

Ltac fresh_ref m :=
  let Hfresh := fresh "Hfresh" in
  let r := fresh "r" in
  pose proof (fresh_lookup m) as Hfresh;
  set (r := fresh (dom m)) in *; clearbody r.

Lemma edge_symmetric_perform cat op h h' :
  perform cat op h = Some h' → edge_symmetric h → edge_symmetric h'.
Proof.
  intros Hop Hsym.
  destruct op; simpl in Hop.
  - injection Hop as <-. intros u' b'. destruct (Hsym u' b') as [Hp Hc].
    clear Hsym. unfold new_ContainerNode. fresh_ref (containerNodes h).
    split; heap_solver.
  - injection Hop as <-. intros u' b'. destruct (Hsym u' b') as [Hp Hc].
    clear Hsym. unfold new_ContainerNode. fresh_ref (containerNodes h).
    split; heap_solver.
  - injection Hop as <-. intros u' b'. destruct (Hsym u' b') as [Hp Hc].
    clear Hsym. unfold new_TransferContainerNode.
    fresh_ref (transferContainerNodes h).
    split; heap_solver.
  - destruct (IndustryNode_new cat name i) as [node| |] eqn:Hnew; try discriminate.
    injection Hop as <-.
    unfold IndustryNode_new in Hnew.
    destruct (findRecipe_or_throw cat i) as [recipe| |]; simplify_eq/=.
    intros u' b'. destruct (Hsym u' b') as [Hp Hc].
    clear Hsym. unfold new_IndustryNode. fresh_ref (industryNodes h).
    split; heap_solver.
  - injection Hop as <-. intros u' b'. destruct (Hsym u' b') as [Hp Hc].
    clear Hsym. unfold new_TransferNode. fresh_ref (transferNodes h).
    split; heap_solver.
  - destruct (unit_allocated h u) eqn:Hu; [|discriminate].
    destruct (buffer_allocated h b) eqn:Hb; [|discriminate].
    eapply edge_symmetric_takeFrom; eauto.
  - destruct (unit_allocated h u) eqn:Hu; [|discriminate].
    destruct (buffer_allocated h b) eqn:Hb; [|discriminate].
    eapply edge_symmetric_outputTo; eauto.
Qed.

Lemma edge_symmetric_empty : edge_symmetric empty_heap.
Proof. intros u b. split; heap_solver. Qed.

Lemma edge_symmetric_run cat ops : ∀ h h',
  run cat ops h = Some h' → edge_symmetric h → edge_symmetric h'.
Proof.
  induction ops as [|op ops IH]; intros h h' Hrun Hsym; simpl in Hrun.
  - by simplify_eq.
  - destruct (perform cat op h) as [h1|] eqn:Hop; [|discriminate].
    simpl in Hrun. eapply IH; [exact Hrun|].
    eapply edge_symmetric_perform; eauto.
Qed.

(** C4: in every store reached from the empty one by constructing nodes
    and calling takeFrom and outputTo, a unit is among the producers of a
    buffer iff the buffer is its output, and among the consumers of a
    buffer iff the buffer is among its inputs. *)
Theorem edge_symmetry_invariant (cat : Catalog) (ops : list operation) (h : Heap) :
  run cat ops empty_heap = Some h →
  ∀ u b, (is_producer h u b ↔ output_of h u = Some b)
         ∧ (is_consumer h u b ↔ is_input h u b).
Proof.
  intros Hrun. apply (edge_symmetric_run cat ops empty_heap h Hrun).
  apply edge_symmetric_empty.
Qed.

(** The edges of [frame_line] are symmetric. *)
Lemma edge_symmetry_invariant_witness :
  run demo_catalog frame_line_ops empty_heap = Some frame_line
  ∧ ∀ u b, (is_producer frame_line u b ↔ output_of frame_line u = Some b)
           ∧ (is_consumer frame_line u b ↔ is_input frame_line u b).
Proof.
  split; [vm_compute; reflexivity|].
  apply (edge_symmetry_invariant demo_catalog frame_line_ops frame_line).
  vm_compute; reflexivity.
Defined.

(** *** What edge symmetry says about references *)

Lemma container_consumer_allocated h c out u :
  edge_symmetric h → containerNodes h !! c = Some out → u ∈ c_consumers out →
  unit_allocated h u = true.
Proof.
  intros Hsym Hc Hu. destruct (Hsym u (ContainerRef c)) as [_ Hcons].
  heap_solver.
Qed.

Lemma container_producer_allocated h c out u :
  edge_symmetric h → containerNodes h !! c = Some out → u ∈ c_producers out →
  unit_allocated h u = true.
Proof.
  intros Hsym Hc Hu. destruct (Hsym u (ContainerRef c)) as [Hprod _].
  heap_solver.
Qed.

Lemma transferContainer_consumer_allocated h c out i :
  edge_symmetric h → transferContainerNodes h !! c = Some out →
  i ∈ tc_consumers out → is_Some (industryNodes h !! i).
Proof.
  intros Hsym Hc Hi.
  destruct (Hsym (IndustryRef i) (TransferContainerRef c)) as [_ Hcons].
  heap_solver.
Qed.

Lemma output_allocated h t node b :
  edge_symmetric h → transferNodes h !! t = Some node → t_output node = Some b →
  buffer_allocated h b = true.
Proof.
  intros Hsym Ht Hb. destruct (Hsym (TransferRef t) b) as [Hprod _].
  heap_solver.
Qed.

Lemma unit_allocated_industry h i :
  unit_allocated h (IndustryRef i) = true → ∃ node, industryNodes h !! i = Some node.
Proof. unfold unit_allocated. intros H. apply bool_decide_eq_true in H as [n Hn]. eauto. Qed.

Lemma unit_allocated_transfer h t :
  unit_allocated h (TransferRef t) = true → ∃ node, transferNodes h !! t = Some node.
Proof. unfold unit_allocated. intros H. apply bool_decide_eq_true in H as [n Hn]. eauto. Qed.

(** *** Recipes of the industries of a store *)

Lemma recipes_resolve_alt cat h :
  recipes_resolve cat h ↔
  ∀ i r, i_recipe <$> industryNodes h !! i = Some r →
         findRecipe cat (item (product r)) = Some r.
Proof.
  unfold recipes_resolve, IndustryNode_item. split.
  - intros Hres i r Hr. destruct (industryNodes h !! i) as [node|] eqn:Hi;
      simplify_eq/=. by apply (Hres i).
  - intros Hres i node Hi. apply (Hres i). by rewrite Hi.
Qed.

Lemma takeFrom_recipes h u b h' i :
  takeFrom h u b = Some h' →
  i_recipe <$> industryNodes h' !! i = i_recipe <$> industryNodes h !! i.
Proof.
  intros Htake. destruct u, b; simplify_eq/=;
    unfold IndustryNode_takeFrom, TransferNode_takeFrom; heap_simpl; done.
Qed.

Lemma producers_delete_industries u b h :
  industryNodes (producers_delete u b h) = industryNodes h.
Proof. by destruct u, b. Qed.

Lemma producers_add_industries u b h :
  industryNodes (producers_add u b h) = industryNodes h.
Proof. by destruct u, b. Qed.

Lemma delete_old_industries h u :
  industryNodes (delete_old h u) = industryNodes h.
Proof.
  unfold delete_old. destruct (output_of h u); [|done].
  apply producers_delete_industries.
Qed.

Lemma outputTo_recipes h u b h' i :
  outputTo h u b = Some h' →
  i_recipe <$> industryNodes h' !! i = i_recipe <$> industryNodes h !! i.
Proof.
  intros Hto. destruct u as [j|t].
  - destruct b as [c|c]; [|discriminate]. injection Hto as <-.
    rewrite IndustryNode_outputTo_eq, producers_add_industries. cbn.
    rewrite lookup_alter, delete_old_industries.
    case_decide; [subst|done]. by destruct (industryNodes h !! i).
  - injection Hto as <-.
    rewrite TransferNode_outputTo_eq, producers_add_industries. cbn.
    by rewrite delete_old_industries.
Qed.

Lemma recipes_resolve_perform cat op h h' :
  catalog_coherent cat →
  perform cat op h = Some h' → recipes_resolve cat h → recipes_resolve cat h'.
Proof.
  intros Hcat Hop Hres. rewrite recipes_resolve_alt in *.
  intros i r. destruct op; simpl in Hop.
  - injection Hop as <-. apply Hres.
  - injection Hop as <-. apply Hres.
  - injection Hop as <-. apply Hres.
  - destruct (IndustryNode_new cat name i0) as [node| |] eqn:Hnew; try discriminate.
    injection Hop as <-. unfold IndustryNode_new, findRecipe_or_throw in Hnew.
    destruct (findRecipe cat i0) as [recipe|] eqn:Hrecipe; simplify_eq/=.
    rewrite lookup_insert. case_decide; [|apply Hres].
    intros [= <-]. simpl. by rewrite (Hcat i0 recipe Hrecipe).
  - injection Hop as <-. apply Hres.
  - destruct (unit_allocated h u && buffer_allocated h b); [|discriminate].
    rewrite (takeFrom_recipes h u b h' i Hop). apply Hres.
  - destruct (unit_allocated h u && buffer_allocated h b); [|discriminate].
    rewrite (outputTo_recipes h u b h' i Hop). apply Hres.
Qed.

Lemma recipes_resolve_run cat ops : ∀ h h',
  catalog_coherent cat →
  run cat ops h = Some h' → recipes_resolve cat h → recipes_resolve cat h'.
Proof.
  induction ops as [|op ops IH]; intros h h' Hcat Hrun Hres; simpl in Hrun.
  - by simplify_eq.
  - destruct (perform cat op h) as [h1|] eqn:Hop; [|discriminate].
    simpl in Hrun. eapply IH; [exact Hcat | exact Hrun |].
    eapply recipes_resolve_perform; eauto.
Qed.

Lemma recipes_resolve_empty cat : recipes_resolve cat empty_heap.
Proof. intros i node Hi. cbn in Hi. by rewrite lookup_empty in Hi. Qed.

(** ** Rates of containers and relays

    [outflowRate] calls itself through [inflowRatePerContainer] of the
    relays that draw from its output. *)

Lemma outflowRate_S cat h fuel this :
  TransferNode_outflowRate cat h (S fuel) this
  = (consumptionRate ←
       match t_output this with
       | None => Ret Num.zero
       | Some (ContainerRef c) =>
           out ← deref (containerNodes h) c;
           foldM
             (λ consumptionRate consumer,
                match consumer with
                | IndustryRef i =>
                    node ← deref (industryNodes h) i;
                    rate ← IndustryNode_getInput cat node (t_item this);
                    Ret (Num.add consumptionRate rate)
                | TransferRef t =>
                    node ← deref (transferNodes h) t;
                    rate ← TransferNode_inflowRatePerContainer cat h fuel node;
                    Ret (Num.add consumptionRate rate)
                end)
             (elements (c_consumers out)) Num.zero
       | Some (TransferContainerRef c) =>
           out ← deref (transferContainerNodes h) c;
           foldM
             (λ consumptionRate i,
                node ← deref (industryNodes h) i;
                rate ← IndustryNode_getInput cat node (t_item this);
                Ret (Num.add consumptionRate rate))
             (elements (tc_consumers out)) Num.zero
       end;
     Ret (Num.min consumptionRate (t_transferRate this))).
Proof. reflexivity. Qed.

Lemma inflowRate_returns cat h fuel node :
  returns (TransferNode_inflowRatePerContainer cat h fuel node)
  ↔ returns (TransferNode_outflowRate cat h fuel node).
Proof.
  unfold TransferNode_inflowRatePerContainer. rewrite returns_bind.
  split.
  - intros (a & Ha & _). by exists a.
  - intros [a Ha]. exists a. split; [exact Ha|]. apply returns_Ret.
Qed.

(** a relay that takes from the container it fills *)
Lemma outflowRate_loop cat h t node c out :
  transferNodes h !! t = Some node →
  t_output node = Some (ContainerRef c) →
  containerNodes h !! c = Some out →
  TransferRef t ∈ c_consumers out →
  ∀ fuel, ¬ returns (TransferNode_outflowRate cat h fuel node).
Proof.
  intros Ht Hout Hc Hin fuel.
  induction fuel as [|fuel IH].
  - intros [? ?]. discriminate.
  - rewrite outflowRate_S, Hout. cbv beta iota. rewrite (deref_Some _ _ _ Hc).
    intros Hret. apply returns_bind in Hret as (rate & Hrate & _).
    simpl in Hrate.
    eapply foldM_stuck; [| |by exists rate].
    + apply elem_of_elements. exact Hin.
    + intros acc. cbv beta iota. rewrite (deref_Some _ _ _ Ht).
      intros Hret. apply returns_bind in Hret as (? & [=<-] & Hret).
      apply returns_bind in Hret as (r & Hr & _).
      apply IH, inflowRate_returns. by exists r.
Qed.

Lemma egress_loop cat h t tnode c out :
  transferNodes h !! t = Some tnode →
  t_output tnode = Some (ContainerRef c) →
  containerNodes h !! c = Some out →
  TransferRef t ∈ c_consumers out →
  t_item tnode = c_item out →
  ∀ fuel, ¬ returns (ContainerNode_egress cat h fuel out).
Proof.
  intros Ht Hout Hc Hin Hitem fuel Hret.
  unfold ContainerNode_egress, ContainerNode_egress_base in Hret.
  apply returns_bind in Hret as (base & Hbase & _).
  assert (Hmap : returns (rates ← mapM_outcome
    (λ consumer,
       match consumer with
       | IndustryRef i =>
           node ← deref (industryNodes h) i;
           rate ← IndustryNode_getInput cat node (c_item out);
           Ret (Num.mul (c_split out) rate)
       | TransferRef t =>
           node ← deref (transferNodes h) t;
           if decide (t_item node = c_item out)
           then TransferNode_inflowRatePerContainer cat h fuel node
           else Ret Num.zero
       end)
    (elements (c_consumers out)); Ret (Num.sum rates))) by (by exists base).
  apply returns_bind in Hmap as (rates & Hrates & _).
  eapply mapM_outcome_stuck; [| |by exists rates].
  - apply elem_of_elements. exact Hin.
  - cbv beta iota. rewrite (deref_Some _ _ _ Ht), bind_Ret.
    rewrite decide_True by exact Hitem.
    rewrite inflowRate_returns. by apply (outflowRate_loop cat h t tnode c out).
Qed.

Lemma ingress_loop cat h t tnode c out :
  transferNodes h !! t = Some tnode →
  t_output tnode = Some (ContainerRef c) →
  containerNodes h !! c = Some out →
  TransferRef t ∈ c_consumers out →
  TransferRef t ∈ c_producers out →
  t_item tnode = c_item out →
  isOre cat (c_item out) = false →
  ∀ fuel, ¬ returns (ContainerNode_ingress cat h fuel out).
Proof.
  intros Ht Hout Hc Hin Hprod Hitem Hore fuel Hret.
  unfold ContainerNode_ingress in Hret. rewrite Hore in Hret.
  apply returns_bind in Hret as (rates & Hrates & _).
  eapply mapM_outcome_stuck; [| |by exists rates].
  - apply elem_of_elements. exact Hprod.
  - cbv beta iota. rewrite (deref_Some _ _ _ Ht), bind_Ret.
    rewrite decide_True by exact Hitem.
    by apply (outflowRate_loop cat h t tnode c out).
Qed.

Section Termination.
Context (cat : Catalog) (h : Heap) (rank : nat → nat).
Hypothesis Hsym : edge_symmetric h.
Hypothesis Hrecipes : recipes_resolve cat h.
Hypothesis Hrank : relays_ranked h rank.

Lemma industry_getInput_returns i node it :
  industryNodes h !! i = Some node → returns (IndustryNode_getInput cat node it).
Proof. intros Hi. apply getInput_returns. rewrite (Hrecipes i node Hi). eauto. Qed.

Lemma industry_getOutput_returns i node it :
  industryNodes h !! i = Some node → returns (IndustryNode_getOutput cat node it).
Proof. intros Hi. apply getOutput_returns. rewrite (Hrecipes i node Hi). eauto. Qed.

Lemma outflowRate_returns fuel : ∀ t node,
  transferNodes h !! t = Some node → (rank t < fuel)%nat →
  returns (TransferNode_outflowRate cat h fuel node).
Proof.
  induction fuel as [|fuel IH]; intros t node Ht Hlt; [lia|].
  rewrite outflowRate_S. apply returns_bind.
  assert (Hrate : returns
    match t_output node with
    | None => Ret Num.zero
    | Some (ContainerRef c) =>
        out ← deref (containerNodes h) c;
        foldM
          (λ consumptionRate consumer,
             match consumer with
             | IndustryRef i =>
                 node' ← deref (industryNodes h) i;
                 rate ← IndustryNode_getInput cat node' (t_item node);
                 Ret (Num.add consumptionRate rate)
             | TransferRef t' =>
                 node' ← deref (transferNodes h) t';
                 rate ← TransferNode_inflowRatePerContainer cat h fuel node';
                 Ret (Num.add consumptionRate rate)
             end)
          (elements (c_consumers out)) Num.zero
    | Some (TransferContainerRef c) =>
        out ← deref (transferContainerNodes h) c;
        foldM
          (λ consumptionRate i,
             node' ← deref (industryNodes h) i;
             rate ← IndustryNode_getInput cat node' (t_item node);
             Ret (Num.add consumptionRate rate))
          (elements (tc_consumers out)) Num.zero
    end).
  { destruct (t_output node) as [[c|c]|] eqn:Hout; [| |apply returns_Ret].
    - pose proof (output_allocated h t node _ Hsym Ht Hout) as Hc.
      apply bool_decide_eq_true in Hc as [out Hc].
      rewrite (deref_Some _ _ _ Hc). rewrite bind_Ret.
      apply foldM_returns. intros u acc Hu. apply elem_of_elements in Hu.
      pose proof (container_consumer_allocated h c out u Hsym Hc Hu) as Halloc.
      destruct u as [i|t'].
      + apply unit_allocated_industry in Halloc as [node' Hi].
        rewrite (deref_Some _ _ _ Hi). rewrite bind_Ret.
        destruct (industry_getInput_returns i node' (t_item node) Hi) as [r ->].
        apply returns_Ret.
      + apply unit_allocated_transfer in Halloc as [node' Ht'].
        rewrite (deref_Some _ _ _ Ht'). rewrite bind_Ret.
        assert (Hin : returns (TransferNode_inflowRatePerContainer cat h fuel node')).
        { apply inflowRate_returns. apply (IH t' node' Ht').
          pose proof (Hrank t node c out t' Ht Hout Hc Hu). lia. }
        destruct Hin as [r ->]. apply returns_Ret.
    - pose proof (output_allocated h t node _ Hsym Ht Hout) as Hc.
      apply bool_decide_eq_true in Hc as [out Hc].
      rewrite (deref_Some _ _ _ Hc). rewrite bind_Ret.
      apply foldM_returns. intros i acc Hi. apply elem_of_elements in Hi.
      destruct (transferContainer_consumer_allocated h c out i Hsym Hc Hi)
        as [node' Hi'].
      rewrite (deref_Some _ _ _ Hi'). rewrite bind_Ret.
      destruct (industry_getInput_returns i node' (t_item node) Hi') as [r ->].
      apply returns_Ret. }
  destruct Hrate as [rate Hrate]. exists rate. split; [exact Hrate|].
  apply returns_Ret.
Qed.

Lemma enough_fuel_rank t node :
  transferNodes h !! t = Some node → (rank t < enough_fuel h rank)%nat.
Proof.
  intros Ht. unfold enough_fuel.
  assert (rank t ≤ max_list (rank <$> elements (dom (transferNodes h))))%nat; [|lia].
  apply max_list_elem_of_le. apply list_elem_of_fmap. exists t.
  split; [reflexivity|]. apply elem_of_elements, elem_of_dom. eauto.
Qed.

Lemma ingress_returns fuel c node :
  (enough_fuel h rank ≤ fuel)%nat →
  containerNodes h !! c = Some node →
  returns (ContainerNode_ingress cat h fuel node).
Proof.
  intros Hfuel Hc. unfold ContainerNode_ingress.
  destruct (isOre cat (c_item node)); [apply returns_Ret|].
  apply returns_bind.
  match goal with
  | |- ∃ a, mapM_outcome ?f ?xs = Ret a ∧ _ =>
      assert (Hmap : returns (mapM_outcome f xs))
  end.
  { apply mapM_outcome_returns. intros u Hu. apply elem_of_elements in Hu.
    pose proof (container_producer_allocated h c node u Hsym Hc Hu) as Halloc.
    destruct u as [i|t].
    - apply unit_allocated_industry in Halloc as [node' Hi].
      rewrite (deref_Some _ _ _ Hi). rewrite bind_Ret.
      by apply (industry_getOutput_returns i).
    - apply unit_allocated_transfer in Halloc as [node' Ht].
      rewrite (deref_Some _ _ _ Ht). rewrite bind_Ret.
      case_decide; [|apply returns_Ret].
      apply (outflowRate_returns fuel t node' Ht).
      pose proof (enough_fuel_rank t node' Ht). lia. }
  destruct Hmap as [rates Hrates]. exists rates. split; [exact Hrates|].
  apply returns_Ret.
Qed.

Lemma egress_returns fuel c node :
  (enough_fuel h rank ≤ fuel)%nat →
  containerNodes h !! c = Some node →
  returns (ContainerNode_egress cat h fuel node).
Proof.
  intros Hfuel Hc. unfold ContainerNode_egress, ContainerNode_egress_base.
  apply returns_bind.
  match goal with
  | |- ∃ a, (mapM_outcome ?f ?xs ≫= _) = Ret a ∧ _ =>
      assert (Hmap : returns (mapM_outcome f xs))
  end.
  { apply mapM_outcome_returns. intros u Hu. apply elem_of_elements in Hu.
    pose proof (container_consumer_allocated h c node u Hsym Hc Hu) as Halloc.
    destruct u as [i|t].
    - apply unit_allocated_industry in Halloc as [node' Hi].
      rewrite (deref_Some _ _ _ Hi). rewrite bind_Ret.
      destruct (industry_getInput_returns i node' (c_item node) Hi) as [r ->].
      apply returns_Ret.
    - apply unit_allocated_transfer in Halloc as [node' Ht].
      rewrite (deref_Some _ _ _ Ht). rewrite bind_Ret.
      case_decide; [|apply returns_Ret].
      apply inflowRate_returns, (outflowRate_returns fuel t node' Ht).
      pose proof (enough_fuel_rank t node' Ht). lia. }
  destruct Hmap as [rates Hrates]. rewrite Hrates. rewrite bind_Ret.
  eexists. split; [reflexivity|].
  destruct (c_output node); apply returns_Ret.
Qed.

End Termination.

(** *** Queries that follow references once *)

Section Queries.
Context (cat : Catalog) (h : Heap).
Hypothesis Hsym : edge_symmetric h.
Hypothesis Hrecipes : recipes_resolve cat h.

Lemma UnitRef_item_returns u :
  unit_allocated h u = true → returns (UnitRef_item h u).
Proof.
  intros Hu. destruct u as [i|t].
  - apply unit_allocated_industry in Hu as [node Hi].
    unfold UnitRef_item. rewrite (deref_Some _ _ _ Hi). apply returns_Ret.
  - apply unit_allocated_transfer in Hu as [node Ht].
    unfold UnitRef_item. rewrite (deref_Some _ _ _ Ht). apply returns_Ret.
Qed.

Lemma ContainerNode_maintain_returns c node :
  containerNodes h !! c = Some node →
  returns (ContainerNode_maintain cat h node).
Proof.
  intros Hc. unfold ContainerNode_maintain, ContainerNode_maintain_base.
  match goal with
  | |- returns ((foldM ?f ?xs ?a ≫= _) ≫= _) =>
      assert (Hfold : returns (foldM f xs a))
  end.
  { apply foldM_returns. intros u acc Hu. apply elem_of_elements in Hu.
    pose proof (container_consumer_allocated h c node u Hsym Hc Hu) as Halloc.
    destruct u as [i|t]; [|apply returns_Ret].
    apply unit_allocated_industry in Halloc as [node' Hi].
    rewrite (deref_Some _ _ _ Hi), bind_Ret.
    unfold findRecipe_or_throw. rewrite (Hrecipes i node' Hi).
    apply returns_Ret. }
  destruct Hfold as [m ->]. rewrite !bind_Ret.
  destruct (c_output node); apply returns_Ret.
Qed.

Lemma TransferContainerNode_maintain_returns c node :
  transferContainerNodes h !! c = Some node →
  returns (TransferContainerNode_maintain cat h node).
Proof.
  intros Hc. unfold TransferContainerNode_maintain.
  apply foldM_returns. intros it acc _.
  apply foldM_returns. intros i acc' Hi. apply elem_of_elements in Hi.
  destruct (transferContainer_consumer_allocated h c node i Hsym Hc Hi)
    as [node' Hi'].
  rewrite (deref_Some _ _ _ Hi'), bind_Ret.
  unfold findRecipe_or_throw. rewrite (Hrecipes i node' Hi').
  apply returns_Ret.
Qed.

Lemma canAddOutgoingLinks_returns c node count :
  containerNodes h !! c = Some node →
  ContainerNode_isSplit node = true ∨ isOre cat (c_item node) = true
    ∨ is_Some (findRecipe cat (c_item node)) →
  returns (ContainerNode_canAddOutgoingLinks cat h node count).
Proof.
  intros Hc Hitem. unfold ContainerNode_canAddOutgoingLinks.
  destruct (ContainerNode_isSplit node); [apply returns_Ret|].
  destruct (isOre cat (c_item node)); [apply returns_Ret|].
  destruct Hitem as [?|[?|[recipe Hrecipe]]]; try discriminate.
  unfold findRecipe_or_throw. rewrite Hrecipe. cbn [of_option]. rewrite bind_Ret.
  match goal with
  | |- returns (foldM ?f ?xs ?a ≫= _) => assert (Hfold : returns (foldM f xs a))
  end.
  { apply foldM_returns. intros byproduct acc _.
    apply foldM_returns. intros u acc' Hu. apply elem_of_elements in Hu.
    pose proof (container_consumer_allocated h c node u Hsym Hc Hu) as Halloc.
    destruct (UnitRef_item_returns u Halloc) as [it ->].
    rewrite bind_Ret. apply returns_Ret. }
  destruct Hfold as [r ->]. rewrite bind_Ret. apply returns_Ret.
Qed.

End Queries.

(** *** Which calls return *)

(** C9 (what fails): in [relay_loop] a relay moves aluminium from
    container 0 back into container 0; neither egress nor ingress of
    that container returns, whatever the recursion budget. *)
Lemma relay_loop_never_returns :
  run demo_catalog relay_loop_ops empty_heap = Some relay_loop
  ∧ ∃ node,
      containerNodes relay_loop !! 0%nat = Some node
      ∧ ∀ fuel,
          ¬ returns (ContainerNode_egress demo_catalog relay_loop fuel node)
          ∧ ¬ returns (ContainerNode_ingress demo_catalog relay_loop fuel node).
Proof.
  split; [vm_compute; reflexivity|].
  eexists. split; [vm_compute; reflexivity|].
  assert (Ht : ∃ tnode, transferNodes relay_loop !! 0%nat = Some tnode
                        ∧ t_output tnode = Some (ContainerRef 0)
                        ∧ t_item tnode = aluminium).
  { eexists. split; [vm_compute; reflexivity|]. split; reflexivity. }
  destruct Ht as (tnode & Ht & Hout & Hitem).
  intros fuel. split.
  - eapply (egress_loop demo_catalog relay_loop 0 tnode 0);
      [exact Ht | exact Hout | vm_compute; reflexivity | vm_compute; reflexivity
      | exact Hitem].
  - eapply (ingress_loop demo_catalog relay_loop 0 tnode 0);
      [exact Ht | exact Hout | vm_compute; reflexivity | vm_compute; reflexivity
      | vm_compute; reflexivity | exact Hitem | reflexivity].
Qed.

Lemma demo_catalog_coherent : catalog_coherent demo_catalog.
Proof.
  intros i r. simpl. repeat case_decide; intros [= <-]; by subst.
Qed.

Lemma relay_chain_ranked : relays_ranked relay_chain relay_chain_rank.
Proof.
  intros t node c out t' Ht Hout Hc Hin.
  assert (Hdom : t ∈ dom (transferNodes relay_chain)) by (apply elem_of_dom; eauto).
  assert (Hrelays : dom (transferNodes relay_chain) = {[ 0%nat; 1%nat ]})
    by (vm_compute; reflexivity).
  rewrite Hrelays in Hdom. clear Hrelays.
  apply elem_of_elements in Hin.
  apply elem_of_union in Hdom as [Hdom|Hdom]; apply elem_of_singleton in Hdom;
    subst t; vm_compute in Ht; injection Ht as <-;
    injection Hout as <-; vm_compute in Hc; injection Hc as <-;
    set (consumers := elements _) in Hin; vm_compute in consumers;
    subst consumers; apply list_elem_of_singleton in Hin.
  - injection Hin as ->. unfold relay_chain_rank. lia.
  - discriminate.
Qed.

(** C9 (as amended): on a store built by constructing nodes and wiring
    them, under a catalog whose recipes make the item they are found
    for: [container] throws iff the list of container sizes is empty,
    and then before anything else; takeFrom and outputTo complete on
    every pair of nodes that their signatures accept;
    canAddOutgoingLinks answers whenever the container is split, holds
    an ore, or holds an item with a recipe; getInput and getOutput
    return; all this whether or not the relays form a cycle.  ingress
    and egress return when the relays can be ranked so that every relay
    that draws from the output of a relay has a smaller rank (no chain
    of relays feeds back into itself) and the depth of nested calls that
    is available exceeds the largest rank of a relay. *)
Theorem queries_total (cat : Catalog) (ops : list operation) (h : Heap) :
  catalog_coherent cat →
  run cat ops empty_heap = Some h →
  (∀ c node, containerNodes h !! c = Some node →
     (CONTAINERS_ASCENDING_BY_CAPACITY cat = [] →
      ContainerNode_container cat h node = Throw EmptyCatalog)
     ∧ (CONTAINERS_ASCENDING_BY_CAPACITY cat ≠ [] →
        returns (ContainerNode_container cat h node)))
  ∧ (∀ c node, transferContainerNodes h !! c = Some node →
       (CONTAINERS_ASCENDING_BY_CAPACITY cat = [] →
        TransferContainerNode_container cat h node = Throw EmptyCatalog)
       ∧ (CONTAINERS_ASCENDING_BY_CAPACITY cat ≠ [] →
          returns (TransferContainerNode_container cat h node)))
  ∧ (∀ u b, unit_allocated h u = true → buffer_allocated h b = true →
       (is_Some (perform cat (TakeFrom u b) h)
        ↔ ¬ ∃ t c, u = TransferRef t ∧ b = TransferContainerRef c)
       ∧ (is_Some (perform cat (OutputTo u b) h)
          ↔ ¬ ∃ i c, u = IndustryRef i ∧ b = TransferContainerRef c))
  ∧ (∀ c node count, containerNodes h !! c = Some node →
       ContainerNode_isSplit node = true ∨ isOre cat (c_item node) = true
         ∨ is_Some (findRecipe cat (c_item node)) →
       returns (ContainerNode_canAddOutgoingLinks cat h node count))
  ∧ (∀ i node it, industryNodes h !! i = Some node →
       returns (IndustryNode_getInput cat node it)
       ∧ returns (IndustryNode_getOutput cat node it))
  ∧ (∀ rank fuel c node,
       relays_ranked h rank →
       (enough_fuel h rank ≤ fuel)%nat →
       containerNodes h !! c = Some node →
       returns (ContainerNode_ingress cat h fuel node)
       ∧ returns (ContainerNode_egress cat h fuel node)).
Proof.
  intros Hcat Hrun.
  assert (Hsym : edge_symmetric h).
  { apply (edge_symmetric_run cat ops empty_heap h Hrun), edge_symmetric_empty. }
  assert (Hres : recipes_resolve cat h).
  { apply (recipes_resolve_run cat ops empty_heap h Hcat Hrun),
      recipes_resolve_empty. }
  split_and!.
  - intros c node Hc. split.
    + intros Hempty. unfold ContainerNode_container. by rewrite Hempty.
    + intros Hsizes.
      unfold ContainerNode_container.
      destruct (CONTAINERS_ASCENDING_BY_CAPACITY cat); [done|].
      destruct (ContainerNode_maintain_returns cat h Hsym Hres c node Hc) as [m ->].
      rewrite bind_Ret. apply returns_Ret.
  - intros c node Hc. split.
    + intros Hempty. unfold TransferContainerNode_container. by rewrite Hempty.
    + intros Hsizes. unfold TransferContainerNode_container.
      destruct (CONTAINERS_ASCENDING_BY_CAPACITY cat); [done|].
      destruct (TransferContainerNode_maintain_returns cat h Hsym Hres c node Hc)
        as [m ->].
      rewrite bind_Ret. apply returns_Ret.
  - intros u b Hu Hb. simpl. rewrite Hu, Hb. simpl.
    split; (split; [intros Hsome (x & y & -> & ->); by destruct Hsome|]);
      intros Hnot; destruct u, b; simpl; eauto; exfalso; apply Hnot; eauto.
  - intros c node count Hc Hitem.
    by apply (canAddOutgoingLinks_returns cat h Hsym c node).
  - intros i node it Hi. split.
    + by apply (industry_getInput_returns cat h Hres i).
    + by apply (industry_getOutput_returns cat h Hres i).
  - intros rank fuel c node Hrank Hfuel Hc. split.
    + by apply (ingress_returns cat h rank Hsym Hres Hrank fuel c).
    + by apply (egress_returns cat h rank Hsym Hres Hrank fuel c).
Qed.

(** In [relay_chain] the container query and the egress of container 0
    return; the egress is the input rate of the frame industry at the
    end of the chain.  In [relay_loop], where a relay feeds the container
    it draws from, the container query, getInput of the frame industry,
    canAddOutgoingLinks and a further takeFrom still return. *)
Lemma queries_total_witness :
  catalog_coherent demo_catalog
  ∧ run demo_catalog relay_chain_ops empty_heap = Some relay_chain
  ∧ relays_ranked relay_chain relay_chain_rank
  ∧ (∃ node,
       containerNodes relay_chain !! 0%nat = Some node
       ∧ returns (ContainerNode_container demo_catalog relay_chain node)
       ∧ returns (ContainerNode_egress demo_catalog relay_chain 2 node)
       ∧ ContainerNode_egress demo_catalog relay_chain 2 node = Ret (Fin (1 # 5)))
  ∧ run demo_catalog relay_loop_ops empty_heap = Some relay_loop
  ∧ ∃ node,
      containerNodes relay_loop !! 0%nat = Some node
      ∧ returns (ContainerNode_container demo_catalog relay_loop node)
      ∧ returns (ContainerNode_canAddOutgoingLinks demo_catalog relay_loop node
                   (Num.of_Z 1))
      ∧ is_Some (perform demo_catalog
                   (TakeFrom (TransferRef 0) (ContainerRef 0)) relay_loop).
Proof.
  split; [exact demo_catalog_coherent|].
  split; [vm_compute; reflexivity|].
  split; [exact relay_chain_ranked|].
  split.
  - destruct (queries_total demo_catalog relay_chain_ops relay_chain
                demo_catalog_coherent) as (Hcontainer & _ & _ & _ & _ & Hrates);
      [vm_compute; reflexivity|].
    eexists. split; [vm_compute; reflexivity|]. split.
    + eapply (Hcontainer 0%nat); [vm_compute; reflexivity | discriminate].
    + split; [|vm_compute; reflexivity].
      eapply (Hrates relay_chain_rank 2%nat 0%nat);
        [exact relay_chain_ranked | vm_compute; lia | vm_compute; reflexivity].
  - split; [vm_compute; reflexivity|].
    destruct (queries_total demo_catalog relay_loop_ops relay_loop
                demo_catalog_coherent) as (Hcontainer & _ & Hwire & Hlinks & _);
      [vm_compute; reflexivity|].
    eexists. split; [vm_compute; reflexivity|]. split; [|split].
    + eapply (Hcontainer 0%nat); [vm_compute; reflexivity | discriminate].
    + eapply (Hlinks 0%nat); [vm_compute; reflexivity|].
      right. right. vm_compute. eauto.
    + apply (Hwire (TransferRef 0) (ContainerRef 0));
        [vm_compute; reflexivity | vm_compute; reflexivity |].
      intros (t & c & _ & [=]).
Defined.

(** ** The inflow rate of a relay *)

(** C10: the inflow rate per container of a relay is its outflow rate
    divided by the number of its inputs; with no input the quotient is
    not a finite number, and with at least one input it is finite exactly
    when the outflow rate is. *)
Theorem inflowRatePerContainer_quotient (cat : Catalog) (h : Heap) (fuel : nat)
    (t : TransferNode) (r : number) :
  TransferNode_outflowRate cat h fuel t = Ret r →
  TransferNode_inflowRatePerContainer cat h fuel t
  = Ret (Num.div r (Num.of_nat (size (t_inputs t))))
  ∧ (t_inputs t = ∅ →
     Num.is_finite (Num.div r (Num.of_nat (size (t_inputs t)))) = false)
  ∧ (t_inputs t ≠ ∅ →
     Num.is_finite (Num.div r (Num.of_nat (size (t_inputs t)))) = Num.is_finite r).
Proof.
  intros Hout.
  destruct (Num_div_by_count r (size (t_inputs t))) as [Hzero Hpos].
  split_and!.
  - unfold TransferNode_inflowRatePerContainer. by rewrite Hout.
  - intros Hempty. apply Hzero. rewrite Hempty. apply size_empty.
  - intros Hinputs. apply Hpos. intros Hsize.
    apply Hinputs. by apply size_empty_inv, leibniz_equiv in Hsize.
Qed.

(** In [relay_line] relay 0 has one input and a finite inflow rate;
    relay 1 has none and its inflow rate is Infinity. *)
Lemma inflowRatePerContainer_quotient_witness :
  ∃ t0 t1,
    transferNodes relay_line !! 0%nat = Some t0
    ∧ transferNodes relay_line !! 1%nat = Some t1
    ∧ t_inputs t0 ≠ ∅ ∧ t_inputs t1 = ∅
    ∧ TransferNode_outflowRate demo_catalog relay_line 1 t0 = Ret (Fin (1 # 5))
    ∧ TransferNode_inflowRatePerContainer demo_catalog relay_line 1 t0
      = Ret (Fin (1 # 5))
    ∧ TransferNode_outflowRate demo_catalog relay_line 1 t1 = Ret (Fin (1 # 5))
    ∧ TransferNode_inflowRatePerContainer demo_catalog relay_line 1 t1 = Ret PInf.
Proof.
  eexists _, _.
  split; [vm_compute; reflexivity|]. split; [vm_compute; reflexivity|].
  split; [vm_compute; discriminate|]. split; [vm_compute; reflexivity|].
  split; [vm_compute; reflexivity|]. split.
  - match goal with
    | |- TransferNode_inflowRatePerContainer _ _ _ ?t = _ =>
        destruct (inflowRatePerContainer_quotient demo_catalog relay_line 1 t
                    (Fin (1 # 5))) as (Hrate & _ & _);
          [vm_compute; reflexivity|]
    end.
    rewrite Hrate. vm_compute; reflexivity.
  - split; [vm_compute; reflexivity|].
    match goal with
    | |- TransferNode_inflowRatePerContainer _ _ _ ?t = _ =>
        destruct (inflowRatePerContainer_quotient demo_catalog relay_line 1 t
                    (Fin (1 # 5))) as (Hrate & _ & _);
          [vm_compute; reflexivity|]
    end.
    rewrite Hrate. vm_compute; reflexivity.
Defined.

(** * Further properties of the graph *)
(** ** Rates and link limits *)

Lemma fold_left_consumed (i : Item) (l : list ItemQuantity) (acc : number) :
  fold_left
    (λ total ingredient,
       if decide (item ingredient = i)
       then Num.add total (quantity ingredient) else total) l acc
  = fold_left Num.add (quantity <$> filter (λ p, item p = i) l) acc.
Proof.
  revert acc. induction l as [|p l IH]; intros acc; simpl; [reflexivity|].
  rewrite filter_cons, IH. by destruct (decide (item p = i)).
Qed.

(** X1: the input rate of a production node for an item is the sum of
    the quantities of the ingredients of its recipe with that item,
    divided by the time of the recipe; for an item that is no ingredient
    (and a time that is a non-zero number) it is 0. *)
Theorem getInput_rate (cat : Catalog) (P : IndustryNode) (i : Item) :
  findRecipe cat (IndustryNode_item P) = Some (i_recipe P) →
  IndustryNode_getInput cat P i
  = Ret (Num.div (consumed_quantity (i_recipe P) i) (time (i_recipe P)))
  ∧ (Num.nonzero (time (i_recipe P)) = true →
     (∀ g, g ∈ ingredients (i_recipe P) → item g ≠ i) →
     IndustryNode_getInput cat P i = Ret Num.zero).
Proof.
  intros Hrecipe.
  assert (Hrate : IndustryNode_getInput cat P i
    = Ret (Num.div (consumed_quantity (i_recipe P) i) (time (i_recipe P)))).
  { unfold IndustryNode_getInput, findRecipe_or_throw. rewrite Hrecipe. simpl.
    by rewrite fold_left_consumed. }
  split; [exact Hrate|]. intros Htime Hnone. rewrite Hrate.
  assert (Hfilter : filter (λ p, item p = i) (ingredients (i_recipe P)) = []).
  { induction (ingredients (i_recipe P)) as [|g gs IH]; [reflexivity|].
    rewrite filter_cons, decide_False.
    - apply IH. intros g' Hg'. apply Hnone. by right.
    - apply Hnone. left. }
  unfold consumed_quantity. rewrite Hfilter. simpl.
  f_equal. by apply Num_div_zero.
Qed.

(** The frame industry takes 2 aluminium in 10 time units and no oxygen. *)
Lemma getInput_rate_witness :
  findRecipe demo_catalog (IndustryNode_item frame_industry)
  = Some (i_recipe frame_industry)
  ∧ IndustryNode_getInput demo_catalog frame_industry aluminium = Ret (Fin (1 # 5))
  ∧ IndustryNode_getInput demo_catalog frame_industry oxygen = Ret Num.zero.
Proof.
  split; [reflexivity|]. split.
  - destruct (getInput_rate demo_catalog frame_industry aluminium eq_refl)
      as [Hrate _].
    rewrite Hrate. reflexivity.
  - destruct (getInput_rate demo_catalog frame_industry oxygen eq_refl)
      as [_ Hzero].
    apply Hzero; [reflexivity|].
    intros g Hg. apply list_elem_of_singleton in Hg. by subst.
Defined.

(** X2: getOutput and getInput throw exactly when findRecipe finds no
    recipe for the item of the node, whatever the queried item. *)
Theorem industry_rates_throw_iff (cat : Catalog) (P : IndustryNode) (i : Item) :
  (IndustryNode_getOutput cat P i = Throw NoRecipe
   ↔ findRecipe cat (IndustryNode_item P) = None)
  ∧ (IndustryNode_getInput cat P i = Throw NoRecipe
     ↔ findRecipe cat (IndustryNode_item P) = None)
  ∧ (returns (IndustryNode_getOutput cat P i)
     ↔ is_Some (findRecipe cat (IndustryNode_item P)))
  ∧ (returns (IndustryNode_getInput cat P i)
     ↔ is_Some (findRecipe cat (IndustryNode_item P))).
Proof.
  unfold IndustryNode_getOutput, IndustryNode_getInput, findRecipe_or_throw.
  destruct (findRecipe cat (IndustryNode_item P)) as [r|]; simpl.
  - split_and!; split; try done; intros _; try (by eexists); eauto.
  - split_and!; split; try done; intros [? ?]; done.
Qed.

(** X3: a container that is not split and holds an ore, and every
    transfer container, accepts [n] more outgoing links iff
    outgoingLinkCount + n <= 10, whatever the consumers are. *)
Theorem canAddOutgoingLinks_plain_limit (cat : Catalog) (h : Heap)
    (c : ContainerNode) (tc : TransferContainerNode) (n : Z) :
  ContainerNode_isSplit c = false →
  isOre cat (c_item c) = true →
  (∃ answer,
     ContainerNode_canAddOutgoingLinks cat h c (Num.of_Z n) = Ret answer
     ∧ (answer = true ↔ Z.of_nat (ContainerNode_outgoingLinkCount c) + n ≤ 10))
  ∧ (TransferContainerNode_canAddOutgoingLinks tc (Num.of_Z n) = true
     ↔ Z.of_nat (TransferContainerNode_outgoingLinkCount tc) + n ≤ 10).
Proof.
  intros Hsplit Hore. split.
  - unfold ContainerNode_canAddOutgoingLinks.
    rewrite Hsplit, Hore. eexists. split; [reflexivity|].
    unfold Num.of_nat, MAX_CONTAINER_LINKS. rewrite Num_add_of_Z.
    apply Num_leb_of_Z.
  - unfold TransferContainerNode_canAddOutgoingLinks, Num.of_nat,
      MAX_CONTAINER_LINKS. rewrite Num_add_of_Z. apply Num_leb_of_Z.
Qed.

(** A bauxite container and a transfer container without consumers
    accept ten more outgoing links and refuse eleven. *)
Lemma canAddOutgoingLinks_plain_limit_witness :
  ContainerNode_isSplit bauxite_container = false
  ∧ isOre demo_catalog (c_item bauxite_container) = true
  ∧ ContainerNode_canAddOutgoingLinks demo_catalog empty_heap bauxite_container
      (Num.of_Z 10) = Ret true
  ∧ TransferContainerNode_canAddOutgoingLinks empty_transfer_container
      (Num.of_Z 11) = false.
Proof.
  split; [reflexivity|]. split; [reflexivity|].
  destruct (canAddOutgoingLinks_plain_limit demo_catalog empty_heap
              bauxite_container empty_transfer_container 10 eq_refl eq_refl)
    as [(answer & Hanswer & Hiff) _].
  destruct (canAddOutgoingLinks_plain_limit demo_catalog empty_heap
              bauxite_container empty_transfer_container 11 eq_refl eq_refl)
    as [_ Htc].
  split.
  - rewrite Hanswer. f_equal. apply Hiff. vm_compute. discriminate.
  - apply not_true_iff_false. intros Htrue. apply Htc in Htrue.
    vm_compute in Htrue. by apply Htrue.
Defined.

(** ** The size of a container, again *)

Lemma select_container_elem (req : number) (first : ContainerElement)
    (sizes : list ContainerElement) :
  select_container req first sizes = first
  ∨ select_container req first sizes ∈ sizes.
Proof.
  rewrite select_container_last.
  destruct (last (filter _ sizes)) as [s|] eqn:Hlast; [|by left].
  right. apply last_Some_elem_of in Hlast.
  by apply list_elem_of_filter in Hlast as [_ ?].
Qed.

Lemma select_container_none (req : number) (first : ContainerElement)
    (sizes : list ContainerElement) :
  (∀ s, s ∈ sizes → covers req s = false) →
  select_container req first sizes = first.
Proof.
  intros Hnone. rewrite select_container_last.
  assert (Hfilter : filter (λ s, covers req s = true) sizes = []).
  { induction sizes as [|s sizes IH]; [reflexivity|].
    rewrite filter_cons, decide_False.
    - apply IH. intros s' Hs'. apply Hnone. by right.
    - rewrite (Hnone s) by left. discriminate. }
  by rewrite Hfilter.
Qed.

Lemma ContainerNode_container_select cat h c m first rest :
  CONTAINERS_ASCENDING_BY_CAPACITY cat = first :: rest →
  ContainerNode_maintain cat h c = Ret m →
  ContainerNode_container cat h c
  = Ret (select_container (Num.mul m (volume cat (c_item c))) first
           (first :: rest)).
Proof.
  intros Hsizes Hm. unfold ContainerNode_container. by rewrite Hsizes, Hm.
Qed.

Lemma TransferContainerNode_container_select cat h c m first rest :
  CONTAINERS_ASCENDING_BY_CAPACITY cat = first :: rest →
  TransferContainerNode_maintain cat h c = Ret m →
  TransferContainerNode_container cat h c
  = Ret (select_container (required_capacity_of cat m) first (first :: rest)).
Proof.
  intros Hsizes Hm. unfold TransferContainerNode_container.
  by rewrite Hsizes, Hm.
Qed.

(** X4: when the catalog has sizes and [maintain] returns, [container]
    returns a size of the catalog; when no size of the catalog covers
    the required capacity it returns the first size, and does not
    throw. *)
Theorem container_without_covering_size (cat : Catalog) (h : Heap)
    (c : ContainerNode) (m : number) (first : ContainerElement)
    (rest : list ContainerElement) :
  CONTAINERS_ASCENDING_BY_CAPACITY cat = first :: rest →
  ContainerNode_maintain cat h c = Ret m →
  ∃ size,
    ContainerNode_container cat h c = Ret size
    ∧ size ∈ CONTAINERS_ASCENDING_BY_CAPACITY cat
    ∧ ((∀ s, s ∈ CONTAINERS_ASCENDING_BY_CAPACITY cat →
             covers (Num.mul m (volume cat (c_item c))) s = false) →
       size = first).
Proof.
  intros Hsizes Hm.
  rewrite (ContainerNode_container_select cat h c m first rest Hsizes Hm).
  eexists. split; [reflexivity|]. rewrite Hsizes. split.
  - destruct (select_container_elem (Num.mul m (volume cat (c_item c))) first
                (first :: rest)) as [->|Hin]; [left|exact Hin].
  - apply select_container_none.
Qed.

(** X5: the same for a transfer container, whose required capacity is
    the sum of quantity times volume over the entries of [maintain]. *)
Theorem transfer_container_without_covering_size (cat : Catalog) (h : Heap)
    (c : TransferContainerNode) (m : list (Item * number))
    (first : ContainerElement) (rest : list ContainerElement) :
  CONTAINERS_ASCENDING_BY_CAPACITY cat = first :: rest →
  TransferContainerNode_maintain cat h c = Ret m →
  ∃ size,
    TransferContainerNode_container cat h c = Ret size
    ∧ size ∈ CONTAINERS_ASCENDING_BY_CAPACITY cat
    ∧ ((∀ s, s ∈ CONTAINERS_ASCENDING_BY_CAPACITY cat →
             covers (required_capacity_of cat m) s = false) →
       size = first).
Proof.
  intros Hsizes Hm.
  rewrite (TransferContainerNode_container_select cat h c m first rest Hsizes Hm).
  eexists. split; [reflexivity|]. rewrite Hsizes. split.
  - destruct (select_container_elem (required_capacity_of cat m) first
                (first :: rest)) as [->|Hin]; [left|exact Hin].
  - apply select_container_none.
Qed.

(** X6: with sizes that ascend by capacity, as soon as one size covers
    the required capacity [container] of a container returns the last,
    that is the largest, size of the catalog. *)
Theorem container_of_ascending_catalog (cat : Catalog) (h : Heap)
    (c : ContainerNode) (m : number) (s : ContainerElement) :
  ascending (CONTAINERS_ASCENDING_BY_CAPACITY cat) →
  ContainerNode_maintain cat h c = Ret m →
  s ∈ CONTAINERS_ASCENDING_BY_CAPACITY cat →
  covers (Num.mul m (volume cat (c_item c))) s = true →
  ∃ largest,
    last (CONTAINERS_ASCENDING_BY_CAPACITY cat) = Some largest
    ∧ ContainerNode_container cat h c = Ret largest.
Proof.
  intros Hsorted Hm Hs Hcovers.
  destruct (CONTAINERS_ASCENDING_BY_CAPACITY cat) as [|first rest] eqn:Hsizes;
    [inversion Hs|].
  rewrite (ContainerNode_container_select cat h c m first rest Hsizes Hm).
  eexists. split; [|reflexivity].
  by apply (select_container_ascending _ first (first :: rest) s).
Qed.

Lemma demo_sizes_ascending :
  ascending (CONTAINERS_ASCENDING_BY_CAPACITY demo_catalog).
Proof.
  unfold ascending. simpl.
  repeat (constructor; [|repeat constructor]). constructor.
Qed.

(** With the sizes 5 and 10 nothing covers the 20 units that container 0
    of [frame_line] requires, and the getter returns the size 5. *)
Lemma container_without_covering_size_witness :
  ∃ node first rest,
    containerNodes frame_line !! 0%nat = Some node
    ∧ CONTAINERS_ASCENDING_BY_CAPACITY small_sizes_catalog = first :: rest
    ∧ ContainerNode_maintain small_sizes_catalog frame_line node = Ret (Num.of_Z 2)
    ∧ capacity first = Num.of_Z 5
    ∧ ContainerNode_container small_sizes_catalog frame_line node = Ret first.
Proof.
  eexists _, _, _.
  split; [vm_compute; reflexivity|]. split; [reflexivity|].
  split; [vm_compute; reflexivity|]. split; [reflexivity|].
  match goal with
  | |- ContainerNode_container _ _ ?node = Ret ?first =>
      destruct (container_without_covering_size small_sizes_catalog frame_line
                  node (Num.of_Z 2) first
                  [ {| ce_name := "small"; capacity := Num.of_Z 10 |} ])
        as (size & Hsize & _ & Hfirst);
        [reflexivity | vm_compute; reflexivity |]
  end.
  rewrite Hsize. f_equal. apply Hfirst.
  intros s Hs. simpl in Hs.
  repeat (apply elem_of_cons in Hs as [->|Hs]; [vm_compute; reflexivity|]).
  inversion Hs.
Defined.

(** The same for transfer container 0 of [frame_line]. *)
Lemma transfer_container_without_covering_size_witness :
  ∃ node first rest,
    transferContainerNodes frame_line !! 0%nat = Some node
    ∧ CONTAINERS_ASCENDING_BY_CAPACITY small_sizes_catalog = first :: rest
    ∧ TransferContainerNode_maintain small_sizes_catalog frame_line node
      = Ret [(aluminium, Num.of_Z 2)]
    ∧ capacity first = Num.of_Z 5
    ∧ TransferContainerNode_container small_sizes_catalog frame_line node
      = Ret first.
Proof.
  eexists _, _, _.
  split; [vm_compute; reflexivity|]. split; [reflexivity|].
  split; [vm_compute; reflexivity|]. split; [reflexivity|].
  match goal with
  | |- TransferContainerNode_container _ _ ?node = Ret ?first =>
      destruct (transfer_container_without_covering_size small_sizes_catalog
                  frame_line node [(aluminium, Num.of_Z 2)] first
                  [ {| ce_name := "small"; capacity := Num.of_Z 10 |} ])
        as (size & Hsize & _ & Hfirst);
        [reflexivity | vm_compute; reflexivity |]
  end.
  rewrite Hsize. f_equal. apply Hfirst.
  intros s Hs. simpl in Hs.
  repeat (apply elem_of_cons in Hs as [->|Hs]; [vm_compute; reflexivity|]).
  inversion Hs.
Defined.

(** With the four sizes of the catalog, which ascend, container 0 of
    [frame_line] gets the largest one although the smallest covers. *)
Lemma container_of_ascending_catalog_witness :
  ∃ node,
    containerNodes frame_line !! 0%nat = Some node
    ∧ ascending (CONTAINERS_ASCENDING_BY_CAPACITY demo_catalog)
    ∧ ContainerNode_maintain demo_catalog frame_line node = Ret (Num.of_Z 2)
    ∧ covers (Num.mul (Num.of_Z 2) (volume demo_catalog (c_item node))) size_XS
      = true
    ∧ ContainerNode_container demo_catalog frame_line node = Ret size_L.
Proof.
  eexists. split; [vm_compute; reflexivity|].
  split; [exact demo_sizes_ascending|].
  split; [vm_compute; reflexivity|]. split; [vm_compute; reflexivity|].
  match goal with
  | |- ContainerNode_container _ _ ?node = _ =>
      destruct (container_of_ascending_catalog demo_catalog frame_line node
                  (Num.of_Z 2) size_XS demo_sizes_ascending)
        as (largest & Hlast & Hcontainer);
        [vm_compute; reflexivity | left | vm_compute; reflexivity |]
  end.
  rewrite Hcontainer. f_equal. simpl in Hlast. by injection Hlast as <-.
Defined.

(** ** Wiring, again *)

Ltac unfold_links :=
  unfold outgoingLinkCount, unit_incomingLinkCount, incomingLinkCount,
    ContainerNode_outgoingLinkCount, TransferContainerNode_outgoingLinkCount,
    ContainerNode_incomingLinkCount, TransferContainerNode_incomingLinkCount,
    IndustryNode_incomingLinkCount, TransferNode_incomingLinkCount in *.

Lemma takeFrom_views h u b h' :
  unit_allocated h u = true → buffer_allocated h b = true →
  takeFrom h u b = Some h' →
  (∀ u' b', is_producer h' u' b' ↔ is_producer h u' b')
  ∧ (∀ u' b', is_consumer h' u' b' ↔ is_consumer h u' b' ∨ (u' = u ∧ b' = b))
  ∧ (∀ u', output_of h' u' = output_of h u')
  ∧ (∀ u' b', is_input h' u' b' ↔ is_input h u' b' ∨ (u' = u ∧ b' = b)).
Proof.
  intros Hu Hb Htake.
  destruct u, b; simplify_eq/=;
    unfold IndustryNode_takeFrom, TransferNode_takeFrom;
    split_and!; intros; heap_solver.
Qed.

Lemma alter_twice {A} (f : A → A) (k : nat) (m : gmap nat A) :
  (∀ x, f (f x) = f x) → alter f k (alter f k m) = alter f k m.
Proof.
  intros Hf. apply map_eq. intros j. destruct (decide (k = j)) as [->|Hne].
  - rewrite !lookup_alter_eq. destruct (m !! j); simpl; [|done]. by rewrite Hf.
  - by rewrite !lookup_alter_ne.
Qed.

Lemma union_singleton_twice `{Countable K} (s : gset K) (x : K) :
  s ∪ {[x]} ∪ {[x]} = s ∪ {[x]}.
Proof. set_solver. Qed.

(** X7: takeFrom is idempotent: a second takeFrom of the same buffer by
    the same unit leaves the store as the first one left it. *)
Theorem takeFrom_idempotent (h : Heap) (u : UnitRef) (b : BufferRef) (h1 : Heap) :
  takeFrom h u b = Some h1 → takeFrom h1 u b = Some h1.
Proof.
  intros Htake. destruct u as [i|t], b as [c|c]; simplify_eq/=; f_equal;
    destruct h as [cn tcn ind tr];
    unfold IndustryNode_takeFrom, TransferNode_takeFrom, consumers_add,
      with_industryNodes, with_transferNodes, with_containerNodes,
      with_transferContainerNodes; cbn; f_equal;
    apply alter_twice; intros [];
    unfold i_with_inputs, t_with_inputs, c_with_consumers, tc_with_consumers;
    cbn; f_equal; apply union_singleton_twice.
Qed.

Lemma alter_add_delete_add {A K} `{Countable K} (get : A → gset K)
    (set : (gset K → gset K) → A → A) (k : nat) (x : K) (m : gmap nat A) :
  (∀ f g a, set f (set g a) = set (f ∘ g) a) →
  (∀ f g a, f (get a) = g (get a) → set f a = set g a) →
  alter (set (λ s, s ∪ {[x]})) k
    (alter (set (λ s, s ∖ {[x]})) k (alter (set (λ s, s ∪ {[x]})) k m))
  = alter (set (λ s, s ∪ {[x]})) k m.
Proof.
  intros Hcomp Hext. apply map_eq. intros j.
  destruct (decide (k = j)) as [->|Hne].
  - rewrite !lookup_alter_eq. destruct (m !! j) as [a|]; simpl; [|done].
    f_equal. rewrite !Hcomp. apply Hext. unfold compose.
    apply set_eq. intros y. rewrite !elem_of_union, elem_of_difference,
      elem_of_union, elem_of_singleton.
    destruct (decide (y = x)); tauto.
  - by rewrite !lookup_alter_ne.
Qed.

Lemma c_with_producers_compose f g a :
  c_with_producers f (c_with_producers g a) = c_with_producers (f ∘ g) a.
Proof. by destruct a. Qed.

Lemma c_with_producers_ext f g a :
  f (c_producers a) = g (c_producers a) → c_with_producers f a = c_with_producers g a.
Proof. intros Hfg. destruct a. unfold c_with_producers. simpl in *. by rewrite Hfg. Qed.

Lemma tc_with_producers_compose f g a :
  tc_with_producers f (tc_with_producers g a) = tc_with_producers (f ∘ g) a.
Proof. by destruct a. Qed.

Lemma tc_with_producers_ext f g a :
  f (tc_producers a) = g (tc_producers a) →
  tc_with_producers f a = tc_with_producers g a.
Proof. intros Hfg. destruct a. unfold tc_with_producers. simpl in *. by rewrite Hfg. Qed.

Lemma i_with_output_twice o a : i_with_output o (i_with_output o a) = i_with_output o a.
Proof. by destruct a. Qed.

Lemma t_with_output_twice o a : t_with_output o (t_with_output o a) = t_with_output o a.
Proof. by destruct a. Qed.

Ltac unfold_updates :=
  unfold producers_add, producers_delete, consumers_add, with_containerNodes,
    with_transferContainerNodes, with_industryNodes, with_transferNodes; cbn.

Ltac producers_again :=
  first
    [ apply (alter_add_delete_add c_producers c_with_producers);
      [apply c_with_producers_compose | apply c_with_producers_ext]
    | apply (alter_add_delete_add tc_producers tc_with_producers);
      [apply tc_with_producers_compose | apply tc_with_producers_ext]
    | apply alter_twice; intros a;
      first [ rewrite c_with_producers_compose; apply c_with_producers_ext
            | rewrite tc_with_producers_compose; apply tc_with_producers_ext ];
      unfold compose; apply union_singleton_twice
    | apply alter_twice, i_with_output_twice
    | apply alter_twice, t_with_output_twice ].

(** X8: outputTo is idempotent: a second outputTo of the same buffer by
    the same unit leaves the store as the first one left it. *)
Theorem outputTo_idempotent (h : Heap) (u : UnitRef) (b : BufferRef) (h1 : Heap) :
  outputTo h u b = Some h1 → outputTo h1 u b = Some h1.
Proof.
  intros Hto. destruct u as [i|t].
  - destruct b as [c|c]; [|discriminate]. injection Hto as <-.
    cbn [outputTo]. f_equal.
    rewrite (IndustryNode_outputTo_eq h).
    generalize (delete_old h (IndustryRef i)). intros [cn tcn ind tr].
    rewrite IndustryNode_outputTo_eq. unfold delete_old, output_of.
    unfold_updates. rewrite lookup_alter_eq.
    destruct (ind !! i) as [node|] eqn:Hi; unfold_updates;
      f_equal; producers_again.
  - injection Hto as <-. cbn [outputTo]. f_equal.
    rewrite (TransferNode_outputTo_eq h).
    generalize (delete_old h (TransferRef t)). intros [cn tcn ind tr].
    rewrite TransferNode_outputTo_eq. unfold delete_old, output_of.
    destruct b as [c|c]; unfold_updates; rewrite lookup_alter_eq;
      (destruct (tr !! t) as [node|] eqn:Ht; unfold_updates;
       f_equal; producers_again).
Qed.

(** X9: a takeFrom between a unit and a buffer of the store, of classes
    that its signature accepts, always completes: no link limit is
    consulted, whatever the link counts are.  When it makes a new link it
    adds one outgoing link to the buffer and one incoming link to the
    unit, and changes no other link count. *)
Theorem takeFrom_new_link (h : Heap) (u : UnitRef) (b : BufferRef) :
  unit_allocated h u = true →
  buffer_allocated h b = true →
  (¬ ∃ t c, u = TransferRef t ∧ b = TransferContainerRef c) →
  ∃ h',
    takeFrom h u b = Some h'
    ∧ (¬ is_consumer h u b →
       ¬ is_input h u b →
       outgoingLinkCount h' b = (outgoingLinkCount h b + 1)%nat
       ∧ unit_incomingLinkCount h' u = (unit_incomingLinkCount h u + 1)%nat
       ∧ (∀ b', b' ≠ b → outgoingLinkCount h' b' = outgoingLinkCount h b')
       ∧ (∀ u', u' ≠ u →
            unit_incomingLinkCount h' u' = unit_incomingLinkCount h u')
       ∧ (∀ b', incomingLinkCount h' b' = incomingLinkCount h b')).
Proof.
  intros Hu Hb Hclass.
  assert (Htake : ∃ h', takeFrom h u b = Some h').
  { destruct u as [i|t], b as [c|c]; cbn [takeFrom]; eauto.
    destruct Hclass. eauto. }
  destruct Htake as [h' Htake]. exists h'. split; [exact Htake|].
  clear Hclass. intros Hcons Hin.
  destruct u as [i|t], b as [c|c]; simplify_eq/=;
    unfold IndustryNode_takeFrom, TransferNode_takeFrom;
    split_and!; intros; unfold_links; heap_simpl;
    try done; try (by apply size_add_fresh).
Qed.

(** X10: in every store reached by constructing nodes and wiring them a
    unit is among the producers of at most one buffer, its output. *)
Theorem producer_of_one_buffer (cat : Catalog) (ops : list operation) (h : Heap)
    (u : UnitRef) (b1 b2 : BufferRef) :
  run cat ops empty_heap = Some h →
  is_producer h u b1 → is_producer h u b2 → b1 = b2.
Proof.
  intros Hrun H1 H2.
  pose proof (edge_symmetric_run cat ops empty_heap h Hrun edge_symmetric_empty)
    as Hsym.
  apply (Hsym u b1) in H1. apply (Hsym u b2) in H2. congruence.
Qed.

(** The frame industry of [frame_line] takes from container 2 twice. *)
Lemma takeFrom_idempotent_witness :
  let h1 := IndustryNode_takeFrom frame_line 0 (ContainerRef 2) in
  takeFrom frame_line (IndustryRef 0) (ContainerRef 2) = Some h1
  ∧ takeFrom h1 (IndustryRef 0) (ContainerRef 2) = Some h1.
Proof.
  intros h1. split; [reflexivity|].
  apply (takeFrom_idempotent frame_line (IndustryRef 0) (ContainerRef 2) h1).
  reflexivity.
Defined.

(** The frame industry of [frame_line] outputs to container 2 twice. *)
Lemma outputTo_idempotent_witness :
  let h1 := IndustryNode_outputTo frame_line 0 2 in
  outputTo frame_line (IndustryRef 0) (ContainerRef 2) = Some h1
  ∧ outputTo h1 (IndustryRef 0) (ContainerRef 2) = Some h1.
Proof.
  intros h1. split; [reflexivity|].
  apply (outputTo_idempotent frame_line (IndustryRef 0) (ContainerRef 2) h1).
  reflexivity.
Defined.

(** The frame industry of [full_industry] has seven inputs and
    [canAddIncomingLinks(1)] refuses; takeFrom of container 7, which had
    no consumer, completes all the same and makes the eighth input. *)
Lemma takeFrom_new_link_witness :
  (∃ node,
     industryNodes full_industry !! 0%nat = Some node
     ∧ IndustryNode_incomingLinkCount node = 7%nat
     ∧ IndustryNode_canAddIncomingLinks node (Num.of_Z 1) = false)
  ∧ ∃ h',
      takeFrom full_industry (IndustryRef 0) (ContainerRef 7) = Some h'
      ∧ outgoingLinkCount full_industry (ContainerRef 7) = 0%nat
      ∧ outgoingLinkCount h' (ContainerRef 7) = 1%nat
      ∧ unit_incomingLinkCount h' (IndustryRef 0) = 8%nat.
Proof.
  split.
  { eexists. split; [vm_compute; reflexivity|].
    split; vm_compute; reflexivity. }
  destruct (takeFrom_new_link full_industry (IndustryRef 0) (ContainerRef 7))
    as (h' & Htake & Hcounts).
  - vm_compute; reflexivity.
  - vm_compute; reflexivity.
  - intros (t & c & [=] & _).
  - exists h'. split; [exact Htake|].
    destruct Hcounts as (Hout & Hin & _).
    + vm_compute. discriminate.
    + vm_compute. discriminate.
    + split; [vm_compute; reflexivity|].
      split; [rewrite Hout|rewrite Hin]; vm_compute; reflexivity.
Defined.

(** In [frame_line] the frame industry is a producer of container 1 only. *)
Lemma producer_of_one_buffer_witness :
  run demo_catalog frame_line_ops empty_heap = Some frame_line
  ∧ is_producer frame_line (IndustryRef 0) (ContainerRef 1)
  ∧ ∀ b, is_producer frame_line (IndustryRef 0) b → b = ContainerRef 1.
Proof.
  split; [vm_compute; reflexivity|].
  assert (Hprod : is_producer frame_line (IndustryRef 0) (ContainerRef 1))
    by (vm_compute; reflexivity).
  split; [exact Hprod|]. intros b Hb.
  apply (producer_of_one_buffer demo_catalog frame_line_ops frame_line
           (IndustryRef 0) b (ContainerRef 1)); [vm_compute; reflexivity| |];
    assumption.
Defined.

(** ** Rates of relays and standing quantities *)

Lemma Num_min_bound (a b : number) :
  Num.min a b = NaN ∨ Num.leb (Num.min a b) b = true.
Proof.
  destruct a as [x| | |], b as [y| | |]; simpl; auto.
  - right. destruct (Qle_bool x y) eqn:Hle; simpl; [exact Hle|].
    apply Qle_bool_iff, Qle_refl.
  - right. apply Qle_bool_iff, Qle_refl.
Qed.

Lemma Num_min_infinity (a : number) : Num.min a PInf = a.
Proof. by destruct a. Qed.

(** X11: the outflow rate of a relay never exceeds its transfer rate: it
    is NaN or at most [transferRate]; with the transfer rate Infinity
    that the constructor sets, a relay without output has the outflow
    rate 0. *)
Theorem outflowRate_bounded (cat : Catalog) (h : Heap) (fuel : nat)
    (t : TransferNode) (r : number) :
  TransferNode_outflowRate cat h fuel t = Ret r →
  (r = NaN ∨ Num.leb r (t_transferRate t) = true)
  ∧ (t_output t = None → t_transferRate t = PInf → r = Num.zero).
Proof.
  intros Hout. destruct fuel as [|fuel]; [discriminate|].
  rewrite outflowRate_S in Hout.
  match type of Hout with
  | (?m ≫= _) = _ => destruct m as [rate| |] eqn:Hrate; try discriminate
  end.
  rewrite bind_Ret in Hout. injection Hout as <-. split.
  - apply Num_min_bound.
  - intros Hnone Hinf. rewrite Hnone in Hrate. injection Hrate as <-.
    by rewrite Hinf.
Qed.

Lemma foldM_mono {A B} (f f' : B → A → outcome B) (xs : list A) (acc r : B) :
  (∀ x a v, x ∈ xs → f a x = Ret v → f' a x = Ret v) →
  foldM f xs acc = Ret r → foldM f' xs acc = Ret r.
Proof.
  revert acc. induction xs as [|x xs IH]; intros acc Hf; simpl; [done|].
  destruct (f acc x) as [v| |] eqn:Hv; simpl; try discriminate.
  rewrite (Hf x acc v (list_elem_of_here _ _) Hv). simpl. apply IH.
  intros y a w Hy. apply Hf. by right.
Qed.

Lemma mapM_outcome_mono {A B} (f f' : A → outcome B) (xs : list A) (r : list B) :
  (∀ x v, x ∈ xs → f x = Ret v → f' x = Ret v) →
  mapM_outcome f xs = Ret r → mapM_outcome f' xs = Ret r.
Proof.
  revert r. induction xs as [|x xs IH]; intros r Hf; simpl; [done|].
  destruct (f x) as [v| |] eqn:Hv; simpl; try discriminate.
  rewrite (Hf x v (list_elem_of_here _ _) Hv). simpl.
  destruct (mapM_outcome f xs) as [vs| |] eqn:Hvs; simpl; try discriminate.
  rewrite (IH vs); [done| |done]. intros y w Hy. apply Hf. by right.
Qed.

(** the rate that [outflowRate] returns does not depend on the budget *)
Lemma outflowRate_fuel_mono cat h fuel : ∀ fuel' t r,
  (fuel ≤ fuel')%nat →
  TransferNode_outflowRate cat h fuel t = Ret r →
  TransferNode_outflowRate cat h fuel' t = Ret r.
Proof.
  induction fuel as [|fuel IH]; intros fuel' t r Hle Hout; [discriminate|].
  destruct fuel' as [|fuel']; [lia|].
  rewrite outflowRate_S in *.
  match type of Hout with
  | (?m ≫= _) = _ => destruct m as [rate| |] eqn:Hrate; try discriminate
  end.
  rewrite bind_Ret in Hout. injection Hout as <-.
  match goal with
  | |- (?m ≫= _) = _ => assert (Hrate' : m = Ret rate)
  end.
  { destruct (t_output t) as [[c|c]|]; [| |done].
    - destruct (deref (containerNodes h) c) as [out| |]; try discriminate.
      rewrite bind_Ret in *. eapply foldM_mono; [|exact Hrate].
      intros [i|t'] a v _; [done|]. cbv beta iota.
      destruct (deref (transferNodes h) t') as [node| |]; try discriminate.
      rewrite !bind_Ret. unfold TransferNode_inflowRatePerContainer.
      destruct (TransferNode_outflowRate cat h fuel node) as [x| |] eqn:Hx;
        try discriminate.
      rewrite (IH fuel' node x); [done|lia|done].
    - done. }
  by rewrite Hrate'.
Qed.

Lemma fold_left_add_app (xs ys : list number) (acc : number) :
  fold_left Num.add (xs ++ ys) acc = fold_left Num.add ys (fold_left Num.add xs acc).
Proof. apply fold_left_app. Qed.

Lemma maintain_loop cat h (i : Item) (consumers : list UnitRef) :
  (∀ k, IndustryRef k ∈ consumers →
        ∃ node, industryNodes h !! k = Some node
                ∧ is_Some (findRecipe cat (IndustryNode_item node))) →
  ∀ acc,
    foldM
      (λ maintain consumer,
         match consumer with
         | TransferRef _ => Ret maintain
         | IndustryRef k =>
             node ← deref (industryNodes h) k;
             recipe ← findRecipe_or_throw cat (IndustryNode_item node);
             Ret (fold_left
                    (λ maintain ingredient,
                       if decide (item ingredient = i)
                       then Num.add maintain (quantity ingredient) else maintain)
                    (ingredients recipe) maintain)
         end)
      consumers acc
    = Ret (fold_left Num.add (ingredient_needs cat h i consumers) acc).
Proof.
  induction consumers as [|u us IH]; intros Hres acc; [reflexivity|].
  assert (Hus : ∀ k, IndustryRef k ∈ us →
    ∃ node, industryNodes h !! k = Some node
            ∧ is_Some (findRecipe cat (IndustryNode_item node))).
  { intros k Hk. apply Hres. by right. }
  cbn [foldM]. unfold ingredient_needs. cbn [mbind list_bind]. fold (ingredient_needs cat h i us).
  destruct u as [k|t].
  - destruct (Hres k) as (node & Hk & recipe & Hrecipe); [left|].
    rewrite (deref_Some _ _ _ Hk), bind_Ret. unfold findRecipe_or_throw.
    rewrite Hk, Hrecipe. cbn [of_option]. rewrite !bind_Ret.
    rewrite (IH Hus), fold_left_app. by rewrite fold_left_consumed.
  - rewrite bind_Ret. rewrite (IH Hus). reflexivity.
Qed.

Lemma ingredient_needs_relays cat h i (consumers : list UnitRef) :
  (∀ u, u ∈ consumers → ∃ t, u = TransferRef t) →
  ingredient_needs cat h i consumers = [].
Proof.
  induction consumers as [|u us IH]; intros Hrelays; [reflexivity|].
  unfold ingredient_needs. cbn [mbind list_bind].
  fold (ingredient_needs cat h i us).
  destruct (Hrelays u) as [t ->]; [left|]. simpl. apply IH.
  intros u' Hu'. apply Hrelays. by right.
Qed.

(** X12: in a store built by constructing nodes and wiring them, under a
    catalog whose recipes make the item they are found for, [maintain]
    of a container is its split fraction times the total quantity of its
    item among the ingredients of its production-unit consumers (plus
    the maintained output of an OutputNode); relays contribute nothing. *)
Theorem maintain_of_consumers (cat : Catalog) (ops : list operation) (h : Heap)
    (r : nat) (c : ContainerNode) :
  catalog_coherent cat →
  run cat ops empty_heap = Some h →
  containerNodes h !! r = Some c →
  let needs := ingredient_needs cat h (c_item c) (elements (c_consumers c)) in
  let base := Num.mul (Num.sum needs) (c_split c) in
  ContainerNode_maintain cat h c
  = Ret match c_output c with
        | None => base
        | Some o => Num.add base (maintainedOutput o)
        end
  ∧ ((∀ u, u ∈ c_consumers c → ∃ t, u = TransferRef t) → needs = []).
Proof.
  intros Hcat Hrun Hc needs base.
  pose proof (edge_symmetric_run cat ops empty_heap h Hrun edge_symmetric_empty)
    as Hsym.
  pose proof (recipes_resolve_run cat ops empty_heap h Hcat Hrun
                (recipes_resolve_empty cat)) as Hres.
  split.
  - unfold ContainerNode_maintain, ContainerNode_maintain_base.
    rewrite maintain_loop.
    + rewrite !bind_Ret. by destruct (c_output c).
    + intros k Hk. apply elem_of_elements in Hk.
      pose proof (container_consumer_allocated h r c _ Hsym Hc Hk) as Halloc.
      apply unit_allocated_industry in Halloc as [node Hnode].
      exists node. split; [exact Hnode|]. rewrite (Hres k node Hnode). eauto.
  - intros Hrelays. apply ingredient_needs_relays.
    intros u Hu. apply Hrelays. by apply elem_of_elements.
Qed.

(** *** The entries of [maintain] of a transfer container *)

Lemma Map_set_keys (m : list (Item * number)) (k : Item) (v : number) :
  (Map_set m k v).*1 = if decide (k ∈ m.*1) then m.*1 else m.*1 ++ [k].
Proof.
  induction m as [|[k' v'] m IH].
  - destruct (decide (k ∈ ([] : list (Item * number)).*1)) as [Hin|];
      [inversion Hin|done].
  - cbn [Map_set fst]. destruct (decide (k' = k)) as [->|Hne].
    + rewrite decide_True by left. done.
    + rewrite fmap_cons, IH. cbn [fst].
      destruct (decide (k ∈ m.*1)) as [Hin|Hnotin].
      * rewrite decide_True by (by right). done.
      * rewrite decide_False; [done|]. intros Hin.
        apply elem_of_cons in Hin as [->|Hin]; done.
Qed.

Lemma Map_set_NoDup (m : list (Item * number)) (k : Item) (v : number) :
  NoDup m.*1 → NoDup (Map_set m k v).*1.
Proof.
  intros Hm. rewrite Map_set_keys. case_decide; [done|].
  apply NoDup_app. split_and!; [done| |apply NoDup_singleton].
  intros x Hx Hk. apply list_elem_of_singleton in Hk. by subst.
Qed.

Lemma Map_set_elem (m : list (Item * number)) (k : Item) (v : number) (x : Item) :
  x ∈ (Map_set m k v).*1 ↔ x ∈ m.*1 ∨ x = k.
Proof.
  rewrite Map_set_keys. case_decide as Hk.
  - split; [by left|]. intros [?| ->]; done.
  - rewrite elem_of_app, list_elem_of_singleton. done.
Qed.

Lemma foldM_invariant {A B} (P : B → Prop) (f : B → A → outcome B)
    (xs : list A) (acc r : B) :
  (∀ a x a', x ∈ xs → P a → f a x = Ret a' → P a') →
  P acc → foldM f xs acc = Ret r → P r.
Proof.
  revert acc. induction xs as [|x xs IH]; intros acc Hf Hacc Hr; simpl in Hr.
  - by simplify_eq.
  - destruct (f acc x) as [a'| |] eqn:Ha; simpl in Hr; try discriminate.
    apply (IH a'); [|by apply (Hf acc x); [left| |]|done].
    intros a y a'' Hy. apply Hf. by right.
Qed.

Lemma fold_left_invariant {A B} (P : B → Prop) (f : B → A → B)
    (xs : list A) (acc : B) :
  (∀ a x, x ∈ xs → P a → P (f a x)) → P acc → P (fold_left f xs acc).
Proof.
  revert acc. induction xs as [|x xs IH]; intros acc Hf Hacc; simpl; [done|].
  apply IH; [|apply Hf; [left|done]]. intros a y Hy. apply Hf. by right.
Qed.

(** X13: the map that [maintain] of a transfer container returns has one
    entry per item at most, and only for items of the container that are
    an ingredient of the recipe of one of its consumers. *)
Theorem transfer_maintain_entries (cat : Catalog) (h : Heap)
    (tc : TransferContainerNode) (m : list (Item * number)) :
  TransferContainerNode_maintain cat h tc = Ret m →
  NoDup m.*1
  ∧ ∀ k, k ∈ m.*1 →
      k ∈ tc_items tc
      ∧ ∃ consumer node recipe g,
          consumer ∈ tc_consumers tc
          ∧ industryNodes h !! consumer = Some node
          ∧ findRecipe cat (IndustryNode_item node) = Some recipe
          ∧ g ∈ ingredients recipe ∧ item g = k.
Proof.
  intros Hm.
  set (used k := ∃ consumer node recipe g,
          consumer ∈ tc_consumers tc
          ∧ industryNodes h !! consumer = Some node
          ∧ findRecipe cat (IndustryNode_item node) = Some recipe
          ∧ g ∈ ingredients recipe ∧ item g = k).
  set (P (m : list (Item * number)) :=
         NoDup m.*1 ∧ ∀ k, k ∈ m.*1 → k ∈ tc_items tc ∧ used k).
  change (P m). unfold TransferContainerNode_maintain in Hm.
  eapply (foldM_invariant P); [| |exact Hm].
  - intros a i a' Hi Ha Hinner.
    eapply (foldM_invariant P); [| exact Ha |exact Hinner].
    intros a1 consumer a2 Hconsumer Ha1 Hstep. apply elem_of_elements in Hconsumer.
    cbv beta in Hstep.
    destruct (industryNodes h !! consumer) as [node|] eqn:Hnode;
      [|unfold deref in Hstep; by rewrite Hnode in Hstep].
    rewrite (deref_Some _ _ _ Hnode), bind_Ret in Hstep.
    unfold findRecipe_or_throw in Hstep.
    destruct (findRecipe cat (IndustryNode_item node)) as [recipe|] eqn:Hrecipe;
      [|discriminate].
    cbn [of_option] in Hstep. rewrite bind_Ret in Hstep. injection Hstep as <-.
    apply fold_left_invariant; [|exact Ha1].
    intros a3 g Hg [Hdup Hkeys]. case_decide as Hitem; [|by split].
    assert (Hset : ∀ v, P (Map_set a3 i v)).
    { intros v. split; [by apply Map_set_NoDup|].
      intros k Hk. apply Map_set_elem in Hk as [Hk| ->]; [by apply Hkeys|].
      split; [exact Hi|]. by exists consumer, node, recipe, g. }
    destruct (Map_get a3 i); apply Hset.
  - split; [constructor|]. intros k Hk. inversion Hk.
Qed.

Lemma Map_get_set_eq (m : list (Item * number)) (k : Item) (v : number) :
  Map_get (Map_set m k v) k = Some v.
Proof.
  unfold Map_get. induction m as [|[k' v'] m IH]; cbn [Map_set fst].
  - simpl. by rewrite bool_decide_eq_true_2.
  - destruct (decide (k' = k)) as [->|Hne]; simpl.
    + by rewrite bool_decide_eq_true_2.
    + rewrite bool_decide_eq_false_2 by done. exact IH.
Qed.

Lemma Map_get_set_ne (m : list (Item * number)) (k k' : Item) (v : number) :
  k' ≠ k → Map_get (Map_set m k v) k' = Map_get m k'.
Proof.
  intros Hne. unfold Map_get.
  induction m as [|[k0 v0] m IH]; cbn [Map_set fst].
  - simpl. by rewrite bool_decide_eq_false_2.
  - destruct (decide (k0 = k)) as [->|Hne0]; simpl.
    + by rewrite !bool_decide_eq_false_2.
    + destruct (bool_decide (k0 = k')); [done|exact IH].
Qed.

Lemma accumulate_app (entry : option number) (xs ys : list number) :
  accumulate entry (xs ++ ys) = accumulate (accumulate entry xs) ys.
Proof. apply fold_left_app. Qed.

Lemma transfer_maintain_ingredients (i : Item) (gs : list ItemQuantity) :
  ∀ acc : list (Item * number),
    let acc' :=
      fold_left
        (λ maintain ingredient,
           if decide (item ingredient = i)
           then match Map_get maintain i with
                | Some q => Map_set maintain i (Num.add q (quantity ingredient))
                | None => Map_set maintain i (quantity ingredient)
                end
           else maintain)
        gs acc in
    Map_get acc' i
    = accumulate (Map_get acc i) (quantity <$> filter (λ p, item p = i) gs)
    ∧ ∀ k, k ≠ i → Map_get acc' k = Map_get acc k.
Proof.
  induction gs as [|g gs IH]; intros acc; [done|].
  cbn [fold_left]. rewrite filter_cons.
  destruct (decide (item g = i)) as [Hg|Hg].
  - match goal with
    | |- context [fold_left ?f gs ?a] => destruct (IH a) as [Hi Hk]
    end.
    split.
    + rewrite Hi. cbn [fmap list_fmap accumulate fold_left].
      destruct (Map_get acc i); by rewrite Map_get_set_eq.
    + intros k Hne. rewrite (Hk k Hne).
      destruct (Map_get acc i); by apply Map_get_set_ne.
  - apply IH.
Qed.

Lemma ingredient_needs_cons cat h i (u : UnitRef) (us : list UnitRef) :
  ingredient_needs cat h i (u :: us)
  = ingredient_needs cat h i [u] ++ ingredient_needs cat h i us.
Proof.
  unfold ingredient_needs. cbn [mbind list_bind]. by rewrite app_nil_r.
Qed.

Lemma transfer_maintain_consumers cat h (i : Item) (consumers : list nat) :
  ∀ acc acc' : list (Item * number),
    foldM
      (λ maintain consumer,
         node ← deref (industryNodes h) consumer;
         recipe ← findRecipe_or_throw cat (IndustryNode_item node);
         Ret (fold_left
                (λ maintain ingredient,
                   if decide (item ingredient = i)
                   then match Map_get maintain i with
                        | Some q => Map_set maintain i (Num.add q (quantity ingredient))
                        | None => Map_set maintain i (quantity ingredient)
                        end
                   else maintain)
                (ingredients recipe) maintain))
      consumers acc = Ret acc' →
    Map_get acc' i
    = accumulate (Map_get acc i)
        (ingredient_needs cat h i (IndustryRef <$> consumers))
    ∧ ∀ k, k ≠ i → Map_get acc' k = Map_get acc k.
Proof.
  induction consumers as [|c cs IH]; intros acc acc' Hfold.
  - injection Hfold as <-. done.
  - cbn [foldM] in Hfold.
    destruct (industryNodes h !! c) as [node|] eqn:Hnode;
      [|unfold deref in Hfold; by rewrite Hnode in Hfold].
    rewrite (deref_Some _ _ _ Hnode), bind_Ret in Hfold.
    unfold findRecipe_or_throw in Hfold.
    destruct (findRecipe cat (IndustryNode_item node)) as [recipe|] eqn:Hrecipe;
      [|discriminate].
    cbn [of_option] in Hfold. rewrite !bind_Ret in Hfold.
    destruct (transfer_maintain_ingredients i (ingredients recipe) acc)
      as [Hi Hk].
    destruct (IH _ _ Hfold) as [Hi' Hk'].
    split.
    + rewrite Hi', Hi, fmap_cons, ingredient_needs_cons, accumulate_app.
      f_equal. unfold ingredient_needs. cbn [mbind list_bind].
      by rewrite Hnode, Hrecipe, app_nil_r.
    + intros k Hne. by rewrite (Hk' k Hne), (Hk k Hne).
Qed.

(** X14: the entry of an item in [maintain] of a transfer container
    accumulates the quantities of that item among the ingredients of the
    consumers, once for every occurrence of the item in [items]: an item
    that is listed twice is counted twice, and an item that no consumer
    uses has no entry. *)
Theorem transfer_maintain_value (cat : Catalog) (h : Heap)
    (tc : TransferContainerNode) (m : list (Item * number)) (k : Item) :
  TransferContainerNode_maintain cat h tc = Ret m →
  let needs :=
    ingredient_needs cat h k (IndustryRef <$> elements (tc_consumers tc)) in
  Map_get m k
  = accumulate None
      (mjoin (replicate (length (filter (λ i, i = k) (tc_items tc))) needs)).
Proof.
  intros Hm needs. unfold TransferContainerNode_maintain in Hm.
  assert (Hgen : ∀ items acc m,
    foldM
      (λ maintain i,
         foldM
           (λ maintain consumer,
              node ← deref (industryNodes h) consumer;
              recipe ← findRecipe_or_throw cat (IndustryNode_item node);
              Ret (fold_left
                     (λ maintain ingredient,
                        if decide (item ingredient = i)
                        then match Map_get maintain i with
                             | Some q =>
                                 Map_set maintain i (Num.add q (quantity ingredient))
                             | None => Map_set maintain i (quantity ingredient)
                             end
                        else maintain)
                     (ingredients recipe) maintain))
           (elements (tc_consumers tc)) maintain)
      items acc = Ret m →
    Map_get m k
    = accumulate (Map_get acc k)
        (mjoin (replicate (length (filter (λ i, i = k) items)) needs))).
  { induction items as [|i items IH]; intros acc m' Hfold.
    - injection Hfold as <-. done.
    - cbn [foldM] in Hfold.
      match type of Hfold with
      | (?inner ≫= _) = _ => destruct inner as [acc1| |] eqn:Hinner;
                               try discriminate
      end.
      rewrite bind_Ret in Hfold.
      destruct (transfer_maintain_consumers cat h i _ _ _ Hinner) as [Hi Hk].
      rewrite (IH _ _ Hfold), filter_cons.
      destruct (decide (i = k)) as [->|Hne].
      + cbn [length replicate mjoin list_join]. rewrite accumulate_app.
        by rewrite Hi.
      + by rewrite (Hk k) by done. }
  apply (Hgen _ _ _ Hm).
Qed.

(** Relay 0 of [oxygen_relays] has an input and no output: its outflow
    rate is 0. *)
Lemma outflowRate_bounded_witness :
  ∃ t,
    transferNodes oxygen_relays !! 0%nat = Some t
    ∧ t_output t = None
    ∧ TransferNode_outflowRate demo_catalog oxygen_relays 1 t = Ret Num.zero.
Proof.
  eexists. split; [vm_compute; reflexivity|]. split; [reflexivity|].
  match goal with
  | |- TransferNode_outflowRate _ _ _ ?t = _ =>
      destruct (TransferNode_outflowRate demo_catalog oxygen_relays 1 t)
        as [r| |] eqn:Hr; try (vm_compute in Hr; discriminate);
      destruct (outflowRate_bounded demo_catalog oxygen_relays 1 t r Hr)
        as [_ Hzero]
  end.
  f_equal. apply Hzero; reflexivity.
Defined.

(** Container 0 of [frame_line] has to hold the 2 aluminium of one frame. *)
Lemma maintain_of_consumers_witness :
  ∃ c,
    containerNodes frame_line !! 0%nat = Some c
    ∧ ingredient_needs demo_catalog frame_line (c_item c) (elements (c_consumers c))
      = [Num.of_Z 2]
    ∧ ContainerNode_maintain demo_catalog frame_line c = Ret (Num.of_Z 2).
Proof.
  eexists. split; [vm_compute; reflexivity|]. split; [vm_compute; reflexivity|].
  match goal with
  | |- ContainerNode_maintain _ _ ?c = _ =>
      destruct (maintain_of_consumers demo_catalog frame_line_ops frame_line
                  0%nat c demo_catalog_coherent) as [Hmaintain _];
        [vm_compute; reflexivity | vm_compute; reflexivity |]
  end.
  rewrite Hmaintain. vm_compute; reflexivity.
Defined.

(** Transfer container 0 of [frame_line] holds aluminium and oxygen; its
    consumer uses aluminium only. *)
Lemma transfer_maintain_entries_witness :
  ∃ tc,
    transferContainerNodes frame_line !! 0%nat = Some tc
    ∧ TransferContainerNode_maintain demo_catalog frame_line tc
      = Ret [(aluminium, Num.of_Z 2)]
    ∧ NoDup [aluminium]
    ∧ aluminium ∈ tc_items tc.
Proof.
  eexists. split; [vm_compute; reflexivity|]. split; [vm_compute; reflexivity|].
  match goal with
  | |- _ ∧ _ ∈ tc_items ?tc =>
      destruct (transfer_maintain_entries demo_catalog frame_line tc
                  [(aluminium, Num.of_Z 2)]) as [Hdup Hkeys];
        [vm_compute; reflexivity|]
  end.
  split; [exact Hdup|]. apply (Hkeys aluminium). left.
Defined.

(** The transfer container of [doubled_items] lists aluminium twice and
    maintains 4 aluminium for one frame industry that takes 2. *)
Lemma transfer_maintain_value_witness :
  ∃ tc m,
    transferContainerNodes doubled_items !! 0%nat = Some tc
    ∧ tc_items tc = [aluminium; aluminium]
    ∧ TransferContainerNode_maintain demo_catalog doubled_items tc = Ret m
    ∧ Map_get m aluminium = Some (Num.of_Z 4).
Proof.
  eexists _, _. split; [vm_compute; reflexivity|]. split; [reflexivity|].
  split; [vm_compute; reflexivity|].
  match goal with
  | |- Map_get ?m _ = _ =>
      match goal with
      | |- context [Map_get] =>
          rewrite (transfer_maintain_value demo_catalog doubled_items
                     {| tc_name := "Transfer Container 0";
                        tc_items := [aluminium; aluminium];
                        tc_producers := ∅; tc_consumers := {[ 0%nat ]} |}
                     m aluminium)
      end
  end; vm_compute; reflexivity.
Defined.

(** ** Reserved links and queries of the graph *)

(** X15: for a container that is not split and holds a produced item,
    canAddOutgoingLinks reserves one link per byproduct of the recipe and
    releases one for every pair of a byproduct and a consumer with the
    item of that byproduct.  When the byproducts have different items
    and none has two consumers, the reserved links are the byproducts
    without a consumer. *)
Theorem canAddOutgoingLinks_reservations (cat : Catalog) (h : Heap)
    (c : ContainerNode) (r : Recipe) (items : list Item) (n : Z) :
  ContainerNode_isSplit c = false →
  isOre cat (c_item c) = false →
  findRecipe cat (c_item c) = Some r →
  mapM_outcome (UnitRef_item h) (elements (c_consumers c)) = Ret items →
  ∃ answer,
    ContainerNode_canAddOutgoingLinks cat h c (Num.of_Z n) = Ret answer
    ∧ (answer = true
       ↔ Z.of_nat (ContainerNode_outgoingLinkCount c) + n
         + (Z.of_nat (length (byproducts r)) - released_links r items) ≤ 10)
    ∧ (NoDup (item <$> byproducts r) →
       (∀ b, b ∈ byproducts r →
             (length (filter (λ i, i = item b) items) ≤ 1)%nat) →
       (answer = true
        ↔ Z.of_nat (ContainerNode_outgoingLinkCount c) + n
          + Z.of_nat (length (unconsumed_byproducts r items)) ≤ 10)).
Proof.
  intros Hsplit Hore Hrecipe Hitems.
  destruct (canAddOutgoingLinks_produced cat h c r items n Hsplit Hore Hrecipe
              Hitems) as (answer & Hanswer & Hiff).
  exists answer. split; [exact Hanswer|]. split; [exact Hiff|].
  intros Hdup Hone. by rewrite <- (released_links_unconsumed r items Hdup Hone).
Qed.

(** The aluminium container of [oxygen_relays] with its two oxygen
    relays: 2 byproducts, 2 released links, 8 more links accepted. *)
Lemma canAddOutgoingLinks_reservations_witness :
  ∃ c,
    containerNodes oxygen_relays !! 0%nat = Some c
    ∧ ContainerNode_isSplit c = false
    ∧ isOre demo_catalog (c_item c) = false
    ∧ findRecipe demo_catalog (c_item c) = Some aluminium_recipe
    ∧ mapM_outcome (UnitRef_item oxygen_relays) (elements (c_consumers c))
      = Ret [oxygen; oxygen]
    ∧ released_links aluminium_recipe [oxygen; oxygen] = 2
    ∧ ContainerNode_canAddOutgoingLinks demo_catalog oxygen_relays c (Num.of_Z 8)
      = Ret true.
Proof.
  eexists. split; [vm_compute; reflexivity|].
  split; [vm_compute; reflexivity|]. split; [vm_compute; reflexivity|].
  split; [vm_compute; reflexivity|]. split; [vm_compute; reflexivity|].
  split; [vm_compute; reflexivity|].
  match goal with
  | |- ContainerNode_canAddOutgoingLinks _ _ ?c _ = _ =>
      destruct (canAddOutgoingLinks_reservations demo_catalog oxygen_relays c
                  aluminium_recipe [oxygen; oxygen] 8)
        as (answer & Hanswer & Hiff & _); [vm_compute; reflexivity..|]
  end.
  rewrite Hanswer. f_equal. apply Hiff. vm_compute. discriminate.
Defined.

(** X16: getTransferContainers returns the transfer containers of the
    graph that hold one of the queried items and lack one of the queried
    items; so it returns none for a query of a single item, and never
    one that holds all the queried items. *)
Theorem getTransferContainers_result (h : Heap) (g : FactoryGraph)
    (items : gset Item) :
  (∀ r, r ∈ transferContainers g → is_Some (transferContainerNodes h !! r)) →
  ∃ found,
    FactoryGraph_getTransferContainers h g items = Ret found
    ∧ (∀ r, r ∈ found ↔
            r ∈ transferContainers g
            ∧ ∃ node, transferContainerNodes h !! r = Some node
                      ∧ (∃ i, i ∈ tc_items node ∧ i ∈ items)
                      ∧ (∃ i, i ∈ items ∧ i ∉ tc_items node))
    ∧ ((∃ i, items = {[ i ]}) → found = ∅)
    ∧ (∀ r node, transferContainerNodes h !! r = Some node →
                 (∀ i, i ∈ items → i ∈ tc_items node) → r ∉ found).
Proof.
  intros Halloc.
  destruct (getTransferContainers_returns h g items Halloc)
    as (found & Hfound & Hiff).
  exists found. split; [exact Hfound|]. split; [exact Hiff|]. split.
  - intros [i ->]. apply set_eq. intros r. split; [|set_solver].
    intros Hr. apply Hiff in Hr as (_ & node & _ & (j & Hj & Hji) & (k & Hk & Hnot)).
    apply elem_of_singleton in Hji, Hk. by subst.
  - intros r node Hnode Hall Hr.
    apply Hiff in Hr as (_ & node' & Hnode' & _ & (k & Hk & Hnot)).
    simplify_eq. by apply Hnot, Hall.
Qed.

(** In [frame_line] the query for aluminium alone finds nothing, although
    transfer container 0 holds aluminium. *)
Lemma getTransferContainers_result_witness :
  (∀ r, r ∈ transferContainers frame_line_graph →
        is_Some (transferContainerNodes frame_line !! r))
  ∧ FactoryGraph_getTransferContainers frame_line frame_line_graph {[ aluminium ]}
    = Ret ∅.
Proof.
  assert (Halloc : ∀ r, r ∈ transferContainers frame_line_graph →
                        is_Some (transferContainerNodes frame_line !! r)).
  { intros r Hr. cbn [transferContainers frame_line_graph] in Hr.
    apply elem_of_singleton in Hr. subst r. vm_compute. eauto. }
  split; [exact Halloc|].
  destruct (getTransferContainers_result frame_line frame_line_graph
              {[ aluminium ]} Halloc) as (found & Hfound & _ & Hsingle & _).
  rewrite Hfound. f_equal. apply Hsingle. by exists aluminium.
Defined.

(** ** Graphs built by the [create] methods *)

Lemma mapM_deref {A} (m : gmap nat A) (refs : list nat) :
  (∀ r, r ∈ refs → is_Some (m !! r)) →
  ∃ nodes, mapM_outcome (deref m) refs = Ret nodes
           ∧ ∀ x, x ∈ nodes ↔ ∃ r, r ∈ refs ∧ m !! r = Some x.
Proof.
  induction refs as [|r refs IH]; intros Hrefs.
  - exists []. split; [done|]. intros x. split; [by intros ?%elem_of_nil|].
    by intros (r & ?%elem_of_nil & _).
  - destruct (Hrefs r) as [node Hr]; [left|].
    destruct IH as (nodes & Hnodes & Hin); [intros r' Hr'; apply Hrefs; by right|].
    exists (node :: nodes). cbn [mapM_outcome].
    rewrite (deref_Some _ _ _ Hr), bind_Ret, Hnodes, bind_Ret.
    split; [done|]. intros x. rewrite elem_of_cons, Hin. split.
    + intros [->|(r' & Hr' & Hx)]; [exists r; split; [left|done]|].
      exists r'. split; [by right|done].
    + intros (r' & [->|Hr']%elem_of_cons & Hx); [left; congruence|].
      right. by exists r'.
Qed.

Lemma getContainers_eq h g i :
  graph_closed h g → FactoryGraph_getContainers h g i = Ret (containers_of h g i).
Proof.
  intros (Hc & _). unfold FactoryGraph_getContainers.
  rewrite filter_nodes_pure, bind_Ret
    by (intros r Hr; apply Hc; by apply elem_of_elements).
  f_equal. apply set_eq. intros r. unfold containers_of.
  rewrite elem_of_list_to_set, list_elem_of_filter, elem_of_filter, elem_of_elements.
  destruct (containerNodes h !! r) as [node|]; simpl; [|naive_solver].
  rewrite bool_decide_eq_true. naive_solver.
Qed.

Lemma getIndustries_eq h g i :
  graph_closed h g → FactoryGraph_getIndustries h g i = Ret (industries_of h g i).
Proof.
  intros (_ & Hc & _). unfold FactoryGraph_getIndustries.
  rewrite filter_nodes_pure, bind_Ret
    by (intros r Hr; apply Hc; by apply elem_of_elements).
  f_equal. apply set_eq. intros r. unfold industries_of.
  rewrite elem_of_list_to_set, list_elem_of_filter, elem_of_filter, elem_of_elements.
  destruct (industryNodes h !! r) as [node|]; simpl; [|naive_solver].
  rewrite bool_decide_eq_true. naive_solver.
Qed.

Lemma getTransferUnits_eq h g i :
  graph_closed h g →
  FactoryGraph_getTransferUnits h g i = Ret (transferUnits_of h g i).
Proof.
  intros (_ & _ & Hc & _). unfold FactoryGraph_getTransferUnits.
  rewrite filter_nodes_pure, bind_Ret
    by (intros r Hr; apply Hc; by apply elem_of_elements).
  f_equal. apply set_eq. intros r. unfold transferUnits_of.
  rewrite elem_of_list_to_set, list_elem_of_filter, elem_of_filter, elem_of_elements.
  destruct (transferNodes h !! r) as [node|]; simpl; [|naive_solver].
  rewrite bool_decide_eq_true. naive_solver.
Qed.

Lemma products_eq h g :
  graph_closed h g →
  ∃ ps, FactoryGraph_products h g = Ret ps
        ∧ ∀ i, i ∈ ps ↔ ∃ r, r ∈ containers_of h g i.
Proof.
  intros (Hc & _). unfold FactoryGraph_products.
  destruct (mapM_deref (containerNodes h) (elements (containers g)))
    as (nodes & -> & Hin).
  { intros r Hr. apply Hc. by apply elem_of_elements. }
  rewrite bind_Ret. eexists. split; [reflexivity|].
  intros i. rewrite elem_of_list_to_set, list_elem_of_fmap. split.
  - intros (node & -> & (r & Hr & Hnode)%Hin). exists r.
    apply elem_of_filter. rewrite Hnode. split; [done|].
    by apply elem_of_elements.
  - intros (r & (Hi & Hr)%elem_of_filter).
    destruct (containerNodes h !! r) as [node|] eqn:Hnode; simplify_eq/=.
    exists node. split; [done|]. apply Hin. exists r.
    split; [by apply elem_of_elements|done].
Qed.

(** the wiring calls keep the names and the items of all nodes *)
Ltac unfold_labels :=
  unfold same_labels, container_label, transferContainer_label, industry_label,
    transfer_label in *.

Lemma same_labels_refl h : same_labels h h.
Proof. by unfold_labels. Qed.

Lemma same_labels_trans h1 h2 h3 :
  same_labels h1 h2 → same_labels h2 h3 → same_labels h1 h3.
Proof.
  intros (?&?&?&?) (?&?&?&?). split_and!; intros r; congruence.
Qed.

Lemma producers_add_labels u b h : same_labels h (producers_add u b h).
Proof.
  unfold_labels. destruct u, b; cbn; split_and!; intros r; try done;
    rewrite lookup_alter; case_decide; subst; try done;
    by destruct (_ !! _).
Qed.

Lemma producers_delete_labels u b h : same_labels h (producers_delete u b h).
Proof.
  unfold_labels. destruct u, b; cbn; split_and!; intros r; try done;
    rewrite lookup_alter; case_decide; subst; try done;
    by destruct (_ !! _).
Qed.

Lemma consumers_add_labels u b h : same_labels h (consumers_add u b h).
Proof.
  unfold_labels. destruct u, b; cbn; split_and!; intros r; try done;
    rewrite lookup_alter; case_decide; subst; try done;
    by destruct (_ !! _).
Qed.

Lemma delete_old_labels h u : same_labels h (delete_old h u).
Proof.
  unfold delete_old. destruct (output_of h u).
  - apply producers_delete_labels.
  - apply same_labels_refl.
Qed.

Lemma takeFrom_labels h u b h' : takeFrom h u b = Some h' → same_labels h h'.
Proof.
  intros Htake.
  destruct u, b; unfold takeFrom in Htake; simplify_eq;
    unfold IndustryNode_takeFrom, TransferNode_takeFrom;
    (eapply same_labels_trans; [|apply consumers_add_labels]);
    unfold_labels; cbn; split_and!; intros r; try done;
    rewrite lookup_alter; case_decide; subst; try done;
    by destruct (_ !! _).
Qed.

Lemma outputTo_labels h u b h' : outputTo h u b = Some h' → same_labels h h'.
Proof.
  intros Hto. destruct u as [i|t].
  - destruct b as [c|c]; [|discriminate]. injection Hto as <-.
    rewrite IndustryNode_outputTo_eq.
    eapply same_labels_trans; [|apply producers_add_labels].
    eapply same_labels_trans; [apply delete_old_labels|].
    unfold_labels; cbn; split_and!; intros r; try done.
    rewrite lookup_alter; case_decide; subst; try done.
    by destruct (_ !! _).
  - injection Hto as <-. rewrite TransferNode_outputTo_eq.
    eapply same_labels_trans; [|apply producers_add_labels].
    eapply same_labels_trans; [apply delete_old_labels|].
    unfold_labels; cbn; split_and!; intros r; try done.
    rewrite lookup_alter; case_decide; subst; try done.
    by destruct (_ !! _).
Qed.

Lemma label_allocated {A B} (f : A → B) (m m' : gmap nat A) r :
  f <$> m' !! r = f <$> m !! r → is_Some (m !! r) → is_Some (m' !! r).
Proof.
  intros Heq [x Hx]. rewrite Hx in Heq. destruct (m' !! r); [eauto|done].
Qed.

Lemma same_labels_closed h h' g :
  same_labels h h' → graph_closed h g → graph_closed h' g.
Proof.
  intros (Hc & Htc & Hi & Ht) (Gc & Gi & Gt & Gtc & Gtmp). unfold_labels.
  split_and!; intros r Hr.
  - eapply label_allocated; [apply Hc|by apply Gc].
  - eapply label_allocated; [apply Hi|by apply Gi].
  - eapply label_allocated; [apply Ht|by apply Gt].
  - eapply label_allocated; [apply Htc|by apply Gtc].
  - eapply label_allocated; [apply Hc|by apply Gtmp].
Qed.

Lemma same_labels_containers_of h h' g i :
  same_labels h h' → containers_of h' g i = containers_of h g i.
Proof.
  intros (Hc & _). unfold_labels. apply set_eq. intros r.
  unfold containers_of. rewrite !elem_of_filter.
  assert (c_item <$> containerNodes h' !! r = c_item <$> containerNodes h !! r)
    as ->; [|done].
  specialize (Hc r).
  destruct (containerNodes h !! r), (containerNodes h' !! r); simplify_eq/=;
    congruence.
Qed.

Lemma same_labels_industries_of h h' g i :
  same_labels h h' → industries_of h' g i = industries_of h g i.
Proof.
  intros (_ & _ & Hc & _). unfold_labels. apply set_eq. intros r.
  unfold industries_of. rewrite !elem_of_filter.
  assert (IndustryNode_item <$> industryNodes h' !! r
          = IndustryNode_item <$> industryNodes h !! r) as ->; [|done].
  specialize (Hc r).
  destruct (industryNodes h !! r), (industryNodes h' !! r); simplify_eq/=;
    try done. unfold IndustryNode_item. congruence.
Qed.

Lemma same_labels_transferUnits_of h h' g i :
  same_labels h h' → transferUnits_of h' g i = transferUnits_of h g i.
Proof.
  intros (_ & _ & _ & Hc). unfold_labels. apply set_eq. intros r.
  unfold transferUnits_of. rewrite !elem_of_filter.
  assert (t_item <$> transferNodes h' !! r = t_item <$> transferNodes h !! r)
    as ->; [|done].
  specialize (Hc r).
  destruct (transferNodes h !! r), (transferNodes h' !! r); simplify_eq/=;
    congruence.
Qed.

Lemma insert_allocated {A} (m : gmap nat A) r r' x :
  is_Some (m !! r) → is_Some (<[r':=x]> m !! r).
Proof. intros Hr. apply lookup_insert_is_Some'. by right. Qed.

Lemma insert_fresh_allocated {A} (m : gmap nat A) r x :
  is_Some (<[r:=x]> m !! r).
Proof. apply lookup_insert_is_Some'. by left. Qed.

Lemma graph_closed_perform cat op h g h' g' :
  graph_perform cat op (h, g) = Some (h', g') →
  graph_closed h g → graph_closed h' g'.
Proof.
  intros Hop Hclosed. pose proof Hclosed as (Gc & Gi & Gt & Gtc & Gtmp).
  destruct op; cbn [graph_perform] in Hop.
  - unfold FactoryGraph_createIndustry in Hop.
    rewrite getIndustries_eq, bind_Ret in Hop by done.
    destruct (IndustryNode_new cat _ i) as [node| |]; try discriminate.
    rewrite bind_Ret in Hop. cbn in Hop. simplify_eq.
    split_and!; cbn; intros r Hr; auto.
    apply elem_of_union in Hr as [Hr| ->%elem_of_singleton].
    + by apply insert_allocated, Gi.
    + apply insert_fresh_allocated.
  - unfold FactoryGraph_createTransferUnit in Hop.
    rewrite getTransferUnits_eq, bind_Ret in Hop by done.
    cbn in Hop. simplify_eq.
    split_and!; cbn; intros r Hr; auto.
    apply elem_of_union in Hr as [Hr| ->%elem_of_singleton].
    + by apply insert_allocated, Gt.
    + apply insert_fresh_allocated.
  - cbn in Hop. simplify_eq.
    split_and!; cbn; intros r Hr; auto.
    + by apply insert_allocated, Gc.
    + apply elem_of_union in Hr as [Hr| ->%elem_of_singleton].
      * by apply insert_allocated, Gtmp.
      * apply insert_fresh_allocated.
  - unfold FactoryGraph_createContainer in Hop.
    rewrite getContainers_eq, bind_Ret in Hop by done.
    cbn in Hop. simplify_eq.
    split_and!; cbn; intros r Hr; auto.
    + apply elem_of_union in Hr as [Hr| ->%elem_of_singleton].
      * by apply insert_allocated, Gc.
      * apply insert_fresh_allocated.
    + by apply insert_allocated, Gtmp.
  - unfold FactoryGraph_createSplitContainer in Hop.
    rewrite getContainers_eq, bind_Ret in Hop by done.
    cbn in Hop. simplify_eq.
    split_and!; cbn; intros r Hr; auto.
    + apply elem_of_union in Hr as [Hr| ->%elem_of_singleton].
      * by apply insert_allocated, Gc.
      * apply insert_fresh_allocated.
    + by apply insert_allocated, Gtmp.
  - cbn in Hop. simplify_eq.
    split_and!; cbn; intros r Hr; auto.
    apply elem_of_union in Hr as [Hr| ->%elem_of_singleton].
    + by apply insert_allocated, Gtc.
    + apply insert_fresh_allocated.
  - unfold FactoryGraph_createOutput in Hop.
    rewrite getContainers_eq, bind_Ret in Hop by done.
    cbn in Hop. simplify_eq.
    split_and!; cbn; intros r Hr; auto.
    + apply elem_of_union in Hr as [Hr| ->%elem_of_singleton].
      * by apply insert_allocated, Gc.
      * apply insert_fresh_allocated.
    + by apply insert_allocated, Gtmp.
  - destruct (perform cat (TakeFrom u b) h) as [h1|] eqn:Hperform;
      [|discriminate]. cbn in Hop. simplify_eq.
    cbn in Hperform.
    destruct (unit_allocated h u && buffer_allocated h b); [|discriminate].
    eapply same_labels_closed; [|exact Hclosed].
    by eapply takeFrom_labels.
  - destruct (perform cat (OutputTo u b) h) as [h1|] eqn:Hperform;
      [|discriminate]. cbn in Hop. simplify_eq.
    cbn in Hperform.
    destruct (unit_allocated h u && buffer_allocated h b); [|discriminate].
    eapply same_labels_closed; [|exact Hclosed].
    by eapply outputTo_labels.
Qed.

Lemma graph_closed_empty : graph_closed empty_heap empty_graph.
Proof. split_and!; intros r Hr; cbn in Hr; set_solver. Qed.

Lemma graph_closed_run cat ops : ∀ s h' g',
  graph_run cat ops s = Some (h', g') →
  graph_closed s.1 s.2 → graph_closed h' g'.
Proof.
  induction ops as [|op ops IH]; intros [h g] h' g' Hrun Hclosed;
    cbn [graph_run] in Hrun.
  - by simplify_eq.
  - destruct (graph_perform cat op (h, g)) as [[h1 g1]|] eqn:Hop; [|discriminate].
    cbn in Hrun. eapply IH; [exact Hrun|].
    eapply graph_closed_perform; eauto.
Qed.

Lemma graph_closed_reachable cat ops h g :
  graph_run cat ops (empty_heap, empty_graph) = Some (h, g) → graph_closed h g.
Proof.
  intros Hrun. eapply graph_closed_run; [exact Hrun|]. apply graph_closed_empty.
Qed.

(** the three methods that add to [this.containers] *)
Lemma create_container_step cat op i h g :
  graph_closed h g → container_item op = Some i →
  ∃ node r,
    graph_perform cat op (h, g)
    = Some (with_containerNodes (insert r node) h, FactoryGraph_add_container g r)
    ∧ containerNodes h !! r = None
    ∧ c_item node = i
    ∧ c_name node = container_name cat i (size (containers_of h g i)).
Proof.
  intros Hclosed Hop.
  destruct op; simplify_eq/=.
  - unfold FactoryGraph_createContainer.
    rewrite getContainers_eq, bind_Ret by done. cbn.
    eexists _, _. split; [reflexivity|]. split; [apply fresh_lookup|done].
  - unfold FactoryGraph_createSplitContainer.
    rewrite getContainers_eq, bind_Ret by done. cbn.
    eexists _, _. split; [reflexivity|]. split; [apply fresh_lookup|done].
  - unfold FactoryGraph_createOutput.
    rewrite getContainers_eq, bind_Ret by done. cbn.
    eexists _, _. split; [reflexivity|]. split; [apply fresh_lookup|done].
Qed.

Lemma fresh_not_member {A} (m : gmap nat A) (s : gset nat) r :
  (∀ r', r' ∈ s → is_Some (m !! r')) → m !! r = None → r ∉ s.
Proof.
  intros Hs Hr Hin. destruct (Hs r Hin) as [x Hx]. congruence.
Qed.

Lemma containers_of_insert h g r node j :
  graph_closed h g → containerNodes h !! r = None →
  containers_of (with_containerNodes (insert r node) h)
    (FactoryGraph_add_container g r) j
  = if decide (c_item node = j) then containers_of h g j ∪ {[r]}
    else containers_of h g j.
Proof.
  intros (Gc & _) Hr. apply set_eq. intros r'.
  pose proof (fresh_not_member _ _ _ Gc Hr) as Hfresh.
  unfold containers_of. cbn.
  destruct (decide (c_item node = j)) as [Hj|Hj].
  - rewrite elem_of_union, !elem_of_filter, elem_of_union, elem_of_singleton.
    destruct (decide (r' = r)) as [->|Hne].
    + rewrite lookup_insert_eq. cbn. rewrite Hj. tauto.
    + rewrite lookup_insert_ne by done. tauto.
  - rewrite !elem_of_filter, elem_of_union, elem_of_singleton.
    destruct (decide (r' = r)) as [->|Hne].
    + rewrite lookup_insert_eq, Hr. cbn. split; [|by intros []].
      intros [[= ?] _]. done.
    + rewrite lookup_insert_ne by done. tauto.
Qed.

Lemma containers_of_subseteq h g i : containers_of h g i ⊆ containers g.
Proof. intros r Hr. by apply elem_of_filter in Hr as [_ Hr]. Qed.

(** X17: on a graph built by [create] and wiring calls, [createContainer],
    [createSplitContainer] and [createOutput] return; they add one new
    object to [containers], which [getContainers] of its item then returns
    beside the former ones, under a name that ends in their count;
    [getContainers] of the other items is as before, and [products] gains
    the item. *)
Theorem create_container_registers (cat : Catalog) (ops : list graph_operation)
    (h : Heap) (g : FactoryGraph) (op : graph_operation) (i : Item) :
  graph_run cat ops (empty_heap, empty_graph) = Some (h, g) →
  container_item op = Some i →
  ∃ h' g' r old ps,
    graph_perform cat op (h, g) = Some (h', g')
    ∧ containerNodes h !! r = None
    ∧ containers g' = containers g ∪ {[r]}
    ∧ FactoryGraph_getContainers h g i = Ret old
    ∧ (r ∉ old)
    ∧ FactoryGraph_getContainers h' g' i = Ret (old ∪ {[r]})
    ∧ container_label h' r
      = Some (container_name cat i (size old), i)
    ∧ (∀ j, j ≠ i →
         FactoryGraph_getContainers h' g' j = FactoryGraph_getContainers h g j)
    ∧ FactoryGraph_products h g = Ret ps
    ∧ FactoryGraph_products h' g' = Ret (ps ∪ {[i]}).
Proof.
  intros Hrun Hop. apply graph_closed_reachable in Hrun as Hclosed.
  destruct (create_container_step cat op i h g Hclosed Hop)
    as (node & r & Hstep & Hr & Hitem & Hname).
  pose proof (graph_closed_perform _ _ _ _ _ _ Hstep Hclosed) as Hclosed'.
  destruct (products_eq h g Hclosed) as (ps & Hps & Hin).
  destruct (products_eq _ _ Hclosed') as (ps' & Hps' & Hin').
  assert (Hfresh : r ∉ containers g).
  { destruct Hclosed as (Gc & _). by eapply fresh_not_member. }
  eexists _, _, r, (containers_of h g i), ps.
  split; [exact Hstep|]. split; [exact Hr|]. split; [done|].
  split; [by apply getContainers_eq|].
  split; [intros Hold; by apply Hfresh, (containers_of_subseteq h g i)|].
  split.
  { rewrite getContainers_eq, containers_of_insert by done.
    by rewrite decide_True. }
  split.
  { unfold container_label. cbn. rewrite lookup_insert_eq. cbn.
    by rewrite Hname, Hitem. }
  split.
  { intros j Hj. rewrite !getContainers_eq, containers_of_insert by done.
    rewrite decide_False; [done|congruence]. }
  split; [exact Hps|]. rewrite Hps'. f_equal. apply set_eq. intros j.
  rewrite elem_of_union, elem_of_singleton, Hin', Hin.
  setoid_rewrite containers_of_insert; [|done..].
  destruct (decide (c_item node = j)) as [Hj|Hj].
  - split; [intros _; right; congruence|]. intros _. exists r.
    apply elem_of_union. right. by apply elem_of_singleton.
  - split; [by left|]. intros [Hex|Heq]; [done|]. congruence.
Qed.

(** A third aluminium container of [built_graph] is numbered after the
    two that are there. *)
Lemma create_container_registers_witness :
  ∃ h' g' r,
    graph_perform demo_catalog (CreateContainer aluminium)
      (built_graph.1, built_graph.2) = Some (h', g')
    ∧ container_label h' r = Some ("Pure Aluminium C2", aluminium).
Proof.
  destruct (create_container_registers demo_catalog built_graph_ops
              built_graph.1 built_graph.2 (CreateContainer aluminium) aluminium)
    as (h' & g' & r & old & ps & Hop & _ & _ & Hold & _ & _ & Hlabel & _);
    [vm_compute; reflexivity | reflexivity |].
  exists h', g', r. split; [exact Hop|]. rewrite Hlabel.
  vm_compute in Hold. injection Hold as <-. vm_compute. reflexivity.
Defined.

(** ** Names given by the [create] methods *)

Lemma numbered_name_inj (s t : string) (k1 k2 : nat) :
  s +:+ t +:+ pretty k1 = s +:+ t +:+ pretty k2 → k1 = k2.
Proof.
  intros Heq. apply (inj (String.app s)), (inj (String.app t)) in Heq.
  by apply (inj pretty) in Heq.
Qed.

Section Numbering.
Context {K : Type}.
Context (label : Heap → nat → option (string * K)).
Context (members : FactoryGraph → gset nat).
Context (family : Heap → FactoryGraph → K → gset nat).
Context (name_of : K → nat → string).
Hypothesis name_of_inj : ∀ i k1 k2, name_of i k1 = name_of i k2 → k1 = k2.
Hypothesis family_spec : ∀ h g i r,
  r ∈ family h g i ↔ r ∈ members g ∧ ∃ name, label h r = Some (name, i).

Lemma family_grows h g h' g' i :
  members g ⊆ members g' →
  (∀ r, r ∈ members g → label h' r = label h r) →
  family h g i ⊆ family h' g' i.
Proof.
  intros Hsub Hlabel r. rewrite !family_spec. intros (Hr & name & Hname).
  split; [by apply Hsub|]. exists name. by rewrite Hlabel.
Qed.

Lemma named_keep h g h' g' :
  members g' = members g →
  (∀ r, r ∈ members g → label h' r = label h r) →
  numbered label members family name_of h g ∧ distinctly_named label members h g →
  numbered label members family name_of h' g' ∧ distinctly_named label members h' g'.
Proof.
  intros Hmembers Hlabel [Hnum Hdist]. split.
  - intros r name i Hr Hname. rewrite Hmembers in Hr.
    rewrite Hlabel in Hname by done.
    destruct (Hnum r name i Hr Hname) as (k & Hk & ->).
    exists k. split; [|done].
    eapply Nat.lt_le_trans; [exact Hk|]. apply subseteq_size.
    apply family_grows; [by rewrite Hmembers|done].
  - intros r1 r2 l Hr1 Hr2 Hl1 Hl2. rewrite Hmembers in Hr1, Hr2.
    rewrite Hlabel in Hl1, Hl2 by done. by apply (Hdist r1 r2 l).
Qed.

Lemma named_add h g h' g' r i :
  r ∉ members g →
  members g' = members g ∪ {[r]} →
  (∀ r', r' ∈ members g → label h' r' = label h r') →
  label h' r = Some (name_of i (size (family h g i)), i) →
  numbered label members family name_of h g ∧ distinctly_named label members h g →
  numbered label members family name_of h' g' ∧ distinctly_named label members h' g'.
Proof.
  intros Hfresh Hmembers Hlabel Hnew [Hnum Hdist].
  assert (Hsub : members g ⊆ members g') by (rewrite Hmembers; set_solver).
  assert (Hsize : (size (family h g i) < size (family h' g' i))%nat).
  { apply subset_size. split; [by apply family_grows|].
    intros Hall. assert (Hr : r ∈ family h g i).
    { apply Hall, family_spec. split; [rewrite Hmembers; set_solver|eauto]. }
    apply family_spec in Hr as [Hr _]. done. }
  assert (Hold : ∀ r' name, r' ∈ members g →
            label h r' = Some (name, i) →
            name ≠ name_of i (size (family h g i))).
  { intros r' name Hr' Hname Heq.
    destruct (Hnum r' name i Hr' Hname) as (k & Hk & ->).
    apply name_of_inj in Heq. lia. }
  split.
  - intros r' name j Hr' Hname. rewrite Hmembers in Hr'.
    apply elem_of_union in Hr' as [Hr'| ->%elem_of_singleton].
    + rewrite Hlabel in Hname by done.
      destruct (Hnum r' name j Hr' Hname) as (k & Hk & ->).
      exists k. split; [|done].
      eapply Nat.lt_le_trans; [exact Hk|]. apply subseteq_size.
      by apply family_grows.
    + rewrite Hnew in Hname. simplify_eq. eauto.
  - intros r1 r2 l Hr1 Hr2 Hl1 Hl2. rewrite Hmembers in Hr1, Hr2.
    apply elem_of_union in Hr1 as [Hr1| ->%elem_of_singleton];
      apply elem_of_union in Hr2 as [Hr2| ->%elem_of_singleton]; [| | |done].
    + rewrite Hlabel in Hl1, Hl2 by done. by apply (Hdist r1 r2 l).
    + rewrite Hlabel in Hl1 by done. rewrite Hnew in Hl2. simplify_eq.
      by destruct (Hold r1 _ Hr1 Hl1).
    + rewrite Hlabel in Hl2 by done. rewrite Hnew in Hl1. simplify_eq.
      by destruct (Hold r2 _ Hr2 Hl2).
Qed.

End Numbering.

(** the store and the graph after each call that returns *)
Lemma graph_perform_inv cat op h g h' g' :
  graph_closed h g → graph_perform cat op (h, g) = Some (h', g') →
  match op with
  | CreateIndustry i =>
      ∃ recipe r, findRecipe cat i = Some recipe
        ∧ industryNodes h !! r = None
        ∧ h' = with_industryNodes
                 (insert r {| i_name := industry_name cat i (size (industries_of h g i));
                              i_recipe := recipe; i_inputs := ∅;
                              i_output := None |}) h
        ∧ g' = {| containers := containers g;
                  industries := industries g ∪ {[r]};
                  transferUnits := transferUnits g;
                  transferContainers := transferContainers g;
                  temporaryContainers := temporaryContainers g |}
  | CreateTransferUnit i =>
      ∃ r, transferNodes h !! r = None
        ∧ h' = with_transferNodes
                 (insert r (TransferNode_new
                              (transferUnit_name cat i (size (transferUnits_of h g i)))
                              i)) h
        ∧ g' = {| containers := containers g;
                  industries := industries g;
                  transferUnits := transferUnits g ∪ {[r]};
                  transferContainers := transferContainers g;
                  temporaryContainers := temporaryContainers g |}
  | CreateTemporaryContainer i =>
      ∃ r, containerNodes h !! r = None
        ∧ h' = with_containerNodes (insert r (ContainerNode_new "" i Num.one)) h
        ∧ g' = {| containers := containers g;
                  industries := industries g;
                  transferUnits := transferUnits g;
                  transferContainers := transferContainers g;
                  temporaryContainers := temporaryContainers g ∪ {[r]} |}
  | CreateTransferContainer items =>
      ∃ r, transferContainerNodes h !! r = None
        ∧ h' = with_transferContainerNodes
                 (insert r (TransferContainerNode_new
                              (transferContainer_name () (size (transferContainers g)))
                              items)) h
        ∧ g' = {| containers := containers g;
                  industries := industries g;
                  transferUnits := transferUnits g;
                  transferContainers := transferContainers g ∪ {[r]};
                  temporaryContainers := temporaryContainers g |}
  | CallTakeFrom u b => g' = g ∧ takeFrom h u b = Some h'
  | CallOutputTo u b => g' = g ∧ outputTo h u b = Some h'
  | _ =>
      ∃ i node r, container_item op = Some i
        ∧ containerNodes h !! r = None
        ∧ c_item node = i
        ∧ c_name node = container_name cat i (size (containers_of h g i))
        ∧ h' = with_containerNodes (insert r node) h
        ∧ g' = FactoryGraph_add_container g r
  end.
Proof.
  intros Hclosed Hop.
  destruct op as [i|i|i|i|i split|items|i rate maintained|u b|u b].
  - cbn [graph_perform] in Hop. unfold FactoryGraph_createIndustry in Hop.
    rewrite getIndustries_eq, bind_Ret in Hop by done.
    unfold IndustryNode_new, findRecipe_or_throw in Hop.
    destruct (findRecipe cat i) as [recipe|]; [|discriminate].
    cbn in Hop. simplify_eq. eexists _, _.
    split; [done|]. split; [apply fresh_lookup|done].
  - cbn [graph_perform] in Hop. unfold FactoryGraph_createTransferUnit in Hop.
    rewrite getTransferUnits_eq, bind_Ret in Hop by done.
    cbn in Hop. simplify_eq. eexists. split; [apply fresh_lookup|done].
  - cbn in Hop. simplify_eq. eexists. split; [apply fresh_lookup|done].
  - destruct (create_container_step cat (CreateContainer i) i h g)
      as (node & r & Hstep & Hr & Hitem & Hname); [done..|].
    rewrite Hstep in Hop. simplify_eq. by eexists _, _, _.
  - destruct (create_container_step cat (CreateSplitContainer i split) i h g)
      as (node & r & Hstep & Hr & Hitem & Hname); [done..|].
    rewrite Hstep in Hop. simplify_eq. by eexists _, _, _.
  - cbn in Hop. simplify_eq. eexists. split; [apply fresh_lookup|done].
  - destruct (create_container_step cat (CreateOutput i rate maintained) i h g)
      as (node & r & Hstep & Hr & Hitem & Hname); [done..|].
    rewrite Hstep in Hop. simplify_eq. by eexists _, _, _.
  - cbn [graph_perform] in Hop.
    destruct (perform cat (TakeFrom u b) h) as [h1|] eqn:Hperform;
      [|discriminate]. cbn in Hop. simplify_eq. cbn in Hperform.
    by destruct (unit_allocated h u && buffer_allocated h b).
  - cbn [graph_perform] in Hop.
    destruct (perform cat (OutputTo u b) h) as [h1|] eqn:Hperform;
      [|discriminate]. cbn in Hop. simplify_eq. cbn in Hperform.
    by destruct (unit_allocated h u && buffer_allocated h b).
Qed.

(** no call changes the name or the item of a node of the store *)
Lemma insert_label {A B} (f : A → B) (m : gmap nat A) r node r' :
  m !! r = None → is_Some (m !! r') →
  f <$> <[r:=node]> m !! r' = f <$> m !! r'.
Proof.
  intros Hr [x Hx]. rewrite lookup_insert_ne; [done|]. congruence.
Qed.

Lemma graph_perform_labels cat op h g h' g' :
  graph_closed h g → graph_perform cat op (h, g) = Some (h', g') →
  (∀ r, is_Some (containerNodes h !! r) →
        container_label h' r = container_label h r)
  ∧ (∀ r, is_Some (transferContainerNodes h !! r) →
          transferContainer_label h' r = transferContainer_label h r)
  ∧ (∀ r, is_Some (industryNodes h !! r) →
          industry_label h' r = industry_label h r)
  ∧ (∀ r, is_Some (transferNodes h !! r) →
          transfer_label h' r = transfer_label h r).
Proof.
  intros Hclosed Hop.
  pose proof (graph_perform_inv _ _ _ _ _ _ Hclosed Hop) as Hinv.
  assert (Hsame : same_labels h h' →
    (∀ r, is_Some (containerNodes h !! r) →
          container_label h' r = container_label h r)
    ∧ (∀ r, is_Some (transferContainerNodes h !! r) →
            transferContainer_label h' r = transferContainer_label h r)
    ∧ (∀ r, is_Some (industryNodes h !! r) →
            industry_label h' r = industry_label h r)
    ∧ (∀ r, is_Some (transferNodes h !! r) →
            transfer_label h' r = transfer_label h r)).
  { intros (?&?&?&?). split_and!; auto. }
  destruct op; cbn beta iota in Hinv.
  - destruct Hinv as (recipe & r & _ & Hr & -> & _).
    unfold_labels. split_and!; intros r' Hr'; try done.
    cbn. by apply insert_label.
  - destruct Hinv as (r & Hr & -> & _).
    unfold_labels. split_and!; intros r' Hr'; try done.
    cbn. by apply insert_label.
  - destruct Hinv as (r & Hr & -> & _).
    unfold_labels. split_and!; intros r' Hr'; try done.
    cbn. by apply insert_label.
  - destruct Hinv as (j & node & r & _ & Hr & _ & _ & -> & _).
    unfold_labels. split_and!; intros r' Hr'; try done.
    cbn. by apply insert_label.
  - destruct Hinv as (j & node & r & _ & Hr & _ & _ & -> & _).
    unfold_labels. split_and!; intros r' Hr'; try done.
    cbn. by apply insert_label.
  - destruct Hinv as (r & Hr & -> & _).
    unfold_labels. split_and!; intros r' Hr'; try done.
    cbn. by apply insert_label.
  - destruct Hinv as (j & node & r & _ & Hr & _ & _ & -> & _).
    unfold_labels. split_and!; intros r' Hr'; try done.
    cbn. by apply insert_label.
  - destruct Hinv as [_ Htake]. by eapply Hsame, takeFrom_labels.
  - destruct Hinv as [_ Hto]. by eapply Hsame, outputTo_labels.
Qed.

Lemma containers_of_spec h g i r :
  r ∈ containers_of h g i
  ↔ r ∈ containers g ∧ ∃ name, container_label h r = Some (name, i).
Proof.
  unfold containers_of, container_label. rewrite elem_of_filter.
  destruct (containerNodes h !! r) as [node|]; cbn; [|naive_solver].
  split.
  - intros [[= <-] Hr]. eauto.
  - intros [Hr [name [= _ <-]]]. done.
Qed.

Lemma industries_of_spec h g i r :
  r ∈ industries_of h g i
  ↔ r ∈ industries g ∧ ∃ name, industry_product_label h r = Some (name, i).
Proof.
  unfold industries_of, industry_product_label. rewrite elem_of_filter.
  destruct (industryNodes h !! r) as [node|]; cbn; [|naive_solver].
  split.
  - intros [[= <-] Hr]. eauto.
  - intros [Hr [name [= _ <-]]]. done.
Qed.

Lemma transferUnits_of_spec h g i r :
  r ∈ transferUnits_of h g i
  ↔ r ∈ transferUnits g ∧ ∃ name, transfer_label h r = Some (name, i).
Proof.
  unfold transferUnits_of, transfer_label. rewrite elem_of_filter.
  destruct (transferNodes h !! r) as [node|]; cbn; [|naive_solver].
  split.
  - intros [[= <-] Hr]. eauto.
  - intros [Hr [name [= _ <-]]]. done.
Qed.

Lemma transferContainers_all_spec h g (i : unit) r :
  r ∈ transferContainers_all h g i
  ↔ r ∈ transferContainers g
    ∧ ∃ name, transferContainer_name_label h r = Some (name, i).
Proof.
  unfold transferContainers_all, transferContainer_name_label.
  rewrite elem_of_filter. destruct i.
  destruct (transferContainerNodes h !! r) as [node|]; cbn.
  - split; [intros [_ Hr]; eauto|]. intros [Hr _]. eauto.
  - split; [by intros [[? ?] _]|]. by intros [_ [? ?]].
Qed.

Lemma transferContainers_all_closed h g i :
  graph_closed h g → transferContainers_all h g i = transferContainers g.
Proof.
  intros (_ & _ & _ & Gtc & _). apply set_eq. intros r.
  unfold transferContainers_all. rewrite elem_of_filter.
  split; [by intros []|]. intros Hr. split; [by apply Gtc|done].
Qed.

Lemma industry_product_label_eq h r :
  industry_product_label h r
  = (λ l, (l.1, item (product l.2))) <$> industry_label h r.
Proof.
  unfold industry_product_label, industry_label.
  by destruct (industryNodes h !! r).
Qed.

Lemma transferContainer_name_label_eq h r :
  transferContainer_name_label h r
  = (λ l, (l.1, ())) <$> transferContainer_label h r.
Proof.
  unfold transferContainer_name_label, transferContainer_label.
  by destruct (transferContainerNodes h !! r).
Qed.

Lemma containers_named_perform cat op h g h' g' :
  graph_closed h g → graph_perform cat op (h, g) = Some (h', g') →
  containers_named cat h g → containers_named cat h' g'.
Proof.
  intros Hclosed Hop.
  pose proof (graph_perform_inv _ _ _ _ _ _ Hclosed Hop) as Hinv.
  destruct (graph_perform_labels _ _ _ _ _ _ Hclosed Hop) as (Hlabel & _).
  pose proof Hclosed as (Gc & _).
  assert (Hkeep : containers g' = containers g →
                  containers_named cat h g → containers_named cat h' g').
  { intros Hmembers.
    apply (named_keep container_label containers containers_of
             (container_name cat) containers_of_spec); [done|].
    intros r Hr. by apply Hlabel, Gc. }
  assert (Hadd : (∃ i node r, container_item op = Some i
        ∧ containerNodes h !! r = None
        ∧ c_item node = i
        ∧ c_name node = container_name cat i (size (containers_of h g i))
        ∧ h' = with_containerNodes (insert r node) h
        ∧ g' = FactoryGraph_add_container g r) →
      containers_named cat h g → containers_named cat h' g').
  { intros (i & node & r & _ & Hr & Hitem & Hname & -> & ->).
    apply (named_add container_label containers containers_of
             (container_name cat) (λ _ _ _, numbered_name_inj _ _ _ _)
             containers_of_spec) with (r := r) (i := i).
    - by eapply fresh_not_member.
    - done.
    - intros r' Hr'. by apply Hlabel, Gc.
    - unfold container_label. cbn. rewrite lookup_insert_eq. cbn.
      by rewrite Hname, Hitem. }
  destruct op; cbn beta iota in Hinv; try (by apply Hadd).
  - destruct Hinv as (recipe & r & _ & _ & _ & ->). by apply Hkeep.
  - destruct Hinv as (r & _ & _ & ->). by apply Hkeep.
  - destruct Hinv as (r & _ & _ & ->). by apply Hkeep.
  - destruct Hinv as (r & _ & _ & ->). by apply Hkeep.
  - destruct Hinv as [-> _]. by apply Hkeep.
  - destruct Hinv as [-> _]. by apply Hkeep.
Qed.

Lemma industries_named_perform cat op h g h' g' :
  catalog_coherent cat →
  graph_closed h g → graph_perform cat op (h, g) = Some (h', g') →
  industries_named cat h g → industries_named cat h' g'.
Proof.
  intros Hcat Hclosed Hop.
  pose proof (graph_perform_inv _ _ _ _ _ _ Hclosed Hop) as Hinv.
  destruct (graph_perform_labels _ _ _ _ _ _ Hclosed Hop) as (_ & _ & Hlabel & _).
  pose proof Hclosed as (_ & Gi & _).
  assert (Hlabel' : ∀ r, r ∈ industries g →
            industry_product_label h' r = industry_product_label h r).
  { intros r Hr. rewrite !industry_product_label_eq. f_equal. by apply Hlabel, Gi. }
  assert (Hkeep : industries g' = industries g →
                  industries_named cat h g → industries_named cat h' g').
  { intros Hmembers.
    by apply (named_keep industry_product_label industries industries_of
                (industry_name cat) industries_of_spec). }
  destruct op; cbn beta iota in Hinv.
  - destruct Hinv as (recipe & r & Hrecipe & Hr & -> & ->).
    apply (named_add industry_product_label industries industries_of
             (industry_name cat) (λ _ _ _, numbered_name_inj _ _ _ _)
             industries_of_spec) with (r := r) (i := i).
    + by eapply fresh_not_member.
    + done.
    + done.
    + unfold industry_product_label. cbn. rewrite lookup_insert_eq. cbn.
      unfold IndustryNode_item. cbn. by rewrite (Hcat i recipe Hrecipe).
  - destruct Hinv as (r & _ & _ & ->). by apply Hkeep.
  - destruct Hinv as (r & _ & _ & ->). by apply Hkeep.
  - destruct Hinv as (j & node & r & _ & _ & _ & _ & _ & ->). by apply Hkeep.
  - destruct Hinv as (j & node & r & _ & _ & _ & _ & _ & ->). by apply Hkeep.
  - destruct Hinv as (r & _ & _ & ->). by apply Hkeep.
  - destruct Hinv as (j & node & r & _ & _ & _ & _ & _ & ->). by apply Hkeep.
  - destruct Hinv as [-> _]. by apply Hkeep.
  - destruct Hinv as [-> _]. by apply Hkeep.
Qed.

Lemma transferUnits_named_perform cat op h g h' g' :
  graph_closed h g → graph_perform cat op (h, g) = Some (h', g') →
  transferUnits_named cat h g → transferUnits_named cat h' g'.
Proof.
  intros Hclosed Hop.
  pose proof (graph_perform_inv _ _ _ _ _ _ Hclosed Hop) as Hinv.
  destruct (graph_perform_labels _ _ _ _ _ _ Hclosed Hop) as (_ & _ & _ & Hlabel).
  pose proof Hclosed as (_ & _ & Gt & _).
  assert (Hlabel' : ∀ r, r ∈ transferUnits g →
            transfer_label h' r = transfer_label h r).
  { intros r Hr. by apply Hlabel, Gt. }
  assert (Hkeep : transferUnits g' = transferUnits g →
                  transferUnits_named cat h g → transferUnits_named cat h' g').
  { intros Hmembers.
    by apply (named_keep transfer_label transferUnits transferUnits_of
                (transferUnit_name cat) transferUnits_of_spec). }
  destruct op; cbn beta iota in Hinv.
  - destruct Hinv as (recipe & r & _ & _ & _ & ->). by apply Hkeep.
  - destruct Hinv as (r & Hr & -> & ->).
    apply (named_add transfer_label transferUnits transferUnits_of
             (transferUnit_name cat) (λ _ _ _, numbered_name_inj _ _ _ _)
             transferUnits_of_spec) with (r := r) (i := i).
    + by eapply fresh_not_member.
    + done.
    + done.
    + unfold transfer_label. cbn. by rewrite lookup_insert_eq.
  - destruct Hinv as (r & _ & _ & ->). by apply Hkeep.
  - destruct Hinv as (j & node & r & _ & _ & _ & _ & _ & ->). by apply Hkeep.
  - destruct Hinv as (j & node & r & _ & _ & _ & _ & _ & ->). by apply Hkeep.
  - destruct Hinv as (r & _ & _ & ->). by apply Hkeep.
  - destruct Hinv as (j & node & r & _ & _ & _ & _ & _ & ->). by apply Hkeep.
  - destruct Hinv as [-> _]. by apply Hkeep.
  - destruct Hinv as [-> _]. by apply Hkeep.
Qed.

Lemma transferContainers_named_perform cat op h g h' g' :
  graph_closed h g → graph_perform cat op (h, g) = Some (h', g') →
  transferContainers_named h g → transferContainers_named h' g'.
Proof.
  intros Hclosed Hop.
  pose proof (graph_perform_inv _ _ _ _ _ _ Hclosed Hop) as Hinv.
  destruct (graph_perform_labels _ _ _ _ _ _ Hclosed Hop) as (_ & Hlabel & _).
  pose proof Hclosed as (_ & _ & _ & Gtc & _).
  assert (Hlabel' : ∀ r, r ∈ transferContainers g →
            transferContainer_name_label h' r = transferContainer_name_label h r).
  { intros r Hr. rewrite !transferContainer_name_label_eq. f_equal.
    by apply Hlabel, Gtc. }
  assert (Hkeep : transferContainers g' = transferContainers g →
                  transferContainers_named h g → transferContainers_named h' g').
  { intros Hmembers.
    by apply (named_keep transferContainer_name_label transferContainers
                transferContainers_all transferContainer_name
                transferContainers_all_spec). }
  destruct op; cbn beta iota in Hinv.
  - destruct Hinv as (recipe & r & _ & _ & _ & ->). by apply Hkeep.
  - destruct Hinv as (r & _ & _ & ->). by apply Hkeep.
  - destruct Hinv as (r & _ & _ & ->). by apply Hkeep.
  - destruct Hinv as (j & node & r & _ & _ & _ & _ & _ & ->). by apply Hkeep.
  - destruct Hinv as (j & node & r & _ & _ & _ & _ & _ & ->). by apply Hkeep.
  - destruct Hinv as (r & Hr & -> & ->).
    apply (named_add transferContainer_name_label transferContainers
             transferContainers_all transferContainer_name
             (λ _ _ _, numbered_name_inj "" _ _ _) transferContainers_all_spec)
      with (r := r) (i := ()).
    + by eapply fresh_not_member.
    + done.
    + done.
    + unfold transferContainer_name_label. cbn. rewrite lookup_insert_eq. cbn.
      by rewrite transferContainers_all_closed.
  - destruct Hinv as (j & node & r & _ & _ & _ & _ & _ & ->). by apply Hkeep.
  - destruct Hinv as [-> _]. by apply Hkeep.
  - destruct Hinv as [-> _]. by apply Hkeep.
Qed.

Lemma recipes_resolve_graph_perform cat op h g h' g' :
  catalog_coherent cat →
  graph_closed h g → graph_perform cat op (h, g) = Some (h', g') →
  recipes_resolve cat h → recipes_resolve cat h'.
Proof.
  intros Hcat Hclosed Hop Hres.
  pose proof (graph_perform_inv _ _ _ _ _ _ Hclosed Hop) as Hinv.
  rewrite recipes_resolve_alt in *. intros k recipe'.
  destruct op; cbn beta iota in Hinv.
  - destruct Hinv as (recipe & r & Hrecipe & Hr & -> & _). cbn.
    rewrite lookup_insert. case_decide; [|apply Hres].
    intros [= <-]. by rewrite (Hcat i recipe Hrecipe).
  - destruct Hinv as (r & _ & -> & _). apply Hres.
  - destruct Hinv as (r & _ & -> & _). apply Hres.
  - destruct Hinv as (j & node & r & _ & _ & _ & _ & -> & _). apply Hres.
  - destruct Hinv as (j & node & r & _ & _ & _ & _ & -> & _). apply Hres.
  - destruct Hinv as (r & _ & -> & _). apply Hres.
  - destruct Hinv as (j & node & r & _ & _ & _ & _ & -> & _). apply Hres.
  - destruct Hinv as [_ Htake].
    rewrite (takeFrom_recipes h u b h' k Htake). apply Hres.
  - destruct Hinv as [_ Hto].
    rewrite (outputTo_recipes h u b h' k Hto). apply Hres.
Qed.

(** what holds of every graph built by the calls *)
Lemma built_graph_invariant (P : Heap → FactoryGraph → Prop) cat ops :
  (∀ op h g h' g', graph_closed h g →
     graph_perform cat op (h, g) = Some (h', g') → P h g → P h' g') →
  ∀ h g h' g', graph_closed h g → P h g →
    graph_run cat ops (h, g) = Some (h', g') → P h' g'.
Proof.
  intros Hstep. induction ops as [|op ops IH]; intros h g h' g' Hclosed HP Hrun;
    cbn [graph_run] in Hrun.
  - by simplify_eq.
  - destruct (graph_perform cat op (h, g)) as [[h1 g1]|] eqn:Hop; [|discriminate].
    cbn in Hrun. eapply (IH h1 g1); [|by eapply Hstep|exact Hrun].
    by eapply graph_closed_perform.
Qed.

Lemma numbered_empty {K} (label : Heap → nat → option (string * K)) members
    family name_of :
  members empty_graph = ∅ →
  numbered label members family name_of empty_heap empty_graph
  ∧ distinctly_named label members empty_heap empty_graph.
Proof.
  intros Hempty. split.
  - intros r name i Hr. rewrite Hempty in Hr. set_solver.
  - intros r1 r2 l Hr. rewrite Hempty in Hr. set_solver.
Qed.

Lemma containers_named_reachable cat ops h g :
  graph_run cat ops (empty_heap, empty_graph) = Some (h, g) →
  containers_named cat h g.
Proof.
  apply (built_graph_invariant (containers_named cat)).
  - intros. by eapply containers_named_perform.
  - apply graph_closed_empty.
  - by apply numbered_empty.
Qed.

Lemma industries_named_reachable cat ops h g :
  catalog_coherent cat →
  graph_run cat ops (empty_heap, empty_graph) = Some (h, g) →
  industries_named cat h g.
Proof.
  intros Hcat. apply (built_graph_invariant (industries_named cat)).
  - intros. by eapply industries_named_perform.
  - apply graph_closed_empty.
  - by apply numbered_empty.
Qed.

Lemma transferUnits_named_reachable cat ops h g :
  graph_run cat ops (empty_heap, empty_graph) = Some (h, g) →
  transferUnits_named cat h g.
Proof.
  apply (built_graph_invariant (transferUnits_named cat)).
  - intros. by eapply transferUnits_named_perform.
  - apply graph_closed_empty.
  - by apply numbered_empty.
Qed.

Lemma transferContainers_named_reachable cat ops h g :
  graph_run cat ops (empty_heap, empty_graph) = Some (h, g) →
  transferContainers_named h g.
Proof.
  apply (built_graph_invariant transferContainers_named).
  - intros. by eapply transferContainers_named_perform.
  - apply graph_closed_empty.
  - by apply numbered_empty.
Qed.

Lemma recipes_resolve_reachable cat ops h g :
  catalog_coherent cat →
  graph_run cat ops (empty_heap, empty_graph) = Some (h, g) →
  recipes_resolve cat h.
Proof.
  intros Hcat. apply (built_graph_invariant (λ h _, recipes_resolve cat h)).
  - intros. by eapply recipes_resolve_graph_perform.
  - apply graph_closed_empty.
  - apply recipes_resolve_empty.
Qed.

Lemma containers_of_keep h g h' g' i :
  containers g' = containers g →
  (∀ r, r ∈ containers g → container_label h' r = container_label h r) →
  containers_of h' g' i = containers_of h g i.
Proof.
  intros Hmembers Hlabel. apply set_eq. intros r.
  rewrite !containers_of_spec, Hmembers. split.
  - intros [Hr [name Hname]]. rewrite Hlabel in Hname by done. eauto.
  - intros [Hr [name Hname]]. rewrite <- Hlabel in Hname by done. eauto.
Qed.

(** X18: [createTemporaryContainer] makes a container with the empty name
    that is recorded in [temporaryContainers] only: [getContainers] and
    [products] of the graph are as before the call. *)
Theorem temporary_container_hidden (cat : Catalog) (ops : list graph_operation)
    (h : Heap) (g : FactoryGraph) (i : Item) (h' : Heap) (g' : FactoryGraph)
    (r : nat) :
  graph_run cat ops (empty_heap, empty_graph) = Some (h, g) →
  FactoryGraph_createTemporaryContainer h g i = (h', g', r) →
  containerNodes h !! r = None
  ∧ containerNodes h' !! r = Some (ContainerNode_new "" i Num.one)
  ∧ temporaryContainers g' = temporaryContainers g ∪ {[r]}
  ∧ (r ∉ containers g')
  ∧ (∀ j, FactoryGraph_getContainers h' g' j = FactoryGraph_getContainers h g j)
  ∧ FactoryGraph_products h' g' = FactoryGraph_products h g.
Proof.
  intros Hrun Hcreate. apply graph_closed_reachable in Hrun as Hclosed.
  assert (Hop : graph_perform cat (CreateTemporaryContainer i) (h, g)
                = Some (h', g')).
  { cbn [graph_perform]. by rewrite Hcreate. }
  pose proof (graph_closed_perform _ _ _ _ _ _ Hop Hclosed) as Hclosed'.
  destruct (graph_perform_labels _ _ _ _ _ _ Hclosed Hop) as (Hlabel & _).
  pose proof Hclosed as (Gc & _).
  unfold FactoryGraph_createTemporaryContainer, new_ContainerNode in Hcreate.
  cbn in Hcreate. injection Hcreate as <- <- <-.
  assert (Hsame : ∀ j,
    containers_of
      (with_containerNodes
         (insert (fresh (dom (containerNodes h))) (ContainerNode_new "" i Num.one))
         h)
      {| containers := containers g; industries := industries g;
         transferUnits := transferUnits g;
         transferContainers := transferContainers g;
         temporaryContainers :=
           temporaryContainers g ∪ {[fresh (dom (containerNodes h))]} |} j
    = containers_of h g j).
  { intros j. apply containers_of_keep; [done|].
    intros r Hr. by apply Hlabel, Gc. }
  split; [apply fresh_lookup|]. split; [cbn; by rewrite lookup_insert_eq|].
  split; [done|]. split.
  { cbn. eapply fresh_not_member; [exact Gc|apply fresh_lookup]. }
  split.
  - intros j. by rewrite !getContainers_eq, Hsame.
  - destruct (products_eq h g Hclosed) as (ps & -> & Hin).
    destruct (products_eq _ _ Hclosed') as (ps' & -> & Hin').
    f_equal. apply set_eq. intros j. rewrite Hin, Hin'.
    by setoid_rewrite Hsame.
Qed.

(** A temporary aluminium container leaves the containers of
    [built_graph] as they are. *)
Lemma temporary_container_hidden_witness :
  graph_run demo_catalog built_graph_ops (empty_heap, empty_graph)
  = Some (built_graph.1, built_graph.2)
  ∧ FactoryGraph_getContainers
      (FactoryGraph_createTemporaryContainer built_graph.1 built_graph.2
         aluminium).1.1
      (FactoryGraph_createTemporaryContainer built_graph.1 built_graph.2
         aluminium).1.2 aluminium
    = FactoryGraph_getContainers built_graph.1 built_graph.2 aluminium.
Proof.
  assert (Hrun : graph_run demo_catalog built_graph_ops (empty_heap, empty_graph)
                 = Some (built_graph.1, built_graph.2))
    by (vm_compute; reflexivity).
  split; [exact Hrun|].
  destruct (temporary_container_hidden demo_catalog built_graph_ops
              built_graph.1 built_graph.2 aluminium
              (FactoryGraph_createTemporaryContainer built_graph.1
                 built_graph.2 aluminium).1.1
              (FactoryGraph_createTemporaryContainer built_graph.1
                 built_graph.2 aluminium).1.2
              (FactoryGraph_createTemporaryContainer built_graph.1
                 built_graph.2 aluminium).2)
    as (_ & _ & _ & _ & Hget & _);
    [exact Hrun | vm_compute; reflexivity | apply Hget].
Defined.

(** X19: the containers of a graph built by [create] and wiring calls are
    named after their item, with a number below the count of the
    containers of that item, and two containers of one item never share
    a name. *)
Theorem container_names_distinct (cat : Catalog) (ops : list graph_operation)
    (h : Heap) (g : FactoryGraph) (r1 : nat) (n1 : ContainerNode) :
  graph_run cat ops (empty_heap, empty_graph) = Some (h, g) →
  r1 ∈ containers g →
  containerNodes h !! r1 = Some n1 →
  (∃ same k, FactoryGraph_getContainers h g (c_item n1) = Ret same
             ∧ (k < size same)%nat
             ∧ c_name n1 = container_name cat (c_item n1) k)
  ∧ ∀ r2 n2, r2 ∈ containers g → containerNodes h !! r2 = Some n2 →
             c_item n2 = c_item n1 → c_name n2 = c_name n1 → r2 = r1.
Proof.
  intros Hrun Hr1 Hn1. apply graph_closed_reachable in Hrun as Hclosed.
  destruct (containers_named_reachable _ _ _ _ Hrun) as [Hnum Hdist].
  assert (Hl1 : container_label h r1 = Some (c_name n1, c_item n1)).
  { unfold container_label. by rewrite Hn1. }
  split.
  - destruct (Hnum r1 _ _ Hr1 Hl1) as (k & Hk & Hname).
    exists (containers_of h g (c_item n1)), k.
    split; [by apply getContainers_eq|done].
  - intros r2 n2 Hr2 Hn2 Hitem Hname.
    apply (Hdist r2 r1 (c_name n1, c_item n1)); try done.
    unfold container_label. rewrite Hn2. cbn. by rewrite Hitem, Hname.
Qed.

(** The second aluminium container of [built_graph] is the only one with
    its name. *)
Lemma container_names_distinct_witness :
  containerNodes built_graph.1 !! 3%nat
  = Some (ContainerNode_new "Pure Aluminium C1" aluminium Num.one)
  ∧ ∀ r2 n2,
      r2 ∈ containers built_graph.2 →
      containerNodes built_graph.1 !! r2 = Some n2 →
      c_item n2 = aluminium → c_name n2 = "Pure Aluminium C1" → r2 = 3%nat.
Proof.
  split; [vm_compute; reflexivity|].
  destruct (container_names_distinct demo_catalog built_graph_ops
              built_graph.1 built_graph.2 3%nat
              (ContainerNode_new "Pure Aluminium C1" aluminium Num.one))
    as [_ Hdistinct];
    [vm_compute; reflexivity
    |apply (bool_decide_unpack _); vm_compute; exact I
    |vm_compute; reflexivity
    |exact Hdistinct].
Defined.

(** X20: with a catalog whose recipes make the item they are found for,
    the industries of a built graph are named after their product, with a
    number below the count of the industries of that product, and two
    industries of one product never share a name. *)
Theorem industry_names_distinct (cat : Catalog) (ops : list graph_operation)
    (h : Heap) (g : FactoryGraph) (r1 : nat) (n1 : IndustryNode) :
  catalog_coherent cat →
  graph_run cat ops (empty_heap, empty_graph) = Some (h, g) →
  r1 ∈ industries g →
  industryNodes h !! r1 = Some n1 →
  (∃ same k, FactoryGraph_getIndustries h g (IndustryNode_item n1) = Ret same
             ∧ (k < size same)%nat
             ∧ i_name n1 = industry_name cat (IndustryNode_item n1) k)
  ∧ ∀ r2 n2, r2 ∈ industries g → industryNodes h !! r2 = Some n2 →
             IndustryNode_item n2 = IndustryNode_item n1 →
             i_name n2 = i_name n1 → r2 = r1.
Proof.
  intros Hcat Hrun Hr1 Hn1. apply graph_closed_reachable in Hrun as Hclosed.
  destruct (industries_named_reachable _ _ _ _ Hcat Hrun) as [Hnum Hdist].
  assert (Hl1 : industry_product_label h r1
                = Some (i_name n1, IndustryNode_item n1)).
  { unfold industry_product_label. by rewrite Hn1. }
  split.
  - destruct (Hnum r1 _ _ Hr1 Hl1) as (k & Hk & Hname).
    exists (industries_of h g (IndustryNode_item n1)), k.
    split; [by apply getIndustries_eq|done].
  - intros r2 n2 Hr2 Hn2 Hitem Hname.
    apply (Hdist r2 r1 (i_name n1, IndustryNode_item n1)); try done.
    unfold industry_product_label. rewrite Hn2. cbn. by rewrite Hitem, Hname.
Qed.

(** The second aluminium industry of [built_graph] is the only one with
    its name. *)
Lemma industry_names_distinct_witness :
  industryNodes built_graph.1 !! 1%nat
  = Some {| i_name := "Pure Aluminium P1"; i_recipe := aluminium_recipe;
            i_inputs := ∅; i_output := None |}
  ∧ ∀ r2 n2,
      r2 ∈ industries built_graph.2 →
      industryNodes built_graph.1 !! r2 = Some n2 →
      IndustryNode_item n2 = aluminium → i_name n2 = "Pure Aluminium P1" →
      r2 = 1%nat.
Proof.
  split; [vm_compute; reflexivity|].
  destruct (industry_names_distinct demo_catalog built_graph_ops
              built_graph.1 built_graph.2 1%nat
              {| i_name := "Pure Aluminium P1"; i_recipe := aluminium_recipe;
                 i_inputs := ∅; i_output := None |} demo_catalog_coherent)
    as [_ Hdistinct];
    [vm_compute; reflexivity
    |apply (bool_decide_unpack _); vm_compute; exact I
    |vm_compute; reflexivity
    |exact Hdistinct].
Defined.

(** X21: in a built graph two transfer units of one item never share a
    name, and no two transfer containers share a name. *)
Theorem transfer_names_distinct (cat : Catalog) (ops : list graph_operation)
    (h : Heap) (g : FactoryGraph) :
  graph_run cat ops (empty_heap, empty_graph) = Some (h, g) →
  (∀ r1 r2 n1 n2,
     r1 ∈ transferUnits g → r2 ∈ transferUnits g →
     transferNodes h !! r1 = Some n1 → transferNodes h !! r2 = Some n2 →
     t_item n1 = t_item n2 → t_name n1 = t_name n2 → r1 = r2)
  ∧ (∀ r1 r2 n1 n2,
       r1 ∈ transferContainers g → r2 ∈ transferContainers g →
       transferContainerNodes h !! r1 = Some n1 →
       transferContainerNodes h !! r2 = Some n2 →
       tc_name n1 = tc_name n2 → r1 = r2).
Proof.
  intros Hrun.
  destruct (transferUnits_named_reachable _ _ _ _ Hrun) as [_ Hdist].
  destruct (transferContainers_named_reachable _ _ _ _ Hrun) as [_ Hdist'].
  split.
  - intros r1 r2 n1 n2 Hr1 Hr2 Hn1 Hn2 Hitem Hname.
    apply (Hdist r1 r2 (t_name n1, t_item n1)); try done.
    + unfold transfer_label. by rewrite Hn1.
    + unfold transfer_label. rewrite Hn2. cbn. by rewrite Hitem, Hname.
  - intros r1 r2 n1 n2 Hr1 Hr2 Hn1 Hn2 Hname.
    apply (Hdist' r1 r2 (tc_name n1, ())); try done.
    + unfold transferContainer_name_label. by rewrite Hn1.
    + unfold transferContainer_name_label. rewrite Hn2. cbn. by rewrite Hname.
Qed.

(** The transfer containers of [built_graph] have distinct names. *)
Lemma transfer_names_distinct_witness :
  graph_run demo_catalog built_graph_ops (empty_heap, empty_graph)
  = Some (built_graph.1, built_graph.2)
  ∧ ∀ r1 r2 n1 n2,
      r1 ∈ transferContainers built_graph.2 →
      r2 ∈ transferContainers built_graph.2 →
      transferContainerNodes built_graph.1 !! r1 = Some n1 →
      transferContainerNodes built_graph.1 !! r2 = Some n2 →
      tc_name n1 = tc_name n2 → r1 = r2.
Proof.
  assert (Hrun : graph_run demo_catalog built_graph_ops (empty_heap, empty_graph)
                 = Some (built_graph.1, built_graph.2))
    by (vm_compute; reflexivity).
  split; [exact Hrun|].
  destruct (transfer_names_distinct demo_catalog built_graph_ops
              built_graph.1 built_graph.2 Hrun) as [_ Hdistinct].
  exact Hdistinct.
Defined.

(** X22: [createIndustry] throws when no recipe is found for the item and
    returns otherwise; the new industry carries the recipe found and a
    name that ends in the count of [getIndustries] of the item, and
    [getIndustries] of the item returns it afterwards only if the recipe
    makes that item. *)
Theorem createIndustry_registers (cat : Catalog) (ops : list graph_operation)
    (h : Heap) (g : FactoryGraph) (i : Item) :
  graph_run cat ops (empty_heap, empty_graph) = Some (h, g) →
  (findRecipe cat i = None →
   FactoryGraph_createIndustry cat h g i = Throw NoRecipe)
  ∧ ∀ recipe, findRecipe cat i = Some recipe →
      ∃ h' g' r same,
        FactoryGraph_createIndustry cat h g i = Ret (h', g', r)
        ∧ industryNodes h !! r = None
        ∧ industryNodes h' !! r
          = Some {| i_name := industry_name cat i (size same);
                    i_recipe := recipe; i_inputs := ∅; i_output := None |}
        ∧ industries g' = industries g ∪ {[r]}
        ∧ FactoryGraph_getIndustries h g i = Ret same
        ∧ FactoryGraph_getIndustries h' g' i
          = Ret (if decide (item (product recipe) = i)
                 then same ∪ {[r]} else same).
Proof.
  intros Hrun. apply graph_closed_reachable in Hrun as Hclosed.
  unfold FactoryGraph_createIndustry.
  rewrite getIndustries_eq, bind_Ret by done.
  unfold IndustryNode_new, findRecipe_or_throw. split.
  - by intros ->.
  - intros recipe Hrecipe. rewrite Hrecipe. cbn.
    set (r := fresh (dom (industryNodes h))).
    set (node := {| i_name := _; i_recipe := recipe |}).
    set (h' := with_industryNodes (insert r node) h).
    set (g' := {| containers := containers g; industries := industries g ∪ {[r]} |}).
    assert (Hr : industryNodes h !! r = None) by apply fresh_lookup.
    assert (Hop : graph_perform cat (CreateIndustry i) (h, g) = Some (h', g')).
    { cbn [graph_perform]. unfold FactoryGraph_createIndustry.
      rewrite getIndustries_eq, bind_Ret by done.
      unfold IndustryNode_new, findRecipe_or_throw. by rewrite Hrecipe. }
    pose proof (graph_closed_perform _ _ _ _ _ _ Hop Hclosed) as Hclosed'.
    destruct (graph_perform_labels _ _ _ _ _ _ Hclosed Hop) as (_ & _ & Hlabel & _).
    pose proof Hclosed as (_ & Gi & _).
    assert (Hfresh : r ∉ industries g) by (by eapply fresh_not_member).
    exists h', g', r, (industries_of h g i).
    split; [done|]. split; [done|].
    split; [cbn; by rewrite lookup_insert_eq|]. split; [done|].
    split; [done|].
    rewrite getIndustries_eq by done. f_equal. apply set_eq. intros r'.
    assert (Hnew : industry_product_label h' r
                   = Some (i_name node, item (product recipe))).
    { unfold industry_product_label. cbn. by rewrite lookup_insert_eq. }
    assert (Hold : ∀ r', r' ∈ industries g →
              industry_product_label h' r' = industry_product_label h r').
    { intros r'' Hr''. rewrite !industry_product_label_eq. f_equal.
      by apply Hlabel, Gi. }
    rewrite industries_of_spec. cbn [industries g'].
    rewrite elem_of_union, elem_of_singleton.
    destruct (decide (item (product recipe) = i)) as [Hitem|Hitem].
    + rewrite elem_of_union, elem_of_singleton, industries_of_spec. split.
      * intros [[Hr'| ->] [name Hname]]; [|by right].
        left. split; [done|]. rewrite Hold in Hname by done. eauto.
      * intros [[Hr' [name Hname]]| ->].
        -- split; [by left|]. rewrite <- Hold in Hname by done. eauto.
        -- split; [by right|]. rewrite Hnew, Hitem. eauto.
    + rewrite industries_of_spec. split.
      * intros [[Hr'| ->] [name Hname]].
        -- split; [done|]. rewrite Hold in Hname by done. eauto.
        -- rewrite Hnew in Hname. by simplify_eq.
      * intros [Hr' [name Hname]].
        split; [by left|]. rewrite <- Hold in Hname by done. eauto.
Qed.

(** In [built_graph] an industry for bauxite cannot be made, and the
    first frame industry is numbered 0. *)
Lemma createIndustry_registers_witness :
  FactoryGraph_createIndustry demo_catalog built_graph.1 built_graph.2 bauxite
  = Throw NoRecipe
  ∧ ∃ h' g' r,
      FactoryGraph_createIndustry demo_catalog built_graph.1 built_graph.2 frame
      = Ret (h', g', r)
      ∧ i_name <$> industryNodes h' !! r = Some "Basic Standard Frame P0".
Proof.
  split.
  - apply (createIndustry_registers demo_catalog built_graph_ops);
      [vm_compute; reflexivity | reflexivity].
  - destruct (createIndustry_registers demo_catalog built_graph_ops
                built_graph.1 built_graph.2 frame) as [_ Hcreate];
      [vm_compute; reflexivity|].
    destruct (Hcreate frame_recipe) as (h' & g' & r & same & Hret & _ & Hnode
                                        & _ & Hsame & _); [reflexivity|].
    exists h', g', r. split; [exact Hret|]. rewrite Hnode.
    cbn [fmap option_fmap option_map i_name].
    vm_compute in Hsame. injection Hsame as <-. vm_compute. reflexivity.
Defined.

Lemma filter_nodes_ext {A} (m : gmap nat A) (p q : A → outcome bool)
    (refs : list nat) :
  (∀ r node, r ∈ refs → m !! r = Some node → p node = q node) →
  filter_nodes m p refs = filter_nodes m q refs.
Proof.
  unfold filter_nodes. intros Hext.
  assert (Hgen : ∀ kept,
    foldM (λ kept r, node ← deref m r; keep ← p node;
                     Ret (if keep : bool then kept ++ [r] else kept)) refs kept
    = foldM (λ kept r, node ← deref m r; keep ← q node;
                       Ret (if keep : bool then kept ++ [r] else kept)) refs kept).
  { induction refs as [|r refs IH]; intros kept; [done|].
    cbn [foldM].
    destruct (deref m r) as [node| |] eqn:Hnode; [|done..].
    assert (Hr : m !! r = Some node).
    { unfold deref in Hnode. destruct (m !! r); by simplify_eq/=. }
    rewrite !bind_Ret, (Hext r node) by (done || left).
    destruct (q node) as [keep| |]; [|done..]. rewrite !bind_Ret.
    apply IH. intros r' node' Hr'. apply Hext. by right. }
  apply Hgen.
Qed.

(** X23: with a catalog whose recipes make the item they are found for,
    [getConsumers] returns on a built graph, and gives the industries
    whose recipe has the item among its ingredients. *)
Theorem getConsumers_result (cat : Catalog) (ops : list graph_operation)
    (h : Heap) (g : FactoryGraph) (i : Item) :
  catalog_coherent cat →
  graph_run cat ops (empty_heap, empty_graph) = Some (h, g) →
  ∃ consumers,
    FactoryGraph_getConsumers cat h g i = Ret consumers
    ∧ ∀ r, r ∈ consumers
           ↔ r ∈ industries g
             ∧ ∃ node ingredient,
                 industryNodes h !! r = Some node
                 ∧ ingredient ∈ ingredients (i_recipe node)
                 ∧ item ingredient = i.
Proof.
  intros Hcat Hrun. apply graph_closed_reachable in Hrun as Hclosed.
  pose proof (recipes_resolve_reachable _ _ _ _ Hcat Hrun) as Hres.
  pose proof Hclosed as (_ & Gi & _).
  unfold FactoryGraph_getConsumers.
  rewrite (filter_nodes_ext _ _
             (λ node, Ret (existsb (λ ingredient, bool_decide (item ingredient = i))
                             (ingredients (i_recipe node))))).
  2:{ intros r node _ Hnode. unfold findRecipe_or_throw.
      by rewrite (Hres r node Hnode). }
  rewrite filter_nodes_pure, bind_Ret
    by (intros r Hr; apply Gi; by apply elem_of_elements).
  eexists. split; [reflexivity|]. intros r.
  rewrite elem_of_list_to_set, list_elem_of_filter, elem_of_elements.
  destruct (industryNodes h !! r) as [node|]; cbn.
  - rewrite existsb_exists. split.
    + intros [(ingredient & Hin & Hitem%bool_decide_eq_true) Hr].
      split; [done|]. exists node, ingredient.
      split; [done|]. split; [by apply list_elem_of_In|done].
    + intros [Hr (node' & ingredient & [= <-] & Hin & Hitem)].
      split; [|done]. exists ingredient.
      split; [by apply list_elem_of_In|by apply bool_decide_eq_true].
  - split; [by intros []|]. by intros [_ (? & ? & ? & _)].
Qed.

(** Both aluminium industries of [built_graph] consume bauxite. *)
Lemma getConsumers_result_witness :
  ∃ consumers,
    FactoryGraph_getConsumers demo_catalog built_graph.1 built_graph.2 bauxite
    = Ret consumers
    ∧ 0%nat ∈ consumers ∧ 1%nat ∈ consumers.
Proof.
  destruct (getConsumers_result demo_catalog built_graph_ops built_graph.1
              built_graph.2 bauxite demo_catalog_coherent)
    as (consumers & Hret & Hin); [vm_compute; reflexivity|].
  exists consumers. split; [exact Hret|].
  split; apply Hin.
  - split; [apply (bool_decide_unpack _); vm_compute; exact I|].
    eexists _, {| item := bauxite; quantity := Num.of_Z 65 |}.
    split; [vm_compute; reflexivity|]. split; [left|reflexivity].
  - split; [apply (bool_decide_unpack _); vm_compute; exact I|].
    eexists _, {| item := bauxite; quantity := Num.of_Z 65 |}.
    split; [vm_compute; reflexivity|]. split; [left|reflexivity].
Defined.
